(** * lwan: the connection engine and its generic hash table

    A shallow embedding of [hash.c] and [lwan.c]: the hash table with its
    sorted buckets, the per-connection state and its reset, the worker
    reactor ([_thread]) with its death-queue ring, the acceptor
    ([_push_request_fd], [lwan_main_loop]), the slab set-up of
    [lwan_init] and the URL map life cycle.

    C integers are [Z]: unsigned arithmetic with its wrap-around
    written out, the signed arithmetic of the reactor undefined where
    it overflows.  C arrays are lists read with [!!] and written with
    [<[ _ := _ ]>], and every call that leaves the program (system
    calls, the coroutine runtime, the string buffers, handler
    call-backs) is recorded in a trace. *)

From Stdlib Require Import ZArith Lia Bool String Ascii.
From stdpp Require Import base list sorting.

(** ** Traces of external calls

    A computation returns the calls it made, in order, and either a
    value, the status the process exited with, or [Undefined] when the C
    code would read or write outside an object. *)

Module Trace.
Inductive result (A : Type) : Type :=
| Ok (a : A)
| Exit (code : Z)
| Undefined.
Arguments Ok {A} a.
Arguments Exit {A} code.
Arguments Undefined {A}.

Section Monad.
Context {C : Type}.

Definition io (A : Type) : Type := (list C * result A)%type.

Definition ret {A} (a : A) : io A := ([], Ok a).
Definition emit (c : C) : io unit := ([c], Ok tt).
Definition exit {A} (code : Z) : io A := ([], Exit code).
Definition undefined {A} : io A := ([], Undefined).

Definition bind {A B} (m : io A) (k : A -> io B) : io B :=
  match m with
  | (t, Ok a) => let '(t', r) := k a in (t ++ t', r)
  | (t, Exit code) => (t, Exit code)
  | (t, Undefined) => (t, Undefined)
  end.

(** A C array read: outside the array the behaviour is undefined. *)
Definition index {A} (l : list A) (i : Z) : io A :=
  if (i <? 0)%Z then undefined
  else match l !! Z.to_nat i with
       | Some a => ret a
       | None => undefined
       end.

(** A C array write. *)
Definition store {A} (l : list A) (i : Z) (a : A) : io (list A) :=
  if (i <? 0)%Z then undefined
  else if decide (Z.to_nat i < length l)%nat then ret (<[Z.to_nat i := a]> l)
  else undefined.

(** [returns m P]: the computation returns, and [P] holds of the calls
    it made and of its result. *)
Definition returns {A} (m : io A) (P : list C -> A -> Prop) : Prop :=
  match m with
  | (t, Ok a) => P t a
  | _ => False
  end.
End Monad.
Arguments io : clear implicits.
End Trace.
Import Trace.

Notation "'let*' x ':=' m 'in' k" := (bind m (fun x => k))
  (at level 10, x pattern, m at level 100, k at level 200,
   format "'[v' 'let*'  x  ':='  m  'in' '/' k ']'").

(** ** Machine integers *)

Module CInt.
Local Open Scope Z_scope.

(** [unsigned int]: arithmetic modulo 2^32. *)
Definition wrap_uint (z : Z) : Z := z mod 2 ^ 32.

Definition INT_MAX : Z := 2 ^ 31 - 1.
Definition INT_MIN : Z := - 2 ^ 31.

(** Conversion of a wider integer to [int]. *)
Definition to_int (z : Z) : Z := (z + 2 ^ 31) mod 2 ^ 32 - 2 ^ 31.

(** [int]: an overflow is undefined, so is a division by zero. *)
Definition int_incr {C} (z : Z) : Trace.io C Z :=
  if z <? INT_MAX then ret (z + 1) else undefined.

Definition int_decr {C} (z : Z) : Trace.io C Z :=
  if INT_MIN <? z then ret (z - 1) else undefined.

Definition int_rem {C} (a b : Z) : Trace.io C Z :=
  if b =? 0 then undefined
  else if (a =? INT_MIN) && (b =? -1) then undefined
  else ret (Z.rem a b).
End CInt.
Import CInt.

(** ** The hash table of [hash.c] *)

Module Hash.
Local Open Scope Z_scope.

Definition EEXIST : Z := 17.
Definition ENOENT : Z := 2.
Definition ENOMEM : Z := 12.

Section Table.
(** Keys and values are pointers the table does not look into. *)
Context {K V : Type}.

Record hash_entry : Type := { key : K; value : V }.

(** [entries] holds the [used] entries the array starts with,
    [total] is the number of entries allocated. *)
Record hash_bucket : Type := {
  entries : list hash_entry;
  total : Z
}.

Definition used (b : hash_bucket) : Z := Z.of_nat (length (entries b)).

(** [free_value] and [free_key] tell whether the call-back is set. *)
Record hash : Type := {
  count : Z;
  step : Z;
  n_buckets : Z;
  hash_value : K -> Z -> Z;
  key_compare : K -> K -> Z -> Z;
  entry_compare : hash_entry -> hash_entry -> Z;
  key_length : K -> Z;
  free_value : bool;
  free_key : bool;
  buckets : list hash_bucket
}.

(** The call-backs the table calls. *)
Inductive hcall : Type :=
| Cfree_value (v : V)
| Cfree_key (k : K).

Abbreviation hio := (Trace.io hcall).

Definition set_buckets (bs : list hash_bucket) (c : Z) (h : hash) : hash :=
  {| count := c; step := step h; n_buckets := n_buckets h;
     hash_value := hash_value h; key_compare := key_compare h;
     entry_compare := entry_compare h; key_length := key_length h;
     free_value := free_value h; free_key := free_key h;
     buckets := bs |}.

Definition hash_internal_new (n : Z)
    (hv : K -> Z -> Z) (kc : K -> K -> Z -> Z)
    (ec : hash_entry -> hash_entry -> Z) (kl : K -> Z)
    (fk fv : bool) : hash :=
  let st := n / 32 in
  {| count := 0;
     step := if st =? 0 then 4 else if 64 <? st then 64 else st;
     n_buckets := n;
     hash_value := hv; key_compare := kc; entry_compare := ec;
     key_length := kl; free_value := fv; free_key := fk;
     buckets := replicate (Z.to_nat n) {| entries := []; total := 0 |} |}.

(** [hashval % hash->n_buckets]. *)
Definition bucket_pos (h : hash) (k : K) : hio Z :=
  let keylen := wrap_uint (key_length h k) in
  let hashval := wrap_uint (hash_value h k keylen) in
  if n_buckets h =? 0 then undefined else ret (hashval mod n_buckets h).

(** The [realloc] at the head of [hash_add]: [None] when it fails. *)
Definition grow (h : hash) (realloc_ok : bool) (b : hash_bucket)
    : option hash_bucket :=
  if wrap_uint (used b + 1) >=? total b then
    if realloc_ok
    then Some {| entries := entries b; total := wrap_uint (total b + step h) |}
    else None
  else Some b.

(** Where the loop over the entries stops. *)
Inductive stop : Type := Equal | Less | End_.

(** The loop [for (; entry < entry_end; entry++)] of [hash_add]:
    the index of [entry] when the loop is left, and why. *)
Fixpoint scan (cmp : K -> Z) (es : list hash_entry) (i : nat) : nat * stop :=
  match es with
  | [] => (i, End_)
  | e :: es =>
      let c := cmp (key e) in
      if c =? 0 then (i, Equal)
      else if c <? 0 then (i, Less)
      else scan cmp es (S i)
  end.

Definition hash_add (realloc_ok : bool) (h : hash) (k : K) (v : V)
    : hio (Z * hash) :=
  let keylen := wrap_uint (key_length h k) in
  let* pos := bucket_pos h k in
  let* bucket := index (buckets h) pos in
  match grow h realloc_ok bucket with
  | None => ret (- ENOMEM, h)
  | Some bucket =>
      match scan (fun k' => key_compare h k k' keylen) (entries bucket) O with
      | (i, Equal) =>
          let* e := index (entries bucket) (Z.of_nat i) in
          let* _ := (if free_value h then emit (Cfree_value (value e))
                     else ret tt) in
          let es := <[i := {| key := key e; value := v |}]> (entries bucket) in
          let* bs := store (buckets h) pos
                       {| entries := es; total := total bucket |} in
          ret (0, set_buckets bs (count h) h)
      | (i, _) =>
          let es := take i (entries bucket)
                    ++ {| key := k; value := v |} :: drop i (entries bucket) in
          let* bs := store (buckets h) pos
                       {| entries := es; total := total bucket |} in
          ret (0, set_buckets bs (wrap_uint (count h + 1)) h)
      end
  end.

Definition hash_add_unique (realloc_ok : bool) (h : hash) (k : K) (v : V)
    : hio (Z * hash) :=
  let keylen := wrap_uint (key_length h k) in
  let* pos := bucket_pos h k in
  let* bucket := index (buckets h) pos in
  match grow h realloc_ok bucket with
  | None => ret (- ENOMEM, h)
  | Some bucket =>
      match scan (fun k' => key_compare h k k' keylen) (entries bucket) O with
      | (i, Equal) =>
          let* bs := store (buckets h) pos bucket in
          ret (- EEXIST, set_buckets bs (count h) h)
      | (i, _) =>
          let es := take i (entries bucket)
                    ++ {| key := k; value := v |} :: drop i (entries bucket) in
          let* bs := store (buckets h) pos
                       {| entries := es; total := total bucket |} in
          ret (0, set_buckets bs (wrap_uint (count h + 1)) h)
      end
  end.

(** The binary search of [hash_find_entry] in one bucket: the index
    of the entry found.  An iteration shrinks the interval, so
    [fuel], the number of entries, is never used up. *)
Fixpoint bsearch (fuel : nat) (cmp : K -> Z) (es : list hash_entry)
    (lower_bound upper_bound : Z) : option nat :=
  match fuel with
  | O => None
  | S fuel =>
      if lower_bound <? upper_bound then
        let idx := (lower_bound + upper_bound) / 2 in
        match es !! Z.to_nat idx with
        | None => None
        | Some ptr =>
            let c := cmp (key ptr) in
            if c =? 0 then Some (Z.to_nat idx)
            else if 0 <? c then bsearch fuel cmp es (idx + 1) upper_bound
            else bsearch fuel cmp es lower_bound idx
        end
      else None
  end.

Definition hash_find_entry (h : hash) (k : K) (hashval keylen : Z)
    : hio (option (Z * nat)) :=
  if n_buckets h =? 0 then undefined
  else
    let pos := hashval mod n_buckets h in
    let* bucket := index (buckets h) pos in
    match bsearch (S (length (entries bucket)))
            (fun k' => key_compare h k k' keylen) (entries bucket)
            0 (used bucket) with
    | Some i => ret (Some (pos, i))
    | None => ret None
    end.

Definition hash_find (h : hash) (k : K) : hio (option V) :=
  let keylen := wrap_uint (key_length h k) in
  let* entry := hash_find_entry h k (wrap_uint (hash_value h k keylen)) keylen in
  match entry with
  | Some (pos, i) =>
      let* bucket := index (buckets h) pos in
      let* e := index (entries bucket) (Z.of_nat i) in
      ret (Some (value e))
  | None => ret None
  end.

Definition hash_del (realloc_ok : bool) (h : hash) (k : K) : hio (Z * hash) :=
  let keylen := wrap_uint (key_length h k) in
  let hashval := wrap_uint (hash_value h k keylen) in
  let* entry := hash_find_entry h k hashval keylen in
  match entry with
  | None => ret (- ENOENT, h)
  | Some (pos, i) =>
      let* bucket := index (buckets h) pos in
      let* e := index (entries bucket) (Z.of_nat i) in
      let* _ := (if free_value h then emit (Cfree_value (value e)) else ret tt) in
      let* _ := (if free_key h then emit (Cfree_key (key e)) else ret tt) in
      let es := take i (entries bucket) ++ drop (S i) (entries bucket) in
      let used' := Z.of_nat (length es) in
      if step h =? 0 then undefined
      else
        let steps_used := used' / step h in
        let steps_total := total bucket / step h in
        let total' :=
          if (wrap_uint (steps_used + 1) <? steps_total) && realloc_ok
          then wrap_uint (wrap_uint (steps_used + 1) * step h)
          else total bucket in
        let* bs := store (buckets h) pos {| entries := es; total := total' |} in
        ret (0, set_buckets bs (wrap_uint (count h - 1)) h)
  end.

Definition hash_get_count (h : hash) : Z := count h.

(** *** What the table relies on

    The bucket a key belongs to, the keys of a bucket in the order of
    its array, and the pairs the table holds. *)
Definition home (h : hash) (k : K) : Z :=
  wrap_uint (hash_value h k (wrap_uint (key_length h k))) mod n_buckets h.

Definition keys (b : hash_bucket) : list K := key <$> entries b.

Definition present (h : hash) (k : K) (v : V) : Prop :=
  exists b, b ∈ buckets h /\ {| key := k; value := v |} ∈ entries b.

(** A comparator is lawful on the keys of [dom] when its sign decides
    a strict order [lt] on them and it returns 0 on equal keys only.
    The length it is given is the length of its first argument, as in
    every call of the table. *)
Record lawful (lt : K -> K -> Prop) (dom : K -> Prop)
    (cmp : K -> K -> Z -> Z) (len : K -> Z) : Prop := {
  lt_irrefl : forall k, ~ lt k k;
  lt_trans : forall a b c, lt a b -> lt b c -> lt a c;
  compare_sign : forall k k', dom k -> dom k' ->
    let c := cmp k k' (wrap_uint (len k)) in
    (c < 0 /\ lt k k') \/ (c = 0 /\ k = k') \/ (0 < c /\ lt k' k)
}.

(** The buckets are the array the table was allocated with, the keys
    of every bucket increase strictly along its array, and every key
    is in the bucket its hash value selects. *)
Record table_ok (lt : K -> K -> Prop) (dom : K -> Prop) (h : hash) : Prop := {
  ok_n_buckets : 0 < n_buckets h;
  ok_step : 0 < step h;
  ok_length : length (buckets h) = Z.to_nat (n_buckets h);
  ok_sorted : forall b, b ∈ buckets h -> StronglySorted lt (keys b);
  ok_home : forall i b k, buckets h !! i = Some b -> k ∈ keys b ->
    dom k /\ home h k = Z.of_nat i
}.

(** A call that changes the table; [realloc_ok] tells whether the
    [realloc] of the call succeeds. *)
Inductive hash_op : Type :=
| Add (realloc_ok : bool) (k : K) (v : V)
| Add_unique (realloc_ok : bool) (k : K) (v : V)
| Del (realloc_ok : bool) (k : K).

Definition op_key (o : hash_op) : K :=
  match o with
  | Add _ k _ | Add_unique _ k _ | Del _ k => k
  end.

Definition hash_call (o : hash_op) (h : hash) : hio (Z * hash) :=
  match o with
  | Add realloc_ok k v => hash_add realloc_ok h k v
  | Add_unique realloc_ok k v => hash_add_unique realloc_ok h k v
  | Del realloc_ok k => hash_del realloc_ok h k
  end.

(** A sequence of calls, whatever they return. *)
Fixpoint hash_calls (os : list hash_op) (h : hash) : hio hash :=
  match os with
  | [] => ret h
  | o :: os =>
      let* r := hash_call o h in
      hash_calls os (snd r)
  end.

(** The entries of the table, bucket by bucket, each bucket in the
    order of its array. *)
Definition pairs (h : hash) : list hash_entry :=
  concat (entries <$> buckets h).

(** *** [hash_free] *)

(** The loop over the entries of a bucket. *)
Fixpoint hash_free_entries (h : hash) (es : list hash_entry) : hio unit :=
  match es with
  | [] => ret tt
  | entry :: es =>
      let* _ := emit (Cfree_value (value entry)) in
      let* _ := (if free_key h then emit (Cfree_key (key entry)) else ret tt) in
      hash_free_entries h es
  end.

(** The loop over the buckets: [n] buckets from [pos] on. *)
Fixpoint hash_free_buckets (h : hash) (n : nat) (pos : Z) : hio unit :=
  match n with
  | O => ret tt
  | S n =>
      let* bucket := index (buckets h) pos in
      let* _ := (if free_value h then hash_free_entries h (entries bucket)
                 else ret tt) in
      hash_free_buckets h n (pos + 1)
  end.

(** The call-backs [hash_free] makes for an entry when [free_value]
    is set. *)
Definition free_calls (h : hash) (entry : hash_entry) : list hcall :=
  Cfree_value (value entry)
  :: (if free_key h then [Cfree_key (key entry)] else []).

(** [hash_free]; [None] is [NULL]. *)
Definition hash_free (h : option hash) : hio unit :=
  match h with
  | None => ret tt
  | Some h => hash_free_buckets h (Z.to_nat (n_buckets h)) 0
  end.

(** *** The iterator *)

(** [struct hash_iter].  [hash.h] is not among the sources: [bucket]
    and [entry] are taken to be [unsigned int], like the fields of the
    table they are compared with. *)
Record hash_iter : Type := {
  iter_hash : hash;
  iter_bucket : Z;
  iter_entry : Z
}.

Definition hash_iter_init (h : hash) : hash_iter :=
  {| iter_hash := h; iter_bucket := 0; iter_entry := wrap_uint (-1) |}.

(** The loop [for (iter->bucket++; ...; iter->bucket++)] of
    [hash_iter_next] from its first test on: the bucket it stops at.
    Every iteration moves to the next bucket; the loop is undefined
    here when [fuel] iterations did not end it. *)
Fixpoint hash_iter_skip (fuel : nat) (h : hash) (bucket : Z) : hio Z :=
  match fuel with
  | O => undefined
  | S fuel =>
      if bucket <? n_buckets h then
        let* b := index (buckets h) bucket in
        if 0 <? used b then ret bucket
        else hash_iter_skip fuel h (wrap_uint (bucket + 1))
      else ret bucket
  end.

(** [hash_iter_next]: the pair stored through [key] and [value] when
    the result is [true], and the iterator as the call leaves it. *)
Definition hash_iter_next (iter : hash_iter)
    : hio (option (K * V) * hash_iter) :=
  let h := iter_hash iter in
  let* b := index (buckets h) (iter_bucket iter) in
  let entry := wrap_uint (iter_entry iter + 1) in
  if entry >=? used b then
    let* bucket :=
      hash_iter_skip (S (Z.to_nat (n_buckets h))) h
        (wrap_uint (iter_bucket iter + 1)) in
    let iter := {| iter_hash := h; iter_bucket := bucket; iter_entry := 0 |} in
    if bucket >=? n_buckets h then ret (None, iter)
    else
      let* b := index (buckets h) bucket in
      let* e := index (entries b) 0 in
      ret (Some (key e, value e), iter)
  else
    let* e := index (entries b) entry in
    ret (Some (key e, value e),
         {| iter_hash := h; iter_bucket := iter_bucket iter;
            iter_entry := entry |}).

(** [while (hash_iter_next(&iter, &key, &value))]: the pairs the loop
    sees, or [None] when [fuel] calls did not reach the end. *)
Fixpoint hash_iter_loop (fuel : nat) (iter : hash_iter)
    : hio (option (list (K * V))) :=
  match fuel with
  | O => ret None
  | S fuel =>
      let* r := hash_iter_next iter in
      match fst r with
      | None => ret (Some [])
      | Some kv =>
          let* l := hash_iter_loop fuel (snd r) in
          ret (cons kv <$> l)
      end
  end.
End Table.
Arguments hash_entry : clear implicits.
Arguments hash_bucket : clear implicits.
Arguments hash : clear implicits.
Arguments hcall : clear implicits.
Arguments hash_op : clear implicits.
Arguments hash_iter : clear implicits.

(** *** String keys *)

(** A C string is the list of its characters before the terminator;
    [code] is a character as [unsigned char], [schar] as [char]
    (signed, as on x86). *)
Definition code (c : ascii) : Z := Z.of_nat (nat_of_ascii c).
Definition schar (c : ascii) : Z := if code c <? 128 then code c else code c - 256.

Fixpoint strncmp (s1 s2 : string) (n : nat) : Z :=
  match n with
  | O => 0
  | S n =>
      match s1, s2 with
      | EmptyString, EmptyString => 0
      | EmptyString, String c2 _ => - code c2
      | String c1 _, EmptyString => code c1
      | String c1 s1', String c2 s2' =>
          if code c1 =? code c2 then strncmp s1' s2' n
          else code c1 - code c2
      end
  end.

Fixpoint strcmp (s1 s2 : string) : Z :=
  match s1, s2 with
  | EmptyString, EmptyString => 0
  | EmptyString, String c2 _ => - code c2
  | String c1 _, EmptyString => code c1
  | String c1 s1', String c2 s2' =>
      if code c1 =? code c2 then strcmp s1' s2'
      else code c1 - code c2
  end.

Definition strlen (s : string) : Z := Z.of_nat (String.length s).

(** The character at an offset, and [get_unaligned] of a [uint16_t]
    there (little endian). *)
Definition char_at (s : string) (i : nat) : ascii :=
  match String.get i s with Some c => c | None => Ascii.zero end.
Definition get_unaligned16 (s : string) (i : nat) : Z :=
  code (char_at s i) + 256 * code (char_at s (S i)).

(** The main loop of [hash_superfast]: [len] iterations from offset
    [i]. *)
Fixpoint hash_superfast_loop (len : nat) (key : string) (i : nat) (hash : Z)
    : nat * Z :=
  match len with
  | O => (i, hash)
  | S len =>
      let hash := wrap_uint (hash + get_unaligned16 key i) in
      let tmp := Z.lxor (wrap_uint (Z.shiftl (get_unaligned16 key (i + 2)) 11)) hash in
      let hash := Z.lxor (wrap_uint (Z.shiftl hash 16)) tmp in
      let hash := wrap_uint (hash + Z.shiftr hash 11) in
      hash_superfast_loop len key (i + 4) hash
  end.

Definition hash_superfast (key : string) (len : Z) : Z :=
  let rem := Z.land len 3 in
  let '(i, hash) := hash_superfast_loop (Z.to_nat (len / 4)) key O len in
  let hash :=
    if rem =? 3 then
      let hash := wrap_uint (hash + get_unaligned16 key i) in
      let hash := Z.lxor hash (wrap_uint (Z.shiftl hash 16)) in
      let hash := Z.lxor hash (wrap_uint (Z.shiftl (schar (char_at key (i + 2))) 18)) in
      wrap_uint (hash + Z.shiftr hash 11)
    else if rem =? 2 then
      let hash := wrap_uint (hash + get_unaligned16 key i) in
      let hash := Z.lxor hash (wrap_uint (Z.shiftl hash 11)) in
      wrap_uint (hash + Z.shiftr hash 17)
    else if rem =? 1 then
      let hash := wrap_uint (hash + schar (char_at key i)) in
      let hash := Z.lxor hash (wrap_uint (Z.shiftl hash 10)) in
      wrap_uint (hash + Z.shiftr hash 1)
    else hash in
  let hash := Z.lxor hash (wrap_uint (Z.shiftl hash 3)) in
  let hash := wrap_uint (hash + Z.shiftr hash 5) in
  let hash := Z.lxor hash (wrap_uint (Z.shiftl hash 4)) in
  let hash := wrap_uint (hash + Z.shiftr hash 17) in
  let hash := Z.lxor hash (wrap_uint (Z.shiftl hash 25)) in
  wrap_uint (hash + Z.shiftr hash 6).

Definition hash_str_entry_cmp {V} (a b : hash_entry string V) : Z :=
  strcmp (key a) (key b).

Definition hash_str_new {V} (n_buckets : Z) (free_key free_value : bool)
    : hash string V :=
  hash_internal_new n_buckets
    hash_superfast
    (fun k1 k2 len => strncmp k1 k2 (Z.to_nat len))
    hash_str_entry_cmp
    strlen
    free_key free_value.

(** The strings that are C strings of a length [unsigned int] holds:
    no character before the end is NUL. *)
Fixpoint no_nul (s : string) : bool :=
  match s with
  | EmptyString => true
  | String c s => negb (code c =? 0) && no_nul s
  end.

Definition c_string (s : string) : Prop :=
  no_nul s = true /\ strlen s < 2 ^ 32.

(** No key of the set is a proper prefix of another. *)
Definition prefix_free (keys : string -> Prop) : Prop :=
  forall s t, keys s -> keys (s ++ t)%string -> t = ""%string.

(** *** Integer keys: the key is the pointer itself, cut to [int]

    The [int] arithmetic of [hash_int] and of the two comparators is
    written with its two's complement result.  A difference of two
    [int]s that are far apart overflows: the comparators order the
    keys only where it does not, as on the keys of [int_key] below. *)

Definition hash_int (keyptr : Z) (len : Z) : Z :=
  let key := to_int keyptr in
  let c2 := 668265261 in
  let key := Z.lxor (Z.lxor key 61) (Z.shiftr key 16) in
  let key := to_int (key + to_int (Z.shiftl key 3)) in
  let key := Z.lxor key (Z.shiftr key 4) in
  let key := to_int (key * c2) in
  let key := Z.lxor key (Z.shiftr key 15) in
  wrap_uint key.

Definition hash_int_key_cmp (k1 k2 : Z) (len : Z) : Z :=
  to_int (to_int k1 - to_int k2).

Definition hash_int_entry_cmp {V} (a b : hash_entry Z V) : Z :=
  to_int (to_int (key a) - to_int (key b)).

Definition hash_int_length (key : Z) : Z := 4.

(** The keys an [int] holds without a sign: file descriptors and the
    like. *)
Definition int_key (k : Z) : Prop := 0 <= k <= INT_MAX.

Definition hash_int_new {V} (n_buckets : Z) (free_key free_value : bool)
    : hash Z V :=
  hash_internal_new n_buckets
    hash_int hash_int_key_cmp hash_int_entry_cmp hash_int_length
    free_key free_value.
End Hash.

(** ** Data model of [lwan.c] *)

Module Lwan.
Local Open Scope Z_scope.

(** *** Constants of [<sys/epoll.h>] *)

Definition EPOLLIN : Z := 1.
Definition EPOLLOUT : Z := 4.
Definition EPOLLERR : Z := 8.
Definition EPOLLHUP : Z := 16.
Definition EPOLLRDHUP : Z := 8192.
Definition EPOLLET : Z := Z.shiftl 1 31.

Definition EBADF : Z := 9.
Definition EINVAL : Z := 22.

Inductive epoll_op : Type := EPOLL_CTL_ADD | EPOLL_CTL_MOD.

(** [lwan_key_value_t *]: [NULL], the static [empty_query_string_kv]
    or an array on the heap (with the pairs it holds). *)
Inductive kv_ptr : Type :=
| KvNull
| KvEmpty
| KvHeap (p : nat) (pairs : list (string * string)).

Definition empty_query_string_kv : kv_ptr := KvEmpty.

Definition kv_ptr_eqb (a b : kv_ptr) : bool :=
  match a, b with
  | KvNull, KvNull => true
  | KvEmpty, KvEmpty => true
  | KvHeap p _, KvHeap q _ => Nat.eqb p q
  | _, _ => false
  end.

(** The sequence of pairs a table denotes: the static table holds its
    terminator only. *)
Definition query_params (base : kv_ptr) : option (list (string * string)) :=
  match base with
  | KvNull => None
  | KvEmpty => Some []
  | KvHeap _ pairs => Some pairs
  end.

(** The calls that leave [lwan.c]. *)
Inductive call : Type :=
| Cepoll_ctl (epfd : Z) (op : epoll_op) (fd : Z) (events : Z)
| Cepoll_wait (epfd : Z) (maxevents : Z) (timeout : Z)
| Caccept4 (sockfd : Z)
| Cclose (fd : Z)
| Cperror (msg : string)
| Cgetrlimit
| Csetrlimit (cur max : Z)
| Ccoro_new (id : nat)
| Ccoro_resume (id : nat)
| Ccoro_free (id : nat)
| Cfree (p : kv_ptr)
| Cstrbuf_new (id : nat)
| Cstrbuf_reset (id : nat)
| Cstrbuf_free (id : option nat)
| Ctrie_new
| Ctrie_destroy
| Ctrie_add (prefix : string)
| Chandler_init (handler : nat) (args : Z)
| Chandler_shutdown (handler : nat) (data : Z)
| Cdir_watch_process_events.

Abbreviation io := (Trace.io call).

(** A coroutine ([coro_t], owned by the connection that created it):
    [coro_id] counts the calls of [coro_new], [coro_started] tells
    whether the entry point has been entered. *)
Record coro_t : Type := { coro_id : nat; coro_started : bool }.

(** A string buffer ([strbuf_t]): [strbuf_id] counts the calls of
    [strbuf_new]. *)
Record strbuf_t : Type := { strbuf_id : nat; strbuf_len : Z }.

Record flags_t : Type := {
  alive : bool;
  should_resume_coro : bool;
  write_events : bool;
  is_keep_alive : bool
}.

(** [lwan_request_t].  [lwan.h] is not part of the sources at hand:
    the fields [lwan.c] names are kept one by one, the remaining bytes
    of the structure are [other]. *)
Record lwan_request_t : Type := {
  fd : Z;
  lwan : option nat;
  coro : option coro_t;
  response_buffer : option strbuf_t;
  query_string_kv_base : kv_ptr;
  flags : flags_t;
  time_to_die : Z;
  other : list Z
}.

Definition zero_flags : flags_t :=
  {| alive := false; should_resume_coro := false;
     write_events := false; is_keep_alive := false |}.

(** [memset] of the whole structure with 0. *)
Definition memset_zero (request : lwan_request_t) : lwan_request_t :=
  {| fd := 0; lwan := None; coro := None; response_buffer := None;
     query_string_kv_base := KvNull; flags := zero_flags;
     time_to_die := 0; other := map (fun _ => 0) (other request) |}.

(** Field updates. *)
Definition set_fd v r :=
  {| fd := v; lwan := lwan r; coro := coro r;
     response_buffer := response_buffer r;
     query_string_kv_base := query_string_kv_base r; flags := flags r;
     time_to_die := time_to_die r; other := other r |}.
Definition set_lwan v r :=
  {| fd := fd r; lwan := v; coro := coro r;
     response_buffer := response_buffer r;
     query_string_kv_base := query_string_kv_base r; flags := flags r;
     time_to_die := time_to_die r; other := other r |}.
Definition set_coro v r :=
  {| fd := fd r; lwan := lwan r; coro := v;
     response_buffer := response_buffer r;
     query_string_kv_base := query_string_kv_base r; flags := flags r;
     time_to_die := time_to_die r; other := other r |}.
Definition set_response_buffer v r :=
  {| fd := fd r; lwan := lwan r; coro := coro r;
     response_buffer := v;
     query_string_kv_base := query_string_kv_base r; flags := flags r;
     time_to_die := time_to_die r; other := other r |}.
Definition set_query_string_kv_base v r :=
  {| fd := fd r; lwan := lwan r; coro := coro r;
     response_buffer := response_buffer r;
     query_string_kv_base := v; flags := flags r;
     time_to_die := time_to_die r; other := other r |}.
Definition set_flags v r :=
  {| fd := fd r; lwan := lwan r; coro := coro r;
     response_buffer := response_buffer r;
     query_string_kv_base := query_string_kv_base r; flags := v;
     time_to_die := time_to_die r; other := other r |}.
Definition set_time_to_die v r :=
  {| fd := fd r; lwan := lwan r; coro := coro r;
     response_buffer := response_buffer r;
     query_string_kv_base := query_string_kv_base r; flags := flags r;
     time_to_die := v; other := other r |}.

Definition set_alive v r :=
  set_flags {| alive := v;
               should_resume_coro := should_resume_coro (flags r);
               write_events := write_events (flags r);
               is_keep_alive := is_keep_alive (flags r) |} r.
Definition set_should_resume_coro v r :=
  set_flags {| alive := alive (flags r);
               should_resume_coro := v;
               write_events := write_events (flags r);
               is_keep_alive := is_keep_alive (flags r) |} r.
Definition set_write_events v r :=
  set_flags {| alive := alive (flags r);
               should_resume_coro := should_resume_coro (flags r);
               write_events := v;
               is_keep_alive := is_keep_alive (flags r) |} r.
Definition set_is_keep_alive v r :=
  set_flags {| alive := alive (flags r);
               should_resume_coro := should_resume_coro (flags r);
               write_events := write_events (flags r);
               is_keep_alive := v |} r.

(** *** [_reset_request] *)

(** Modelled from the spec: [strbuf_reset] of [strbuf.c], which is not
    among the sources; it sets the length of the buffer to 0 and keeps
    the buffer.  Through [NULL] there is no buffer to reset. *)
Definition strbuf_reset (s : option strbuf_t) : io (option strbuf_t) :=
  match s with
  | None => undefined
  | Some b =>
      let* _ := emit (Cstrbuf_reset (strbuf_id b)) in
      ret (Some {| strbuf_id := strbuf_id b; strbuf_len := 0 |})
  end.

Definition _reset_request (request : lwan_request_t) : io lwan_request_t :=
  let response_buffer0 := response_buffer request in
  let lwan0 := lwan request in
  let coro0 := coro request in
  let fd0 := fd request in
  let* _ := (if kv_ptr_eqb (query_string_kv_base request) empty_query_string_kv
             then ret tt
             else emit (Cfree (query_string_kv_base request))) in
  let request := memset_zero request in
  let request := set_fd fd0 request in
  let request := set_lwan lwan0 request in
  let request := set_coro coro0 request in
  let request := set_response_buffer response_buffer0 request in
  let request := set_query_string_kv_base empty_query_string_kv request in
  let* b := strbuf_reset (response_buffer request) in
  ret (set_response_buffer b request).

(** *** The per-request coroutine *)

(** What one resume of the coroutine runs of [lwan_process_request]
    until it yields or returns. *)
Record process_outcome : Type := {
  po_yield : bool;
  po_keep_alive : bool
}.

(** Modelled from the spec: [lwan_process_request], the request parser
    and handler dispatch, which is not among the sources.  It records
    whether the request asks for keep-alive and either yields (the
    result is [true]) or returns (the result is [false]). *)
Definition lwan_process_request (o : process_outcome)
    (request : lwan_request_t) : lwan_request_t * bool :=
  (set_is_keep_alive (po_keep_alive o) request, po_yield o).

(** Modelled from the spec: [coro_resume] of [coro.c], which is not
    among the sources, for the entry point [_process_request_coro]:
    the first resume enters the entry point, which resets the request
    and calls [lwan_process_request]; a later resume continues
    [lwan_process_request] where it yielded.  The result is [true]
    when the coroutine yielded and [false] when its entry point
    returned. *)
Definition coro_resume (c : coro_t) (o : process_outcome)
    (request : lwan_request_t) : io (lwan_request_t * bool) :=
  let* _ := emit (Ccoro_resume (coro_id c)) in
  let* request := (if coro_started c then ret request
                   else _reset_request request) in
  let request :=
    set_coro (Some {| coro_id := coro_id c; coro_started := true |}) request in
  ret (lwan_process_request o request).

(** Modelled from the spec: [coro_new] of [coro.c]; [next] numbers
    the coroutines created so far, [ok] tells whether the allocation
    succeeded. *)
Definition coro_new (ok : bool) (next : nat) : io (option coro_t * nat) :=
  if ok then
    let* _ := emit (Ccoro_new next) in
    ret (Some {| coro_id := next; coro_started := false |}, S next)
  else ret (None, next).

(** *** The worker reactor *)

(** One entry of the array [epoll_wait] fills, together with what the
    calls made while it is dispatched return. *)
Record epoll_event : Type := {
  events : Z;
  data_fd : Z;
  coro_new_ok : bool;
  outcome : process_outcome;
  epoll_ctl_ret : Z
}.

Definition _handle_hangup (request : lwan_request_t) : io lwan_request_t :=
  let request := set_alive false request in
  let* _ := emit (Cclose (fd request)) in
  ret request.

Definition _cleanup_coro (request : lwan_request_t) : io lwan_request_t :=
  match coro request with
  | None => ret request
  | Some c =>
      if should_resume_coro (flags request) then ret request
      else
        let* _ := emit (Ccoro_free (coro_id c)) in
        ret (set_coro None request)
  end.

Definition _spawn_coro_if_needed (ok : bool) (next : nat)
    (request : lwan_request_t) : io (lwan_request_t * nat) :=
  match coro request with
  | Some _ => ret (request, next)
  | None =>
      let* (c, next) := coro_new ok next in
      let request := set_coro c request in
      let request := set_should_resume_coro true request in
      let request := set_write_events false request in
      ret (request, next)
  end.

(** The table [events_by_write_flag], read at the flag. *)
Definition events_by_write_flag (write_events : bool) : Z :=
  if write_events
  then Z.lor (Z.lor (Z.lor EPOLLIN EPOLLRDHUP) EPOLLERR) EPOLLET
  else Z.lor (Z.lor EPOLLOUT EPOLLRDHUP) EPOLLERR.

Definition _resume_coro_if_needed (ev : epoll_event) (epoll_fd : Z)
    (request : lwan_request_t) : io lwan_request_t :=
  if negb (should_resume_coro (flags request)) then ret request
  else
    match coro request with
    | None => ret request
    | Some c =>
        let* (request, resumed) := coro_resume c (outcome ev) request in
        let request := set_should_resume_coro resumed request in
        if Bool.eqb (should_resume_coro (flags request))
                    (write_events (flags request))
        then ret request
        else
          let mask := events_by_write_flag (write_events (flags request)) in
          let* _ := emit (Cepoll_ctl epoll_fd EPOLL_CTL_MOD (fd request) mask) in
          let* _ := (if epoll_ctl_ret ev <? 0 then emit (Cperror "epoll_ctl")
                     else ret tt) in
          ret (set_write_events (xorb (write_events (flags request)) true)
                                request)
    end.

(** The local variables of [_thread] that live across iterations. *)
Record thread_locals : Type := {
  death_queue : list Z;
  death_time : Z;
  death_queue_last : Z;
  death_queue_first : Z;
  death_queue_population : Z
}.

(** What the workers share: the slab [l->requests] and the coroutines
    created so far. *)
Record shared : Type := {
  requests : list lwan_request_t;
  next_coro : nat
}.

Section Thread.
(** [t->lwan->thread.max_fd], [t->lwan->config.keep_alive_timeout]
    and [t->epoll_fd]. *)
Variables (max_fd keep_alive_timeout epoll_fd : Z).

(** The body of the loop over [events] in the [default] case. *)
Definition dispatch (ev : epoll_event) (st : thread_locals * shared)
    : io (thread_locals * shared) :=
  let '(t, sh) := st in
  let* request := index (requests sh) (data_fd ev) in
  let request := set_fd (data_fd ev) request in
  if negb (Z.land (events ev) (Z.lor EPOLLRDHUP EPOLLHUP) =? 0) then
    let* request := _handle_hangup request in
    let* rs := store (requests sh) (data_fd ev) request in
    ret (t, {| requests := rs; next_coro := next_coro sh |})
  else
    let* request := _cleanup_coro request in
    let* (request, next) :=
      _spawn_coro_if_needed (coro_new_ok ev) (next_coro sh) request in
    let* request := _resume_coro_if_needed ev epoll_fd request in
    let request :=
      if is_keep_alive (flags request) || should_resume_coro (flags request)
      then set_time_to_die (wrap_uint (death_time t + keep_alive_timeout))
                           request
      else set_time_to_die (death_time t) request in
    if negb (alive (flags request)) then
      let* dq := store (death_queue t) (death_queue_last t) (data_fd ev) in
      let* last := int_incr (death_queue_last t) in
      let* population := int_incr (death_queue_population t) in
      let* last := int_rem last max_fd in
      let request := set_alive true request in
      let* rs := store (requests sh) (data_fd ev) request in
      ret ({| death_queue := dq; death_time := death_time t;
              death_queue_last := last;
              death_queue_first := death_queue_first t;
              death_queue_population := population |},
           {| requests := rs; next_coro := next |})
    else
      let* rs := store (requests sh) (data_fd ev) request in
      ret (t, {| requests := rs; next_coro := next |}).

Fixpoint dispatch_all (evs : list epoll_event)
    (st : thread_locals * shared) : io (thread_locals * shared) :=
  match evs with
  | [] => ret st
  | ev :: evs => let* st := dispatch ev st in dispatch_all evs st
  end.

(** The [while (death_queue_population)] loop of the timeout case.
    Every iteration that does not leave the loop takes one entry
    off the ring, so [fuel], the population on entry, is never used
    up before the population is 0. *)
Fixpoint reap (fuel : nat) (st : thread_locals * list lwan_request_t)
    : io (thread_locals * list lwan_request_t) :=
  let '(t, rs) := st in
  match fuel with
  | O => ret st
  | S fuel =>
      if death_queue_population t =? 0 then ret st
      else
        let* i := index (death_queue t) (death_queue_first t) in
        let* request := index rs i in
        if time_to_die request <=? death_time t then
          let* first := int_incr (death_queue_first t) in
          let* population := int_decr (death_queue_population t) in
          let* first := int_rem first max_fd in
          let t := {| death_queue := death_queue t;
                      death_time := death_time t;
                      death_queue_last := death_queue_last t;
                      death_queue_first := first;
                      death_queue_population := population |} in
          if negb (alive (flags request)) then reap fuel (t, rs)
          else
            let* request := _cleanup_coro request in
            let request := set_alive false request in
            let* _ := emit (Cclose (fd request)) in
            let* rs := store rs i request in
            reap fuel (t, rs)
        else ret st
  end.

(** The locals after the ring took [fd] at [death_queue_last]. *)
Definition enrolled (fd : Z) (t : thread_locals) : thread_locals :=
  {| death_queue := <[Z.to_nat (death_queue_last t) := fd]> (death_queue t);
     death_time := death_time t;
     death_queue_last := Z.rem (death_queue_last t + 1) max_fd;
     death_queue_first := death_queue_first t;
     death_queue_population := death_queue_population t + 1 |}.

(** The locals after the ring gave up its first entry. *)
Definition advanced (t : thread_locals) : thread_locals :=
  {| death_queue := death_queue t;
     death_time := death_time t;
     death_queue_last := death_queue_last t;
     death_queue_first := Z.rem (death_queue_first t + 1) max_fd;
     death_queue_population := death_queue_population t - 1 |}.

(** What [epoll_wait] returned: -1 with [errno], 0, or the number of
    entries it filled in [events]. *)
Inductive wait_result : Type :=
| WaitError (errno : Z)
| WaitTimeout
| WaitEvents (evs : list epoll_event).

(** One iteration of the [for (;;)] of [_thread]; [None] when the
    thread leaves the loop through [epoll_fd_closed]. *)
Definition _thread_iteration (w : wait_result)
    (st : thread_locals * shared) : io (option (thread_locals * shared)) :=
  let '(t, sh) := st in
  let* _ := emit (Cepoll_wait epoll_fd max_fd
                    (if death_queue_population t =? 0 then -1 else 1000)) in
  match w with
  | WaitError errno =>
      if (errno =? EBADF) || (errno =? EINVAL) then ret None
      else ret (Some st)
  | WaitTimeout =>
      let t := {| death_queue := death_queue t;
                  death_time := wrap_uint (death_time t + 1);
                  death_queue_last := death_queue_last t;
                  death_queue_first := death_queue_first t;
                  death_queue_population := death_queue_population t |} in
      let* (t, rs) :=
        reap (Z.to_nat (death_queue_population t)) (t, requests sh) in
      ret (Some (t, {| requests := rs; next_coro := next_coro sh |}))
  | WaitEvents evs =>
      let* st := dispatch_all evs st in
      ret (Some st)
  end.

(** The locals of [_thread] before its loop: the ring comes from
    [calloc]. *)
Definition thread_start : thread_locals :=
  {| death_queue := replicate (Z.to_nat max_fd) 0;
     death_time := 0;
     death_queue_last := 0;
     death_queue_first := 0;
     death_queue_population := 0 |}.
End Thread.

(** The index after [i] in a ring of [len] cells: [(i + 1) % len]. *)
Definition next_index (len i : nat) : nat :=
  if decide (S i = len) then O else S i.

(** The entries of the ring, wrapping around: [n] entries starting at
    index [i]. *)
Fixpoint ring_from (dq : list Z) (i : nat) (n : nat) : list Z :=
  match n with
  | O => []
  | S n =>
      match dq !! i with
      | Some x => x :: ring_from dq (next_index (length dq) i) n
      | None => []
      end
  end.

Definition ring (t : thread_locals) : list Z :=
  ring_from (death_queue t) (Z.to_nat (death_queue_first t))
            (Z.to_nat (death_queue_population t)).

(** The ring is well formed: [death_queue_last] is [population]
    entries after [death_queue_first], counted around the ring. *)
Record ring_wf (max_fd : Z) (t : thread_locals) : Prop := {
  wf_max_fd : 0 < max_fd <= INT_MAX;
  wf_length : length (death_queue t) = Z.to_nat max_fd;
  wf_first : 0 <= death_queue_first t < max_fd;
  wf_population : 0 <= death_queue_population t <= max_fd;
  wf_last :
    death_queue_last t =
      if death_queue_first t + death_queue_population t <? max_fd
      then death_queue_first t + death_queue_population t
      else death_queue_first t + death_queue_population t - max_fd
}.



(** *** The acceptor *)

(** [lwan_thread_t] (the thread identifier is left out). *)
Record lwan_thread_t : Type := { epoll_fd : Z }.

Section Acceptor.
(** [l->thread.threads], [l->thread.count] and [l->main_socket]. *)
Variables (threads : list lwan_thread_t) (count main_socket : Z).

(** [counter] is the static variable of the function; the result
    is its new value. *)
Definition _push_request_fd (counter : Z) (fd : Z) (epoll_ctl_ret : Z)
    : io Z :=
  let* counter' := int_incr counter in
  let* i := int_rem counter count in
  let* th := index threads i in
  let mask := Z.lor (Z.lor (Z.lor EPOLLIN EPOLLRDHUP) EPOLLERR) EPOLLET in
  let* _ := emit (Cepoll_ctl (epoll_fd th) EPOLL_CTL_ADD fd mask) in
  if epoll_ctl_ret <? 0 then
    let* _ := emit (Cperror "epoll_ctl") in
    exit (-1)
  else ret counter'.

(** One entry of the array [epoll_wait] fills in [lwan_main_loop],
    with what [accept4] and [epoll_ctl] return for it. *)
Record main_event : Type := {
  data_u32 : Z;
  accept4_ret : Z;
  add_epoll_ctl_ret : Z
}.

(** The body of the inner loop of [lwan_main_loop]. *)
Definition lwan_main_loop_event (ev : main_event) (counter : Z) : io Z :=
  if data_u32 ev =? 0 then
    let* _ := emit (Caccept4 main_socket) in
    let child_fd := accept4_ret ev in
    if child_fd <? 0 then
      let* _ := emit (Cperror "accept") in
      ret counter
    else _push_request_fd counter child_fd (add_epoll_ctl_ret ev)
  else
    let* _ := emit Cdir_watch_process_events in
    ret counter.

(** The inner loop over the entries, given in the order the loop
    visits them (from the last one filled to the first). *)
Fixpoint lwan_main_loop_events (evs : list main_event) (counter : Z)
    : io Z :=
  match evs with
  | [] => ret counter
  | ev :: evs =>
      let* counter := lwan_main_loop_event ev counter in
      lwan_main_loop_events evs counter
  end.
End Acceptor.

(** *** The process: the acceptor and the workers over one slab *)

Record system : Type := {
  sys_workers : list (option thread_locals);
  sys_shared : shared;
  sys_counter : Z
}.

(** A step of the process: the acceptor handles one entry, or the
    [epoll_wait] of worker [i] returns and the worker goes through one
    iteration of its loop.  A run is a sequence of such steps: the
    iterations of different workers follow one another, they are not
    interleaved.  That is how a server with one worker runs; with
    several workers it leaves out the runs in which two workers are
    inside an iteration on the same slot at the same time. *)
Inductive sys_event : Type :=
| SysAccept (ev : main_event)
| SysWait (i : nat) (w : wait_result).

Section System.
Variables (threads : list lwan_thread_t) (count main_socket : Z).
Variables (max_fd keep_alive_timeout : Z).

Definition sys_step (e : sys_event) (s : system) : io system :=
  match e with
  | SysAccept ev =>
      let* counter :=
        lwan_main_loop_event threads count main_socket ev (sys_counter s) in
      ret {| sys_workers := sys_workers s; sys_shared := sys_shared s;
             sys_counter := counter |}
  | SysWait i w =>
      match threads !! i, sys_workers s !! i with
      | Some th, Some (Some t) =>
          let* r := _thread_iteration max_fd keep_alive_timeout
                      (epoll_fd th) w (t, sys_shared s) in
          match r with
          | None =>
              ret {| sys_workers := <[i := None]> (sys_workers s);
                     sys_shared := sys_shared s;
                     sys_counter := sys_counter s |}
          | Some (t, sh) =>
              ret {| sys_workers := <[i := Some t]> (sys_workers s);
                     sys_shared := sh;
                     sys_counter := sys_counter s |}
          end
      | _, _ => ret s
      end
  end.

Fixpoint sys_run (es : list sys_event) (s : system) : io system :=
  match es with
  | [] => ret s
  | e :: es => let* s := sys_step e s in sys_run es s
  end.

(** The process once [lwan_init] has returned: every worker is
    before its loop, no coroutine exists, [counter] is 0. *)
Definition sys_start (rs : list lwan_request_t) : system :=
  {| sys_workers := map (fun _ => Some (thread_start max_fd)) threads;
     sys_shared := {| requests := rs; next_coro := 0 |};
     sys_counter := 0 |}.
End System.

(** *** Observations on a trace *)

(** The coroutines freed and created, in order. *)
Definition freed (tr : list call) : list nat :=
  omap (fun c => match c with Ccoro_free id => Some id | _ => None end) tr.
Definition created (tr : list call) : list nat :=
  omap (fun c => match c with Ccoro_new id => Some id | _ => None end) tr.

(** The coroutines resumed, in order.  Every coroutine resumed had
    been created, and had not been freed, when it was resumed. *)
Definition resumed (tr : list call) : list nat :=
  omap (fun c => match c with Ccoro_resume id => Some id | _ => None end) tr.

Definition resumes_live (tr : list call) : Prop :=
  forall t1 id t2, tr = t1 ++ Ccoro_resume id :: t2 ->
    id ∈ created t1 /\ id ∉ freed t1.

(** The masks handed to [epoll_ctl] for a descriptor, in order: by
    [EPOLL_CTL_MOD] only, and by either operation. *)
Definition modified (fd : Z) (tr : list call) : list Z :=
  omap (fun c => match c with
                 | Cepoll_ctl _ EPOLL_CTL_MOD fd' mask =>
                     if fd' =? fd then Some mask else None
                 | _ => None
                 end) tr.
Definition programmed (fd : Z) (tr : list call) : list Z :=
  omap (fun c => match c with
                 | Cepoll_ctl _ _ fd' mask =>
                     if fd' =? fd then Some mask else None
                 | _ => None
                 end) tr.

(** The direction of a mask: [true] for write interest. *)
Definition write_direction (mask : Z) : bool :=
  negb (Z.land mask EPOLLOUT =? 0).

(** The direction of the last mask of a list; read interest (what
    the acceptor enrols a descriptor with) when there is none. *)
Definition last_direction (masks : list Z) : bool :=
  match last masks with
  | Some mask => write_direction mask
  | None => false
  end.

(** *** What one visit of a reactor does to the slot of a descriptor

    [slot_op i n r tr r' n']: the slot [i] holds [r] and [n]
    coroutines have been created; the visit makes the calls [tr],
    leaves [r'] in the slot and [n'] coroutines created. *)
Inductive slot_op (i : Z)
  : nat -> lwan_request_t -> list call -> lwan_request_t -> nat -> Prop :=
| slot_hangup n r tr r' :
    _handle_hangup (set_fd i r) = (tr, Ok r') ->
    slot_op i n r tr r' n
| slot_dispatch ev epoll_fd ttd n r tr1 r1 tr2 r2 n2 tr3 r3 :
    _cleanup_coro (set_fd i r) = (tr1, Ok r1) ->
    _spawn_coro_if_needed (coro_new_ok ev) n r1 = (tr2, Ok (r2, n2)) ->
    _resume_coro_if_needed ev epoll_fd r2 = (tr3, Ok r3) ->
    slot_op i n r (tr1 ++ tr2 ++ tr3)
            (set_alive true (set_time_to_die ttd r3)) n2
| slot_reap n r tr1 r1 :
    _cleanup_coro r = (tr1, Ok r1) ->
    slot_op i n r (tr1 ++ [Cclose (fd r1)]) (set_alive false r1) n.

(** The coroutines are numbered as they are created; none is freed
    twice; a coroutine that a slot holds has been created and not
    freed, and no other slot holds it. *)
Record coro_inv (tr : list call) (rs : list lwan_request_t) (n : nat)
  : Prop := {
  ci_created : created tr = seq 0 n;
  ci_freed_once : NoDup (freed tr);
  ci_freed_created : forall id, id ∈ freed tr -> (id < n)%nat;
  ci_live : forall i r c,
    rs !! i = Some r -> coro r = Some c ->
    (coro_id c < n)%nat /\ coro_id c ∉ freed tr;
  ci_owner : forall i j ri rj ci cj,
    rs !! i = Some ri -> rs !! j = Some rj ->
    coro ri = Some ci -> coro rj = Some cj ->
    coro_id ci = coro_id cj -> i = j
}.

(** The flags of a request agree with its coroutine: without a
    coroutine the interest is read; with one, the coroutine has been
    entered and the interest is write exactly while it is to be
    resumed. *)
Definition req_ok (r : lwan_request_t) : Prop :=
  match coro r with
  | None => write_events (flags r) = false
  | Some c =>
      coro_started c = true /\
      write_events (flags r) = should_resume_coro (flags r)
  end.

(** A request is ready to be resumed, and [w] is the interest
    programmed for it. *)
Definition ready (w : bool) (r : lwan_request_t) : Prop :=
  match coro r with
  | None => write_events (flags r) = false /\ w = false
  | Some c =>
      should_resume_coro (flags r) = true /\
      (if coro_started c then write_events (flags r) else false) = w
  end.

(** [write_events] of every slot is the direction of the last
    [EPOLL_CTL_MOD] for its descriptor. *)
Record interest_inv (tr : list call) (rs : list lwan_request_t) (n : nat)
  : Prop := {
  ii_ok : forall i r, rs !! i = Some r -> req_ok r;
  ii_direction : forall i r,
    rs !! i = Some r ->
    write_events (flags r) = last_direction (modified (Z.of_nat i) tr)
}.

(** A slot as [calloc] and [lwan_init] leave it: no coroutine, no
    flag set. *)
Definition fresh_slot (r : lwan_request_t) : Prop :=
  coro r = None /\ flags r = zero_flags.

(** The mask for an interest: write, or read (edge triggered). *)
Definition interest_mask (write : bool) : Z :=
  if write then Z.lor (Z.lor EPOLLOUT EPOLLRDHUP) EPOLLERR
  else Z.lor (Z.lor (Z.lor EPOLLIN EPOLLRDHUP) EPOLLERR) EPOLLET.

(** The calls a reactor or the acceptor makes outside a visit. *)
Definition outside_call (c : call) : Prop :=
  match c with
  | Cepoll_wait _ _ _ | Caccept4 _ | Cepoll_ctl _ EPOLL_CTL_ADD _ _
  | Cperror _ | Cdir_watch_process_events => True
  | _ => False
  end.

(** *** The slab set-up of [lwan_init] *)

(** [struct rlimit]; [rlim_t] is an unsigned 64-bit integer. *)
Record rlimit : Type := { rlim_cur : Z; rlim_max : Z }.

Definition RLIM_INFINITY : Z := 2 ^ 64 - 1.

Definition zero_request (other_size : nat) : lwan_request_t :=
  {| fd := 0; lwan := None; coro := None; response_buffer := None;
     query_string_kv_base := KvNull; flags := zero_flags;
     time_to_die := 0; other := replicate other_size 0 |}.

(** Modelled from the spec: [strbuf_new] of [strbuf.c], which is not
    among the sources; [next] numbers the buffers created so far. *)
Definition strbuf_new (next : nat) : io (option strbuf_t * nat) :=
  let* _ := emit (Cstrbuf_new next) in
  ret (Some {| strbuf_id := next; strbuf_len := 0 |}, S next).

(** The loop [for (--r.rlim_cur; r.rlim_cur; --r.rlim_cur)]: [n] is
    the value of [r.rlim_cur] when the condition is tested.
    [strbuf_new] is called first; its result and [l] are then stored
    in the slot. *)
Fixpoint lwan_init_buffers (l : nat) (n : nat)
    (st : list lwan_request_t * nat) : io (list lwan_request_t * nat) :=
  match n with
  | O => ret st
  | S n' =>
      let '(rs, next) := st in
      let* (b, next) := strbuf_new next in
      let* request := index rs (Z.of_nat n) in
      let request := set_response_buffer b request in
      let request := set_lwan (Some l) request in
      let* rs := store rs (Z.of_nat n) request in
      lwan_init_buffers l n' (rs, next)
  end.

(** What the calls of [lwan_init] return. *)
Record init_env : Type := {
  sysconf_ret : Z;
  getrlimit_ret : Z;
  getrlimit_val : rlimit;
  setrlimit_ret : Z;
  calloc_ok : bool
}.

(** [lwan_init] up to the end of its loop over the slab: the result
    is [l->thread.count], [l->thread.max_fd], [l->requests] and the
    number of buffers created.  [l] stands for the address of the
    server, [other_size] for the size of the part of a request that
    [lwan.c] does not name. *)
Definition lwan_init_requests (l : nat) (other_size : nat) (env : init_env)
    : io (Z * Z * list lwan_request_t * nat) :=
  let max_threads := sysconf_ret env in
  let count := if 0 <? max_threads then max_threads else 2 in
  let* _ := emit Cgetrlimit in
  if getrlimit_ret env <? 0 then
    let* _ := emit (Cperror "getrlimit") in exit (-1)
  else
    let r := getrlimit_val env in
    let cur :=
      if rlim_max r =? RLIM_INFINITY then (rlim_cur r * 8) mod 2 ^ 64
      else if rlim_cur r <? rlim_max r then rlim_max r
      else rlim_cur r in
    let* _ := emit (Csetrlimit cur (rlim_max r)) in
    if setrlimit_ret env <? 0 then
      let* _ := emit (Cperror "setrlimit") in exit (-1)
    else
      let rs := if calloc_ok env
                then replicate (Z.to_nat cur) (zero_request other_size)
                else [] in
      let max_fd := to_int (cur / count) in
      if cur =? 0 then undefined
      else
        let* (rs, next) :=
          lwan_init_buffers l (Z.to_nat (cur - 1)) (rs, O) in
        ret (count, max_fd, rs, next).

(** The last loop of [lwan_shutdown], over the slots below
    [max_fd * count]; [n] counts the slots still to visit. *)
Fixpoint lwan_shutdown_buffers (n : nat) (rs : list lwan_request_t)
    : io unit :=
  match n with
  | O => ret tt
  | S i =>
      let* request := index rs (Z.of_nat i) in
      let* _ := emit (Cstrbuf_free (strbuf_id <$> response_buffer request)) in
      lwan_shutdown_buffers i rs
  end.

(** *** The URL map *)

(** [lwan_handler_t]: [handler_id] stands for the address of the
    handler, [init] for what its [init] returns for given arguments,
    [shutdown] tells whether it has a [shutdown], [handle] stands for
    the address of its call-back. *)
Record lwan_handler_t : Type := {
  handler_id : nat;
  init : option (Z -> Z);
  shutdown : bool;
  handle : Z;
  handler_flags : Z
}.

(** [lwan_url_map_t]; the array handed to [lwan_set_url_map] ends
    with an entry whose [prefix] is [NULL]. *)
Record lwan_url_map_t : Type := {
  prefix : option string;
  prefix_len : Z;
  handler : option lwan_handler_t;
  args : Z;
  data : Z;
  callback : Z;
  um_flags : Z
}.

(** The fields of [lwan_t] that the URL map functions use: the array
    registered last, and the prefixes in the trie. *)
Record lwan_t : Type := {
  l_url_map : option (list lwan_url_map_t);
  l_url_map_trie : option (list string)
}.

Section UrlMap.
(** [HANDLER_PARSE_MASK] of [lwan.h], which is not among the
    sources. *)
Variable HANDLER_PARSE_MASK : Z.

(** The loop of [_url_map_free]; reading past the end of an array
    that lacks its terminator is undefined. *)
Fixpoint _url_map_free_entries (url_map : list lwan_url_map_t) : io unit :=
  match url_map with
  | [] => undefined
  | e :: url_map =>
      match prefix e with
      | None => ret tt
      | Some _ =>
          let* _ := (match handler e with
                     | Some h =>
                         if shutdown h
                         then emit (Chandler_shutdown (handler_id h) (data e))
                         else ret tt
                     | None => ret tt
                     end) in
          _url_map_free_entries url_map
      end
  end.

Definition _url_map_free (l : lwan_t) : io unit :=
  match l_url_map l with
  | None => ret tt
  | Some url_map =>
      let* _ := emit Ctrie_destroy in
      _url_map_free_entries url_map
  end.

(** The loop of [lwan_set_url_map]: the result is the array as the
    loop leaves it and the prefixes added to the trie. *)
Fixpoint lwan_set_url_map_entries (url_map : list lwan_url_map_t)
    : io (list lwan_url_map_t * list string) :=
  match url_map with
  | [] => undefined
  | e :: url_map =>
      match prefix e with
      | None => ret (e :: url_map, [])
      | Some p =>
          let len := Z.of_nat (String.length p) in
          let* _ := emit (Ctrie_add p) in
          let* e' :=
            (match handler e with
             | Some {| handler_id := h; init := Some f; handle := cb;
                       handler_flags := fl |} =>
                 let* _ := emit (Chandler_init h (args e)) in
                 ret {| prefix := prefix e; prefix_len := len;
                        handler := handler e; args := args e;
                        data := f (args e); callback := cb;
                        um_flags := fl |}
             | _ =>
                 ret {| prefix := prefix e; prefix_len := len;
                        handler := handler e; args := args e;
                        data := data e; callback := callback e;
                        um_flags := HANDLER_PARSE_MASK |}
             end) in
          let* (url_map', trie) := lwan_set_url_map_entries url_map in
          ret (e' :: url_map', p :: trie)
      end
  end.

(** [trie_ok] tells whether [lwan_trie_new] returned a trie. *)
Definition lwan_set_url_map (trie_ok : bool) (l : lwan_t)
    (url_map : list lwan_url_map_t) : io lwan_t :=
  let* _ := _url_map_free l in
  let* _ := emit Ctrie_new in
  if negb trie_ok then
    let* _ := emit (Cperror "lwan_trie_new") in
    exit (-1)
  else
    let* (url_map', trie) := lwan_set_url_map_entries url_map in
    ret {| l_url_map := Some url_map'; l_url_map_trie := Some trie |}.
End UrlMap.
(** The entries of an array before its terminator. *)
Fixpoint registered (url_map : list lwan_url_map_t) : list lwan_url_map_t :=
  match url_map with
  | [] => []
  | e :: url_map =>
      match prefix e with
      | None => []
      | Some _ => e :: registered url_map
      end
  end.

(** The call that tears an entry down, when its handler has a
    [shutdown]; the call that initialises it, when it has an [init]. *)
Definition teardown_call (e : lwan_url_map_t) : option call :=
  match handler e with
  | Some h =>
      if shutdown h then Some (Chandler_shutdown (handler_id h) (data e))
      else None
  | None => None
  end.
Definition init_call (e : lwan_url_map_t) : option call :=
  match handler e with
  | Some h =>
      match init h with
      | Some _ => Some (Chandler_init (handler_id h) (args e))
      | None => None
      end
  | None => None
  end.

(** The entries [lwan_set_url_map] leaves registered carry the state
    that [init] returned. *)
Definition initialised (e : lwan_url_map_t) : lwan_url_map_t :=
  match handler e with
  | Some {| init := Some f |} =>
      {| prefix := prefix e; prefix_len := prefix_len e;
         handler := handler e; args := args e; data := f (args e);
         callback := callback e; um_flags := um_flags e |}
  | _ => e
  end.

(** The array has its terminator: an entry whose [prefix] is [NULL]. *)
Definition terminated (url_map : list lwan_url_map_t) : Prop :=
  exists e, e ∈ url_map /\ prefix e = None.

(** The calls of [shutdown] and of [init] in a trace. *)
Definition shutdowns (tr : list call) : list call :=
  omap (fun c => match c with Chandler_shutdown _ _ => Some c | _ => None end) tr.
Definition inits (tr : list call) : list call :=
  omap (fun c => match c with Chandler_init _ _ => Some c | _ => None end) tr.
(** The enrolments in a trace: the epoll set, the descriptor and the
    mask of every [EPOLL_CTL_ADD], in order. *)
Definition enrolments (tr : list call) : list (Z * Z * Z) :=
  omap (fun c => match c with
                 | Cepoll_ctl epfd EPOLL_CTL_ADD fd mask => Some (epfd, fd, mask)
                 | _ => None
                 end) tr.

(** The listening socket is readable, [accept4] returns [fd] and the
    enrolment succeeds. *)
Definition accept_event (fd : Z) : main_event :=
  {| data_u32 := 0; accept4_ret := fd; add_epoll_ctl_ret := 0 |}.

(** The descriptors [accept4] returned for a sequence of entries, in
    order. *)
Definition accepted_fds (evs : list main_event) : list Z :=
  omap (fun ev => if (data_u32 ev =? 0) && negb (accept4_ret ev <? 0)
                  then Some (accept4_ret ev) else None) evs.

(** *** What a worker relies on *)

(** A descriptor names a slot of the slab; the slot has its response
    buffer. *)
Definition in_slab (rs : list lwan_request_t) (fd : Z) : Prop :=
  0 <= fd < Z.of_nat (length rs).

Definition has_buffer (rs : list lwan_request_t) (fd : Z) : Prop :=
  0 <= fd /\
  exists r, rs !! Z.to_nat fd = Some r /\ response_buffer r <> None.

(** The connection of a descriptor is due at a tick: its
    [time_to_die] has come.  It is dead: it is not marked alive. *)
Definition due (rs : list lwan_request_t) (now : Z) (fd : Z) : Prop :=
  exists r, rs !! Z.to_nat fd = Some r /\ time_to_die r <= now.

Definition dead (rs : list lwan_request_t) (fd : Z) : Prop :=
  exists r, rs !! Z.to_nat fd = Some r /\ alive (flags r) = false.
End Lwan.

(** ** A small server for the examples *)

Module Scenario.
Import Lwan.
Local Open Scope Z_scope.

(** One processor, eight descriptors. *)
Definition env : init_env :=
  {| sysconf_ret := 1; getrlimit_ret := 0;
     getrlimit_val := {| rlim_cur := 8; rlim_max := 8 |};
     setrlimit_ret := 0; calloc_ok := true |}.

(** The slab [lwan_init] leaves. *)
Definition slab : list lwan_request_t :=
  match lwan_init_requests 1 2 env with
  | (_, Ok (_, _, rs, _)) => rs
  | _ => []
  end.

Definition threads : list lwan_thread_t := [{| epoll_fd := 100 |}].
Definition max_fd : Z := 8.
Definition keep_alive_timeout : Z := 5.
Definition main_socket : Z := 0.

(** The descriptor is readable or writable; the coroutine, when
    resumed, yields or not and asks for keep-alive or not. *)
Definition ready_event (fd : Z) (yield keep_alive : bool) : epoll_event :=
  {| events := EPOLLIN; data_fd := fd; coro_new_ok := true;
     outcome := {| po_yield := yield; po_keep_alive := keep_alive |};
     epoll_ctl_ret := 0 |}.

(** The peer closed the connection. *)
Definition hangup_event (fd : Z) : epoll_event :=
  {| events := Z.lor EPOLLIN EPOLLRDHUP; data_fd := fd; coro_new_ok := true;
     outcome := {| po_yield := false; po_keep_alive := false |};
     epoll_ctl_ret := 0 |}.

(** [accept4] returns [fd] and the enrolment succeeds. *)
Definition accepted (fd : Z) : sys_event :=
  SysAccept {| data_u32 := 0; accept4_ret := fd; add_epoll_ctl_ret := 0 |}.

(** A request in the middle of a connection: every field is set. *)
Definition busy_request : lwan_request_t :=
  {| fd := 5; lwan := Some 1%nat;
     coro := Some {| coro_id := 3; coro_started := true |};
     response_buffer := Some {| strbuf_id := 2; strbuf_len := 120 |};
     query_string_kv_base := KvHeap 9 [("q", "lwan")]%string;
     flags := {| alive := true; should_resume_coro := true;
                 write_events := true; is_keep_alive := true |};
     time_to_die := 17; other := [71; 69; 84] |}.

(** The worker before its first iteration, over the slab. *)
Definition worker_start : thread_locals * shared :=
  (thread_start max_fd, {| requests := slab; next_coro := 0 |}).

Definition start : system := sys_start threads max_fd slab.

Definition run (es : list sys_event) : io system :=
  sys_run threads 1 main_socket max_fd keep_alive_timeout es start.
(** Two handlers: a file server whose [init] opens a directory (its
    state is the argument plus 1000) and which has a [shutdown], and
    a handler with neither. *)
Definition serve_files : lwan_handler_t :=
  {| handler_id := 1; init := Some (fun args => args + 1000);
     shutdown := true; handle := 11; handler_flags := 3 |}.
Definition hello_world : lwan_handler_t :=
  {| handler_id := 2; init := None; shutdown := false;
     handle := 22; handler_flags := 0 |}.

Definition url_entry (p : option string) (h : option lwan_handler_t)
    (a : Z) : lwan_url_map_t :=
  {| prefix := p; prefix_len := 0; handler := h; args := a; data := 0;
     callback := 0; um_flags := 0 |}.

(** Two arrays of entries, each with its terminator. *)
Definition first_map : list lwan_url_map_t :=
  [url_entry (Some "/files") (Some serve_files) 7;
   url_entry (Some "/hello") (Some hello_world) 0;
   url_entry (Some "/static") (Some serve_files) 8;
   url_entry None None 0]%string.
Definition second_map : list lwan_url_map_t :=
  [url_entry (Some "/") (Some serve_files) 9;
   url_entry None None 0]%string.

(** The server before any registration, and after the first. *)
Definition unregistered : lwan_t :=
  {| l_url_map := None; l_url_map_trie := None |}.
Definition registered_once : lwan_t :=
  match lwan_set_url_map 255 true unregistered first_map with
  | (_, Ok l) => l
  | _ => unregistered
  end.
(** An array that lacks its terminator. *)
Definition open_map : list lwan_url_map_t :=
  [url_entry (Some "/files") (Some serve_files) 7;
   url_entry (Some "/hello") (Some hello_world) 0]%string.
(** Two processors, nine descriptors. *)
Definition env_nine : init_env :=
  {| sysconf_ret := 2; getrlimit_ret := 0;
     getrlimit_val := {| rlim_cur := 4; rlim_max := 9 |};
     setrlimit_ret := 0; calloc_ok := true |}.
(** [calloc] returns [NULL]. *)
Definition env_no_memory : init_env :=
  {| sysconf_ret := 1; getrlimit_ret := 0;
     getrlimit_val := {| rlim_cur := 8; rlim_max := 8 |};
     setrlimit_ret := 0; calloc_ok := false |}.
(** The worker after [st] and one more iteration that goes on. *)
Definition worker_after (w : wait_result) (st : thread_locals * shared)
    : thread_locals * shared :=
  match _thread_iteration max_fd keep_alive_timeout 100 w st with
  | (_, Ok (Some st')) => st'
  | _ => st
  end.
(** Descriptors 5 and 7 became readable and their coroutines yielded;
    four ticks went by since. *)
Definition worker_waiting : thread_locals * shared :=
  worker_after WaitTimeout
    (worker_after WaitTimeout
       (worker_after WaitTimeout
          (worker_after WaitTimeout
             (worker_after (WaitEvents [ready_event 5 true true;
                                        ready_event 7 true true])
                           worker_start)))).
(** Four workers. *)
Definition four_threads : list lwan_thread_t :=
  [{| epoll_fd := 100 |}; {| epoll_fd := 101 |};
   {| epoll_fd := 102 |}; {| epoll_fd := 103 |}].
(** A string table with one bucket and no call-backs, holding the
    keys [ab] and [abc]. *)
Definition table0 : Hash.hash string Z := Hash.hash_str_new 1 false false.
Definition table1 : Hash.hash string Z :=
  match Hash.hash_add true table0 "ab"%string 1 with
  | (_, Ok (_, h)) => h
  | _ => table0
  end.
Definition table2 : Hash.hash string Z :=
  match Hash.hash_add true table1 "abc"%string 2 with
  | (_, Ok (_, h)) => h
  | _ => table1
  end.

(** An integer table with four buckets, a few calls on it, and the
    table after the calls. *)
Definition int_table : Hash.hash Z Z := Hash.hash_int_new 4 false false.
Definition int_calls : list (Hash.hash_op Z Z) :=
  [Hash.Add true 7 70; Hash.Add true 3 30; Hash.Add true 11 110;
   Hash.Add true 7 71; Hash.Del true 3].
Definition int_table_after : Hash.hash Z Z :=
  match Hash.hash_calls int_calls int_table with
  | (_, Ok h) => h
  | _ => int_table
  end.

(** The same calls on a table that owns its keys and values. *)
Definition owning_table_after : Hash.hash Z Z :=
  match Hash.hash_calls int_calls (Hash.hash_int_new 4 true true) with
  | (_, Ok h) => h
  | _ => int_table
  end.

(** Two keys none of which is a prefix of the other, and calls on
    them. *)
Definition two_keys (s : string) : Prop := s = "ab"%string \/ s = "cd"%string.
Definition str_calls : list (Hash.hash_op string Z) :=
  [Hash.Add true "ab"%string 1; Hash.Add_unique true "cd"%string 2;
   Hash.Del true "ab"%string].
End Scenario.

(** * Properties *)

(** ** Reading the result of a computation *)

Module TraceFacts.
Section Inversion.
Context {C : Type}.
Abbreviation io := (Trace.io C).

Lemma bind_Ok {A B} (m : io A) (k : A -> io B) t b :
  bind m k = (t, Ok b) ->
  exists t1 a t2, m = (t1, Ok a) /\ k a = (t2, Ok b) /\ t = t1 ++ t2.
Proof.
  unfold bind. destruct m as [t1 [a | code |]]; try discriminate.
  destruct (k a) as [t2 r] eqn:Hk. intros [= <- ->].
  exists t1, a, t2. auto.
Qed.

Lemma bind_ext_Ok {A B} (m : io A) (k k' : A -> io B) :
  (forall t a, m = (t, Ok a) -> k a = k' a) -> bind m k = bind m k'.
Proof.
  intros H. unfold bind. destruct m as [t [a | code |]]; try reflexivity.
  now rewrite (H t a eq_refl).
Qed.

Lemma index_Ok {A} (l : list A) i t a :
  @index C A l i = (t, Ok a) ->
  (0 <= i)%Z /\ l !! Z.to_nat i = Some a /\ t = [].
Proof.
  unfold index. destruct (Z.ltb_spec i 0); [discriminate |].
  destruct (l !! Z.to_nat i) eqn:E; [| discriminate].
  intros [= <- <-]. auto.
Qed.

Lemma store_Ok {A} (l : list A) i a t l' :
  @store C A l i a = (t, Ok l') ->
  (0 <= i)%Z /\ (Z.to_nat i < length l)%nat /\
  l' = <[Z.to_nat i := a]> l /\ t = [].
Proof.
  unfold store. destruct (Z.ltb_spec i 0); [discriminate |].
  destruct (decide _); [| discriminate].
  intros [= <- <-]. auto.
Qed.

Lemma int_incr_Ok z t z' :
  @int_incr C z = (t, Ok z') -> (z < INT_MAX)%Z /\ z' = (z + 1)%Z /\ t = [].
Proof.
  unfold int_incr. destruct (Z.ltb_spec z INT_MAX); [| discriminate].
  intros [= <- <-]. auto.
Qed.

Lemma int_decr_Ok z t z' :
  @int_decr C z = (t, Ok z') -> (INT_MIN < z)%Z /\ z' = (z - 1)%Z /\ t = [].
Proof.
  unfold int_decr. destruct (Z.ltb_spec INT_MIN z); [| discriminate].
  intros [= <- <-]. auto.
Qed.

Lemma int_rem_Ok a b t z :
  @int_rem C a b = (t, Ok z) -> b <> 0%Z /\ z = Z.rem a b /\ t = [].
Proof.
  unfold int_rem. destruct (Z.eqb_spec b 0); [discriminate |].
  destruct (_ && _); [discriminate |].
  intros [= <- <-]. auto.
Qed.

(** The other way round: a computation that returns at once. *)
Lemma bind_ret {A B} (a : A) (k : A -> io B) :
  bind (ret a) k = k a.
Proof. unfold bind, ret. now destruct (k a). Qed.

Lemma index_lookup {A} (l : list A) (i : nat) (a : A) :
  l !! i = Some a -> @index C A l (Z.of_nat i) = ret a.
Proof.
  intros H. unfold index. destruct (Z.ltb_spec (Z.of_nat i) 0); [lia |].
  now rewrite Nat2Z.id, H.
Qed.

Lemma store_insert {A} (l : list A) (i : nat) (a : A) :
  (i < length l)%nat -> @store C A l (Z.of_nat i) a = ret (<[i := a]> l).
Proof.
  intros H. unfold store. destruct (Z.ltb_spec (Z.of_nat i) 0); [lia |].
  rewrite Nat2Z.id. now destruct (decide _).
Qed.

Lemma index_ret {A} (l : list A) (i : Z) (a : A) :
  (0 <= i)%Z -> l !! Z.to_nat i = Some a -> @index C A l i = ret a.
Proof.
  intros Hi H. rewrite <- (Z2Nat.id i) by done. now apply index_lookup.
Qed.

Lemma store_ret {A} (l : list A) (i : Z) (a : A) :
  (0 <= i)%Z -> (Z.to_nat i < length l)%nat ->
  @store C A l i a = ret (<[Z.to_nat i := a]> l).
Proof.
  intros Hi H. rewrite <- (Z2Nat.id i) at 1 by done. now apply store_insert.
Qed.

(** A computation that returns with a property. *)
Lemma returns_eq {A} (m : io A) P :
  returns m P <-> exists t a, m = (t, Ok a) /\ P t a.
Proof.
  unfold returns. destruct m as [t [a | code |]]; split.
  - eauto.
  - now intros (? & ? & [= <- <-] & ?).
  - done.
  - now intros (? & ? & [=] & ?).
  - done.
  - now intros (? & ? & [=] & ?).
Qed.

Lemma returns_weaken {A} (m : io A) (P Q : list C -> A -> Prop) :
  returns m P -> (forall t a, P t a -> Q t a) -> returns m Q.
Proof. unfold returns. destruct m as [t [a | code |]]; auto. Qed.

Lemma returns_ret {A} (a : A) (P : list C -> A -> Prop) :
  P [] a -> returns (ret a) P.
Proof. done. Qed.

Lemma returns_emit (c : C) (P : list C -> unit -> Prop) :
  P [c] tt -> returns (emit c) P.
Proof. done. Qed.

Lemma returns_bind {A B} (m : io A) (k : A -> io B) P :
  returns m (fun t a => returns (k a) (fun t' b => P (t ++ t') b)) ->
  returns (bind m k) P.
Proof.
  unfold returns, bind. destruct m as [t [a | code |]]; try done.
  destruct (k a) as [t' [b | code |]]; done.
Qed.

Lemma returns_index {A} (l : list A) (i : Z) (a : A)
    (P : list C -> A -> Prop) :
  (0 <= i)%Z -> l !! Z.to_nat i = Some a -> P [] a ->
  returns (index l i) P.
Proof. intros Hi Ha HP. now rewrite (index_ret l i a Hi Ha). Qed.

Lemma returns_store {A} (l : list A) (i : Z) (a : A)
    (P : list C -> list A -> Prop) :
  (0 <= i)%Z -> (Z.to_nat i < length l)%nat ->
  P [] (<[Z.to_nat i := a]> l) -> returns (store l i a) P.
Proof. intros Hi Hl HP. now rewrite (store_ret l i a Hi Hl). Qed.

Lemma returns_int_incr z P :
  (z < INT_MAX)%Z -> P [] (z + 1)%Z -> returns (@int_incr C z) P.
Proof.
  intros Hz HP. unfold int_incr. now destruct (Z.ltb_spec z INT_MAX); [| lia].
Qed.

Lemma returns_int_decr z P :
  (INT_MIN < z)%Z -> P [] (z - 1)%Z -> returns (@int_decr C z) P.
Proof.
  intros Hz HP. unfold int_decr. now destruct (Z.ltb_spec INT_MIN z); [| lia].
Qed.

Lemma returns_int_rem a b P :
  (0 <= a)%Z -> (0 < b)%Z -> P [] (Z.rem a b) -> returns (@int_rem C a b) P.
Proof.
  intros Ha Hb HP. unfold int_rem.
  destruct (Z.eqb_spec b 0); [lia |].
  destruct (Z.eqb_spec a INT_MIN); [unfold INT_MIN in *; lia | done].
Qed.
End Inversion.

(** Take apart a hypothesis that says a computation returned. *)
Ltac io_inv :=
  repeat match goal with
    | H : bind _ _ = (_, Ok _) |- _ =>
        apply bind_Ok in H; destruct H as (? & ? & ? & ? & H & ?);
        cbv beta in H
    | H : ret _ = (_, Ok _) |- _ => inversion H; clear H
    | H : emit _ = (_, Ok _) |- _ => inversion H; clear H
    | H : undefined = (_, Ok _) |- _ => discriminate H
    | H : exit _ = (_, Ok _) |- _ => discriminate H
    | H : index _ _ = (_, Ok _) |- _ =>
        apply index_Ok in H; destruct H as (? & ? & ?)
    | H : store _ _ _ = (_, Ok _) |- _ =>
        apply store_Ok in H; destruct H as (? & ? & ? & ?)
    | H : int_incr _ = (_, Ok _) |- _ =>
        apply int_incr_Ok in H; destruct H as (? & ? & ?)
    | H : int_decr _ = (_, Ok _) |- _ =>
        apply int_decr_Ok in H; destruct H as (? & ? & ?)
    | H : int_rem _ _ = (_, Ok _) |- _ =>
        apply int_rem_Ok in H; destruct H as (? & ? & ?)
    | H : (let '(_, _) := ?p in _) = (_, Ok _) |- _ => is_var p; destruct p
    end.
End TraceFacts.
Import TraceFacts.

(** ** The connection state and its reset *)

Module ResetFacts.
Import Lwan.
Local Open Scope Z_scope.

Lemma memset_zero_other (l : list Z) :
  map (fun _ => 0) l = replicate (length l) 0.
Proof. induction l as [| x l IH]; simpl; [reflexivity | now rewrite IH]. Qed.

(** What [_reset_request] returns when the request has a buffer. *)
Lemma _reset_request_eq (request : lwan_request_t) (b : strbuf_t) :
  response_buffer request = Some b ->
  _reset_request request =
    ((if kv_ptr_eqb (query_string_kv_base request) empty_query_string_kv
      then [] else [Cfree (query_string_kv_base request)])
     ++ [Cstrbuf_reset (strbuf_id b)],
     Ok {| fd := fd request; lwan := lwan request; coro := coro request;
           response_buffer :=
             Some {| strbuf_id := strbuf_id b; strbuf_len := 0 |};
           query_string_kv_base := empty_query_string_kv;
           flags := zero_flags; time_to_die := 0;
           other := replicate (length (other request)) 0 |}).
Proof.
  intros Hb. unfold _reset_request, memset_zero.
  rewrite memset_zero_other.
  destruct (kv_ptr_eqb _ _); simpl; rewrite Hb; reflexivity.
Qed.

(** C4: [_reset_request] keeps [fd], [lwan], the coroutine and the
    response buffer (the same buffer, with length 0, and no buffer is
    created); every other field has its zero value afterwards: the
    flags are all false, [time_to_die] is 0, the query parameters are
    the empty sequence (the shared table [empty_query_string_kv]) and
    the remaining bytes are 0. *)
Theorem C4_reset_request_frame (request : lwan_request_t) (b : strbuf_t) :
  response_buffer request = Some b ->
  exists t request',
    _reset_request request = (t, Ok request') /\
    fd request' = fd request /\
    lwan request' = lwan request /\
    coro request' = coro request /\
    response_buffer request' =
      Some {| strbuf_id := strbuf_id b; strbuf_len := 0 |} /\
    (forall id, Cstrbuf_new id ∉ t) /\
    query_string_kv_base request' = empty_query_string_kv /\
    query_params (query_string_kv_base request') = Some [] /\
    flags request' = zero_flags /\
    time_to_die request' = 0 /\
    other request' = replicate (length (other request)) 0.
Proof.
  intros Hb. rewrite (_reset_request_eq _ _ Hb).
  eexists _, _. split; [reflexivity |]. simpl.
  repeat split; try reflexivity.
  intros id Hin. apply elem_of_app in Hin as [Hin | Hin].
  - destruct (kv_ptr_eqb _ _).
    + now apply elem_of_nil in Hin.
    + apply list_elem_of_singleton in Hin. discriminate.
  - apply list_elem_of_singleton in Hin. discriminate.
Qed.

Lemma C4_reset_request_frame_witness :
  exists t request',
    _reset_request Scenario.busy_request = (t, Ok request') /\
    fd request' = 5 /\
    lwan request' = Some 1%nat /\
    coro request' = Some {| coro_id := 3; coro_started := true |} /\
    response_buffer request' = Some {| strbuf_id := 2; strbuf_len := 0 |} /\
    (forall id, Cstrbuf_new id ∉ t) /\
    query_string_kv_base request' = empty_query_string_kv /\
    query_params (query_string_kv_base request') = Some [] /\
    flags request' = zero_flags /\
    time_to_die request' = 0 /\
    other request' = [0; 0; 0].
Proof.
  exact (C4_reset_request_frame Scenario.busy_request
           {| strbuf_id := 2; strbuf_len := 120 |} eq_refl).
Defined.
End ResetFacts.

(** ** The death-queue ring *)

Module RingFacts.
Import Lwan.
Local Open Scope nat_scope.

Lemma ring_from_S dq i n x :
  dq !! i = Some x ->
  ring_from dq i (S n) = x :: ring_from dq (next_index (length dq) i) n.
Proof. intros H. simpl. now rewrite H. Qed.

Lemma ring_from_length dq n : forall i,
  i < length dq -> length (ring_from dq i n) = n.
Proof.
  induction n as [| n IH]; intros i Hi; [reflexivity |].
  destruct (lookup_lt_is_Some_2 dq i Hi) as [x Hx].
  rewrite (ring_from_S _ _ _ _ Hx). simpl. f_equal. apply IH.
  unfold next_index. destruct (decide _); lia.
Qed.

(** Taking the first entry leaves the entries after it. *)
Lemma ring_from_drop dq i n :
  i < length dq ->
  ring_from dq (next_index (length dq) i) n = drop 1 (ring_from dq i (S n)).
Proof.
  intros Hi. destruct (lookup_lt_is_Some_2 dq i Hi) as [x Hx].
  now rewrite (ring_from_S _ _ _ _ Hx).
Qed.

(** Writing at the slot that follows the last entry appends. *)
Lemma ring_from_append dq x n : forall i,
  i < length dq -> n < length dq ->
  ring_from (<[(if decide (i + n < length dq) then i + n
                else i + n - length dq) := x]> dq) i (S n)
  = ring_from dq i n ++ [x].
Proof.
  induction n as [| n IH]; intros i Hi Hn.
  - destruct (decide _); [| lia]. rewrite Nat.add_0_r. simpl.
    now rewrite list_lookup_insert_eq.
  - destruct (lookup_lt_is_Some_2 dq i Hi) as [y Hy].
    rewrite (ring_from_S dq i n y Hy).
    assert (Hnext : next_index (length dq) i < length dq)
      by (unfold next_index; case_decide; lia).
    rewrite (ring_from_S _ i (S n) y).
    2: { rewrite list_lookup_insert_ne; [exact Hy |]. case_decide; lia. }
    rewrite length_insert, <- app_comm_cons. f_equal.
    rewrite <- (IH _ Hnext) by lia. f_equal. f_equal.
    unfold next_index. repeat case_decide; lia.
Qed.
End RingFacts.

(** ** The worker reactor *)

Module ReactorFacts.
Import Lwan RingFacts.
Local Open Scope Z_scope.

#[local] Arguments bind : simpl never.
#[local] Arguments emit : simpl never.
#[local] Arguments index : simpl never.
#[local] Arguments store : simpl never.
#[local] Arguments dispatch : simpl never.
#[local] Arguments _cleanup_coro : simpl never.
#[local] Arguments _handle_hangup : simpl never.
#[local] Arguments _spawn_coro_if_needed : simpl never.
#[local] Arguments _resume_coro_if_needed : simpl never.

Section Thread.
Variables (max_fd keep_alive_timeout epoll_fd : Z).

(** A dispatch leaves the locals alone or enrols the descriptor. *)
Lemma dispatch_locals ev t sh tr t' sh' :
  dispatch max_fd keep_alive_timeout epoll_fd ev (t, sh) = (tr, Ok (t', sh')) ->
  t' = t \/ t' = enrolled max_fd (data_fd ev) t.
Proof.
  unfold dispatch. intros H. io_inv.
  destruct (negb (_ =? 0)).
  - io_inv. left. congruence.
  - io_inv.
    match type of H with
    | (if ?c then _ else _) = _ => destruct c
    end; io_inv.
    + right. unfold enrolled. congruence.
    + left. congruence.
Qed.
Lemma rem_succ a :
  0 <= a < max_fd ->
  Z.rem (a + 1) max_fd = if a + 1 =? max_fd then 0 else a + 1.
Proof.
  intros Ha. rewrite Z.rem_mod_nonneg by lia.
  destruct (Z.eqb_spec (a + 1) max_fd) as [-> | Hne].
  - apply Z_mod_same_full.
  - apply Z.mod_small. lia.
Qed.

Lemma ring_wf_last t :
  ring_wf max_fd t -> 0 <= death_queue_last t < max_fd.
Proof.
  intros [? ? ? ? Hl]. rewrite Hl.
  destruct (Z.ltb_spec (death_queue_first t + death_queue_population t) max_fd); lia.
Qed.

(** Enrolment appends to the ring, as long as there is room. *)
Lemma ring_enrolled fd t :
  ring_wf max_fd t ->
  death_queue_population t < max_fd ->
  ring_wf max_fd (enrolled max_fd fd t) /\
  ring (enrolled max_fd fd t) = ring t ++ [fd].
Proof.
  intros Hwf Hroom. pose proof (ring_wf_last t Hwf) as Hlast.
  destruct Hwf as [Hm Hlen Hf Hp Hl]. split.
  - constructor; simpl; try lia.
    + now rewrite length_insert.
    + rewrite rem_succ by lia. rewrite Hl.
      repeat match goal with
             | |- context [Z.ltb ?a ?b] => destruct (Z.ltb_spec a b)
             | |- context [Z.eqb ?a ?b] => destruct (Z.eqb_spec a b)
             end; lia.
  - unfold ring, enrolled. simpl.
    replace (Z.to_nat (death_queue_population t + 1))
      with (S (Z.to_nat (death_queue_population t))) by lia.
    rewrite <- ring_from_append by lia. f_equal. f_equal.
    rewrite Hl.
    destruct (Z.ltb_spec (death_queue_first t + death_queue_population t) max_fd);
      case_decide; lia.
Qed.

(** Taking the first entry off the ring drops it. *)
Lemma ring_advanced t :
  ring_wf max_fd t ->
  death_queue_population t <> 0 ->
  ring_wf max_fd (advanced max_fd t) /\
  ring (advanced max_fd t) = drop 1 (ring t).
Proof.
  intros [Hm Hlen Hf Hp Hl] Hne. split.
  - constructor; simpl; try lia.
    + rewrite rem_succ by lia.
      destruct (Z.eqb_spec (death_queue_first t + 1) max_fd); lia.
    + rewrite rem_succ by lia. rewrite Hl.
      repeat match goal with
             | |- context [Z.ltb ?a ?b] => destruct (Z.ltb_spec a b)
             | |- context [Z.eqb ?a ?b] => destruct (Z.eqb_spec a b)
             end; lia.
  - unfold ring, advanced. simpl.
    replace (Z.to_nat (death_queue_population t))
      with (S (Z.to_nat (death_queue_population t - 1))) by lia.
    rewrite <- ring_from_drop by lia. f_equal.
    rewrite rem_succ by lia. unfold next_index.
    destruct (Z.eqb_spec (death_queue_first t + 1) max_fd); case_decide; lia.
Qed.
Lemma dispatch_all_ring evs : forall t sh tr t' sh',
  ring_wf max_fd t ->
  death_queue_population t + Z.of_nat (length evs) <= max_fd ->
  dispatch_all max_fd keep_alive_timeout epoll_fd evs (t, sh)
    = (tr, Ok (t', sh')) ->
  ring_wf max_fd t' /\
  exists l, l `sublist_of` (data_fd <$> evs) /\ ring t' = ring t ++ l /\
            death_queue_population t' =
              death_queue_population t + Z.of_nat (length l).
Proof.
  induction evs as [| ev evs IH]; intros t sh tr t' sh' Hwf Hroom H.
  - simpl in H. io_inv. subst. split; [assumption |].
    exists []. rewrite app_nil_r. simpl. repeat split; [constructor | lia].
  - simpl in H. io_inv. destruct x0 as [t1 sh1].
    rewrite length_cons in Hroom.
    destruct (dispatch_locals _ _ _ _ _ _ H0) as [-> | ->].
    + destruct (IH _ _ _ _ _ Hwf ltac:(lia) H) as (Hwf' & l & Hsub & Hr & Hp).
      split; [assumption |]. exists l. repeat split; try assumption.
      rewrite fmap_cons. now apply sublist_cons.
    + destruct (ring_enrolled (data_fd ev) t Hwf ltac:(lia)) as [Hwf1 Hr1].
      destruct (IH _ _ _ _ _ Hwf1 ltac:(simpl; lia) H)
        as (Hwf' & l & Hsub & Hr & Hp).
      split; [assumption |]. exists (data_fd ev :: l). repeat split.
      * rewrite fmap_cons. now apply sublist_skip.
      * rewrite Hr, Hr1, <- app_assoc. reflexivity.
      * rewrite Hp. simpl. lia.
Qed.

Lemma reap_ring fuel : forall t rs tr t' rs',
  ring_wf max_fd t ->
  reap max_fd fuel (t, rs) = (tr, Ok (t', rs')) ->
  ring_wf max_fd t' /\ exists k, ring t' = drop k (ring t).
Proof.
  induction fuel as [| fuel IH]; intros t rs tr t' rs' Hwf H.
  - simpl in H. io_inv. subst. split; [assumption |]. now exists O.
  - simpl in H.
    destruct (Z.eqb_spec (death_queue_population t) 0) as [Hz | Hnz].
    { io_inv. subst. split; [assumption |]. now exists O. }
    io_inv.
    destruct (time_to_die _ <=? death_time t).
    2: { io_inv. subst. split; [assumption |]. now exists O. }
    io_inv. subst.
    destruct (ring_advanced t Hwf Hnz) as [Hwf1 Hr1].
    assert (Hgo : exists rs1 tr1,
              reap max_fd fuel (advanced max_fd t, rs1) = (tr1, Ok (t', rs'))).
    { destruct (negb _).
      - eexists _, _. exact H.
      - io_inv. subst. eexists _, _. exact H. }
    destruct Hgo as (rs1 & tr1 & Hgo).
    destruct (IH _ _ _ _ _ Hwf1 Hgo) as (Hwf' & k & Hk).
    split; [assumption |]. exists (1 + k)%nat.
    now rewrite Hk, Hr1, drop_drop.
Qed.

(** The fuel of [reap] is never what stops the loop: past the
    population, more fuel changes nothing. *)
Lemma reap_fuel fuel : forall t rs,
  0 <= death_queue_population t ->
  (Z.to_nat (death_queue_population t) <= fuel)%nat ->
  reap max_fd (S fuel) (t, rs) = reap max_fd fuel (t, rs).
Proof.
  induction fuel as [| fuel IH]; intros t rs Hp Hf.
  - simpl. destruct (Z.eqb_spec (death_queue_population t) 0); [reflexivity | lia].
  - change (reap max_fd (S (S fuel)) (t, rs))
      with (if death_queue_population t =? 0 then ret (t, rs)
            else
              let* i := index (death_queue t) (death_queue_first t) in
              let* request := index rs i in
              if time_to_die request <=? death_time t then
                let* first := int_incr (death_queue_first t) in
                let* population := int_decr (death_queue_population t) in
                let* first := int_rem first max_fd in
                let t := {| death_queue := death_queue t;
                            death_time := death_time t;
                            death_queue_last := death_queue_last t;
                            death_queue_first := first;
                            death_queue_population := population |} in
                if negb (alive (flags request)) then reap max_fd (S fuel) (t, rs)
                else
                  let* request := _cleanup_coro request in
                  let request := set_alive false request in
                  let* _ := emit (Cclose (fd request)) in
                  let* rs := store rs i request in
                  reap max_fd (S fuel) (t, rs)
              else ret (t, rs)).
    change (reap max_fd (S fuel) (t, rs))
      with (if death_queue_population t =? 0 then ret (t, rs)
            else
              let* i := index (death_queue t) (death_queue_first t) in
              let* request := index rs i in
              if time_to_die request <=? death_time t then
                let* first := int_incr (death_queue_first t) in
                let* population := int_decr (death_queue_population t) in
                let* first := int_rem first max_fd in
                let t := {| death_queue := death_queue t;
                            death_time := death_time t;
                            death_queue_last := death_queue_last t;
                            death_queue_first := first;
                            death_queue_population := population |} in
                if negb (alive (flags request)) then reap max_fd fuel (t, rs)
                else
                  let* request := _cleanup_coro request in
                  let request := set_alive false request in
                  let* _ := emit (Cclose (fd request)) in
                  let* rs := store rs i request in
                  reap max_fd fuel (t, rs)
              else ret (t, rs)).
    destruct (Z.eqb_spec (death_queue_population t) 0) as [| Hnz]; [reflexivity |].
    apply bind_ext_Ok; intros ? i _.
    apply bind_ext_Ok; intros ? request _.
    destruct (time_to_die request <=? death_time t); [| reflexivity].
    apply bind_ext_Ok; intros ? first _.
    apply bind_ext_Ok; intros ? population Hd.
    apply int_decr_Ok in Hd as (_ & -> & _).
    apply bind_ext_Ok; intros ? first' _.
    cbv zeta. destruct (negb (alive (flags request))).
    + apply IH; simpl; lia.
    + apply bind_ext_Ok; intros ? r1 _.
      apply bind_ext_Ok; intros ? [] _.
      apply bind_ext_Ok; intros ? rs1 _.
      apply IH; simpl; lia.
Qed.







End Thread.

End ReactorFacts.

(** ** Runs of the process *)

Module SystemFacts.
Import Lwan ReactorFacts.
Local Open Scope Z_scope.

#[local] Arguments bind : simpl never.
#[local] Arguments emit : simpl never.
#[local] Arguments index : simpl never.
#[local] Arguments store : simpl never.
#[local] Arguments dispatch : simpl never.
#[local] Arguments _cleanup_coro : simpl never.
#[local] Arguments _handle_hangup : simpl never.
#[local] Arguments _spawn_coro_if_needed : simpl never.
#[local] Arguments _resume_coro_if_needed : simpl never.
#[local] Arguments _thread_iteration : simpl never.
#[local] Arguments lwan_main_loop_event : simpl never.

Lemma set_alive_id r : alive (flags r) = true -> set_alive true r = r.
Proof. destruct r as [? ? ? ? ? [[] ? ? ?] ? ?]; simpl; now intros. Qed.

(** A dispatch is a visit of the slot of its descriptor. *)
Lemma dispatch_slot max_fd keep_alive_timeout epoll_fd ev t sh tr t' sh' :
  dispatch max_fd keep_alive_timeout epoll_fd ev (t, sh) = (tr, Ok (t', sh')) ->
  exists r r',
    0 <= data_fd ev /\
    requests sh !! Z.to_nat (data_fd ev) = Some r /\
    slot_op (data_fd ev) (next_coro sh) r tr r' (next_coro sh') /\
    requests sh' = <[Z.to_nat (data_fd ev) := r']> (requests sh).
Proof.
  unfold dispatch. intros H. io_inv.
  match goal with
  | H : requests sh !! _ = Some ?x |- _ => exists x; rename H into Hx
  end.
  destruct (negb (_ =? 0)).
  - io_inv. subst. eexists. repeat split; try eassumption; simpl.
    rewrite app_nil_r. apply slot_hangup. eassumption.
  - io_inv.
    match goal with
    | H : (if negb (alive (flags ?r)) then _ else _) = _ |- _ =>
        destruct (alive (flags r)) eqn:Halive; simpl in H
    end; io_inv; subst; simpl.
    + eexists. repeat split; try eassumption; simpl.
      rewrite !app_nil_r, ?app_nil_l.
      match goal with
      | |- slot_op _ _ _ _ ?r _ => rewrite <- (set_alive_id r Halive)
      end.
      match goal with
      | |- context [if ?c then set_time_to_die ?a ?r else set_time_to_die ?b ?r] =>
          replace (if c then set_time_to_die a r else set_time_to_die b r)
            with (set_time_to_die (if c then a else b) r) by (now destruct c)
      end.
      eapply slot_dispatch; eassumption.
    + eexists. repeat split; try eassumption; simpl.
      rewrite !app_nil_r, ?app_nil_l.
      match goal with
      | |- context [if ?c then set_time_to_die ?a ?r else set_time_to_die ?b ?r] =>
          replace (if c then set_time_to_die a r else set_time_to_die b r)
            with (set_time_to_die (if c then a else b) r) by (now destruct c)
      end.
      eapply slot_dispatch; eassumption.
Qed.
Section Preservation.
(** A property of the calls made so far, the slab and the number of
    coroutines created that every visit of a slot and every call
    outside a visit preserves. *)
Variable Inv : list call -> list lwan_request_t -> nat -> Prop.
Hypothesis Inv_slot : forall tr0 rs n i r tr r' n',
  Inv tr0 rs n -> 0 <= i -> rs !! Z.to_nat i = Some r ->
  slot_op i n r tr r' n' ->
  Inv (tr0 ++ tr) (<[Z.to_nat i := r']> rs) n'.
Hypothesis Inv_outside : forall tr0 rs n tr,
  Inv tr0 rs n -> Forall outside_call tr -> Inv (tr0 ++ tr) rs n.

Variables (threads : list lwan_thread_t) (count main_socket : Z).
Variables (max_fd keep_alive_timeout : Z).

Lemma Inv_same tr0 rs n : Inv tr0 rs n -> Inv (tr0 ++ []) rs n.
Proof. intros H. apply Inv_outside; [assumption | constructor]. Qed.

Lemma dispatch_all_inv epoll_fd evs : forall tr0 t sh tr t' sh',
  Inv tr0 (requests sh) (next_coro sh) ->
  dispatch_all max_fd keep_alive_timeout epoll_fd evs (t, sh)
    = (tr, Ok (t', sh')) ->
  Inv (tr0 ++ tr) (requests sh') (next_coro sh').
Proof.
  induction evs as [| ev evs IH]; intros tr0 t sh tr t' sh' HI H;
    simpl in H; io_inv; subst.
  - now apply Inv_same.
  - match goal with
    | H : dispatch _ _ _ _ _ = (_, Ok ?st) |- _ =>
        destruct st as [t1 sh1];
        destruct (dispatch_slot _ _ _ _ _ _ _ _ _ H)
          as (r & r' & Hfd & Hr & Hop & Hrs)
    end.
    rewrite app_assoc. eapply IH; [| eassumption].
    rewrite Hrs. eapply Inv_slot; eassumption.
Qed.

Lemma reap_inv n fuel : forall tr0 t rs tr t' rs',
  Inv tr0 rs n ->
  reap max_fd fuel (t, rs) = (tr, Ok (t', rs')) ->
  Inv (tr0 ++ tr) rs' n.
Proof.
  induction fuel as [| fuel IH]; intros tr0 t rs tr t' rs' HI H;
    simpl in H.
  - io_inv. subst. now apply Inv_same.
  - destruct (_ =? 0).
    { io_inv. subst. now apply Inv_same. }
    io_inv.
    destruct (time_to_die _ <=? death_time t).
    2: { io_inv. subst. now apply Inv_same. }
    io_inv. subst. simpl.
    destruct (negb _).
    + eapply IH; eassumption.
    + io_inv. subst. simpl.
      match goal with
      | H : reap _ _ _ = _ |- _ => rename H into Hreap
      end.
      match goal with
      | |- Inv (tr0 ++ ?a ++ ?b :: ?c) _ _ =>
          replace (tr0 ++ a ++ b :: c) with ((tr0 ++ a ++ [b]) ++ c)
            by (now rewrite <- !app_assoc)
      end.
      eapply IH; [| exact Hreap].
      eapply Inv_slot; try eassumption.
      apply slot_reap. eassumption.
Qed.

Lemma _thread_iteration_inv epoll_fd w tr0 t sh tr o :
  Inv tr0 (requests sh) (next_coro sh) ->
  _thread_iteration max_fd keep_alive_timeout epoll_fd w (t, sh)
    = (tr, Ok o) ->
  let sh' := match o with Some (_, sh') => sh' | None => sh end in
  Inv (tr0 ++ tr) (requests sh') (next_coro sh').
Proof.
  intros HI H. unfold _thread_iteration in H. io_inv. subst.
  assert (HI1 : Inv (tr0 ++ [Cepoll_wait epoll_fd max_fd
            (if death_queue_population t =? 0 then -1 else 1000)])
            (requests sh) (next_coro sh)).
  { apply Inv_outside; [assumption |]. repeat constructor. }
  rewrite app_assoc.
  destruct w as [errno | | evs].
  - destruct (_ || _); io_inv; subst; now apply Inv_same.
  - io_inv. subst. simpl. rewrite app_nil_r.
    eapply reap_inv; eassumption.
  - io_inv. subst. simpl. rewrite app_nil_r.
    match goal with
    | H : dispatch_all _ _ _ _ _ = (_, Ok ?st) |- _ => destruct st
    end.
    eapply dispatch_all_inv; eassumption.
Qed.

Lemma lwan_main_loop_event_outside ev counter tr counter' :
  lwan_main_loop_event threads count main_socket ev counter
    = (tr, Ok counter') ->
  Forall outside_call tr.
Proof.
  unfold lwan_main_loop_event, _push_request_fd. intros H.
  destruct (data_u32 ev =? 0); io_inv; subst.
  - destruct (accept4_ret ev <? 0); io_inv; subst.
    + repeat constructor.
    + destruct (add_epoll_ctl_ret ev <? 0); io_inv; subst.
      repeat constructor.
  - repeat constructor.
Qed.

Lemma sys_step_inv e tr0 s tr s' :
  Inv tr0 (requests (sys_shared s)) (next_coro (sys_shared s)) ->
  sys_step threads count main_socket max_fd keep_alive_timeout e s
    = (tr, Ok s') ->
  Inv (tr0 ++ tr) (requests (sys_shared s')) (next_coro (sys_shared s')).
Proof.
  intros HI H. destruct e as [ev | i w]; simpl in H.
  - io_inv. subst. simpl. rewrite app_nil_r.
    apply Inv_outside; [assumption |].
    eapply lwan_main_loop_event_outside. eassumption.
  - destruct (threads !! i) as [th |]; [| io_inv; subst; now apply Inv_same].
    destruct (sys_workers s !! i) as [[t |] |];
      try (io_inv; subst; now apply Inv_same).
    io_inv.
    match goal with
    | H : _thread_iteration _ _ _ _ _ = (_, Ok ?o) |- _ =>
        pose proof (_thread_iteration_inv _ _ _ _ _ _ _ HI H) as HI';
        destruct o as [[t1 sh1] |]
    end; io_inv; subst; simpl; rewrite app_nil_r; exact HI'.
Qed.

Lemma sys_run_inv es : forall tr0 s tr s',
  Inv tr0 (requests (sys_shared s)) (next_coro (sys_shared s)) ->
  sys_run threads count main_socket max_fd keep_alive_timeout es s
    = (tr, Ok s') ->
  Inv (tr0 ++ tr) (requests (sys_shared s')) (next_coro (sys_shared s')).
Proof.
  induction es as [| e es IH]; intros tr0 s tr s' HI H; simpl in H;
    io_inv; subst.
  - now apply Inv_same.
  - rewrite app_assoc. eapply IH; [| eassumption].
    eapply sys_step_inv; eassumption.
Qed.
End Preservation.
End SystemFacts.

(** ** What a visit does to a slot *)

Module SlotFacts.
Import Lwan.
Local Open Scope Z_scope.

Lemma _handle_hangup_eq r :
  _handle_hangup r = ([Cclose (fd r)], Ok (set_alive false r)).
Proof. reflexivity. Qed.

Lemma _cleanup_coro_cases r tr r1 :
  _cleanup_coro r = (tr, Ok r1) ->
  (tr = [] /\ r1 = r /\
   (coro r = None \/ should_resume_coro (flags r) = true)) \/
  (exists c, coro r = Some c /\ should_resume_coro (flags r) = false /\
             tr = [Ccoro_free (coro_id c)] /\ r1 = set_coro None r).
Proof.
  unfold _cleanup_coro.
  destruct (coro r) as [c |] eqn:Hc;
    [destruct (should_resume_coro (flags r)) eqn:Hs |];
    cbn; intros [= <- <-]; [left | right; exists c | left]; auto.
Qed.

Lemma _spawn_coro_if_needed_cases ok n r tr r2 n2 :
  _spawn_coro_if_needed ok n r = (tr, Ok (r2, n2)) ->
  (exists c, coro r = Some c /\ tr = [] /\ r2 = r /\ n2 = n) \/
  (coro r = None /\ ok = true /\ tr = [Ccoro_new n] /\ n2 = S n /\
   r2 = set_write_events false (set_should_resume_coro true
          (set_coro (Some {| coro_id := n; coro_started := false |}) r))) \/
  (coro r = None /\ ok = false /\ tr = [] /\ n2 = n /\
   r2 = set_write_events false (set_should_resume_coro true
          (set_coro None r))).
Proof.
  unfold _spawn_coro_if_needed, coro_new.
  destruct (coro r) as [c |] eqn:Hc; [| destruct ok];
    cbn; intros [= <- <- <-];
    [left; exists c | right; left | right; right]; auto.
Qed.

(** What a resume leaves in the request. *)
Lemma coro_resume_eq c o r :
  coro_resume c o r =
    if coro_started c then
      ([Ccoro_resume (coro_id c)],
       Ok (set_is_keep_alive (po_keep_alive o)
             (set_coro (Some {| coro_id := coro_id c; coro_started := true |}) r),
           po_yield o))
    else
      let* r' := (let* _ := emit (Ccoro_resume (coro_id c)) in
                  _reset_request r) in
      ret (set_is_keep_alive (po_keep_alive o)
             (set_coro (Some {| coro_id := coro_id c; coro_started := true |}) r'),
           po_yield o).
Proof.
  unfold coro_resume, lwan_process_request.
  destruct (coro_started c); cbn; [reflexivity |].
  destruct (_reset_request r) as [t [a | code |]]; reflexivity.
Qed.

Lemma _reset_request_Ok r tr r' :
  _reset_request r = (tr, Ok r') ->
  fd r' = fd r /\ coro r' = coro r /\ flags r' = zero_flags /\
  freed tr = [] /\ created tr = [] /\ forall j, modified j tr = [].
Proof.
  unfold _reset_request, strbuf_reset.
  destruct (response_buffer r) as [b |] eqn:Hb;
    destruct (kv_ptr_eqb _ _); cbn; rewrite ?Hb; cbn;
    intros [= <- <-]; auto 10.
Qed.
Lemma freed_app t1 t2 : freed (t1 ++ t2) = freed t1 ++ freed t2.
Proof. apply omap_app. Qed.
Lemma created_app t1 t2 : created (t1 ++ t2) = created t1 ++ created t2.
Proof. apply omap_app. Qed.
Lemma modified_app j t1 t2 :
  modified j (t1 ++ t2) = modified j t1 ++ modified j t2.
Proof. apply omap_app. Qed.
Lemma programmed_app j t1 t2 :
  programmed j (t1 ++ t2) = programmed j t1 ++ programmed j t2.
Proof. apply omap_app. Qed.

Lemma write_direction_events_by_write_flag b :
  write_direction (events_by_write_flag b) = negb b.
Proof. now destruct b. Qed.

Lemma modified_mod epfd fd mask j :
  modified j [Cepoll_ctl epfd EPOLL_CTL_MOD fd mask] =
    if fd =? j then [mask] else [].
Proof. unfold modified. simpl. now destruct (fd =? j). Qed.

Lemma coro_resume_Ok c o r tr q y :
  coro_resume c o r = (tr, Ok (q, y)) ->
  y = po_yield o /\
  coro q = Some {| coro_id := coro_id c; coro_started := true |} /\
  fd q = fd r /\
  write_events (flags q) =
    (if coro_started c then write_events (flags r) else false) /\
  freed tr = [] /\ created tr = [] /\ forall j, modified j tr = [].
Proof.
  rewrite coro_resume_eq. destruct (coro_started c).
  - intros [= <- <- <-]. simpl. auto 10.
  - intros H. apply bind_Ok in H as (t1 & r' & t2 & H1 & H2 & ->).
    apply bind_Ok in H1 as (t3 & [] & t4 & H3 & H4 & ->).
    injection H3 as <-. injection H2 as <- <- <-.
    apply _reset_request_Ok in H4 as (Hfd & Hco & Hfl & Hfr & Hcr & Hmo).
    simpl. rewrite Hfl. simpl. rewrite app_nil_r.
    repeat split; auto.
Qed.

(** The flags and the calls of [_resume_coro_if_needed]: [cur] is the
    value of [write_events] that the result of the resume is compared
    with. *)
Lemma _resume_coro_if_needed_facts ev epoll_fd r tr r3 :
  _resume_coro_if_needed ev epoll_fd r = (tr, Ok r3) ->
  freed tr = [] /\ created tr = [] /\ fd r3 = fd r /\
  coro_id <$> coro r3 = coro_id <$> coro r /\
  (forall j, j <> fd r -> modified j tr = []) /\
  ((tr = [] /\ r3 = r /\
    (should_resume_coro (flags r) = false \/ coro r = None)) \/
   (exists c,
      coro r = Some c /\ should_resume_coro (flags r) = true /\
      coro r3 = Some {| coro_id := coro_id c; coro_started := true |} /\
      should_resume_coro (flags r3) = po_yield (outcome ev) /\
      write_events (flags r3) = po_yield (outcome ev) /\
      let cur := if coro_started c then write_events (flags r) else false in
      modified (fd r) tr =
        if Bool.eqb (po_yield (outcome ev)) cur then []
        else [events_by_write_flag cur])).
Proof.
  unfold _resume_coro_if_needed.
  destruct (should_resume_coro (flags r)) eqn:Hs; simpl.
  2: { intros [= <- <-]. repeat split; auto. }
  destruct (coro r) as [c |] eqn:Hc.
  2: { intros [= <- <-]. rewrite Hc. repeat split; auto. }
  intros H. apply bind_Ok in H as (t1 & [q y] & t2 & H1 & H2 & ->).
  apply coro_resume_Ok in H1 as (-> & Hco & Hfd & Hwe & Hfr & Hcr & Hmo).
  assert (Ht2 :
    coro r3 = coro q /\ fd r3 = fd q /\
    should_resume_coro (flags r3) = po_yield (outcome ev) /\
    write_events (flags r3) = po_yield (outcome ev) /\
    freed t2 = [] /\ created t2 = [] /\
    (forall j, j <> fd q -> modified j t2 = []) /\
    modified (fd q) t2 =
      if Bool.eqb (po_yield (outcome ev)) (write_events (flags q)) then []
      else [events_by_write_flag (write_events (flags q))]).
  { cbv beta iota in H2. simpl in H2.
    destruct (po_yield (outcome ev)), (write_events (flags q)) eqn:Hq;
      simpl in H2; try destruct (epoll_ctl_ret ev <? 0); cbn in H2;
      injection H2 as <- <-; simpl; rewrite ?Hq;
      repeat split; auto;
      try (unfold modified; simpl; rewrite Z.eqb_refl; reflexivity);
      try (intros j Hj; unfold modified; simpl;
           destruct (Z.eqb_spec (fd q) j); [congruence | reflexivity]). }
  destruct Ht2 as (Hco2 & Hfd2 & Hsr2 & Hwe2 & Hfr2 & Hcr2 & Hmo2 & Hmq).
  rewrite freed_app, created_app, Hfr, Hcr, Hfr2, Hcr2, Hfd2, Hfd, Hco2, Hco.
  repeat split; auto.
  - intros j Hj. rewrite modified_app, Hmo, Hmo2; [reflexivity | congruence].
  - right. exists c. repeat split; auto.
    simpl. rewrite modified_app, Hmo, <- Hfd, Hmq, Hwe. reflexivity.
Qed.
(** The first resume of a coroutine leaves [alive] cleared: the
    entry point resets the whole request. *)
Lemma resume_fresh_not_alive ev epoll_fd r tr r3 c :
  coro r = Some c -> coro_started c = false ->
  should_resume_coro (flags r) = true ->
  _resume_coro_if_needed ev epoll_fd r = (tr, Ok r3) ->
  alive (flags r3) = false.
Proof.
  intros Hc Hst Hs. unfold _resume_coro_if_needed. rewrite Hs, Hc. simpl.
  rewrite coro_resume_eq, Hst. intros H.
  apply bind_Ok in H as (t1 & [q y] & t2 & H1 & H2 & ->).
  apply bind_Ok in H1 as (t3 & r' & t4 & H3 & H4 & ->).
  apply bind_Ok in H3 as (t5 & [] & t6 & _ & H5 & ->).
  apply _reset_request_Ok in H5 as (_ & _ & Hfl & _).
  injection H4 as <- <- <-. cbv beta iota in H2. simpl in H2.
  rewrite Hfl in H2. simpl in H2.
  destruct (po_yield (outcome ev)); simpl in H2;
    try destruct (epoll_ctl_ret ev <? 0); cbn in H2;
    injection H2 as <- <-; simpl; now rewrite Hfl.
Qed.

(** The coroutines a visit frees and creates. *)
Lemma slot_op_coro i n r tr r' n' :
  slot_op i n r tr r' n' ->
  (freed tr = [] \/ exists c, coro r = Some c /\ freed tr = [coro_id c]) /\
  ((created tr = [] /\ n' = n /\
    (coro r' = None \/
     (freed tr = [] /\ coro_id <$> coro r' = coro_id <$> coro r))) \/
   (created tr = [n] /\ n' = S n /\ coro_id <$> coro r' = Some n)).
Proof.
  intros [n0 r0 tr0 r0' H
         | ev epoll_fd ttd n0 r0 tr1 r1 tr2 r2 n2 tr3 r3 H1 H2 H3
         | n0 r0 tr1 r1 H1].
  - rewrite _handle_hangup_eq in H. injection H as <- <-. simpl. auto 10.
  - apply _resume_coro_if_needed_facts in H3
      as (Hf3 & Hc3 & _ & Hid3 & _ & _).
    rewrite !freed_app, !created_app, Hf3, Hc3, !app_nil_r. simpl.
    rewrite Hid3.
    apply _cleanup_coro_cases in H1
      as [(-> & -> & _) | (c & Hc & _ & -> & ->)];
      apply _spawn_coro_if_needed_cases in H2
        as [(c2 & Hc2 & -> & -> & ->)
           | [(Hc2 & _ & -> & -> & ->) | (Hc2 & _ & -> & -> & ->)]];
      simpl in *; try discriminate; eauto 10;
      destruct (coro r3); try discriminate; eauto 10.
  - rewrite freed_app, created_app. simpl. rewrite !app_nil_r.
    apply _cleanup_coro_cases in H1
      as [(-> & -> & _) | (c & Hc & _ & -> & ->)]; simpl; eauto 10.
Qed.

Lemma coro_inv_outside tr0 rs n tr :
  coro_inv tr0 rs n -> Forall outside_call tr -> coro_inv (tr0 ++ tr) rs n.
Proof.
  intros HI Hout.
  assert (Hf : freed tr = [] /\ created tr = []).
  { induction Hout as [| c tr Hc _ [IH1 IH2]]; [auto |].
    destruct c; try contradiction; simpl; auto. }
  destruct Hf as [Hf Hc]. destruct HI as [H1 H2 H3 H4 H5].
  constructor; rewrite ?freed_app, ?created_app, ?Hf, ?Hc, ?app_nil_r; auto.
Qed.

Lemma coro_inv_slot tr0 rs n i r tr r' n' :
  coro_inv tr0 rs n -> 0 <= i -> rs !! Z.to_nat i = Some r ->
  slot_op i n r tr r' n' ->
  coro_inv (tr0 ++ tr) (<[Z.to_nat i := r']> rs) n'.
Proof.
  intros [H1 H2 H3 H4 H5] _ Hr Hop.
  apply slot_op_coro in Hop as [Hfree Hnew].
  assert (Hn : (n <= n')%nat) by (destruct Hnew as [(_ & -> & _) | (_ & -> & _)]; lia).
  assert (Hfr : forall id, id ∈ freed tr ->
            (id < n)%nat /\ (id ∉ freed tr0) /\
            exists c, coro r = Some c /\ coro_id c = id).
  { intros id Hid. destruct Hfree as [E | (c & Hc & E)]; rewrite E in Hid.
    - now apply elem_of_nil in Hid.
    - apply list_elem_of_singleton in Hid as ->.
      destruct (H4 _ _ _ Hr Hc). eauto. }
  constructor.
  - rewrite created_app, H1.
    destruct Hnew as [(-> & -> & _) | (-> & -> & _)].
    + now rewrite app_nil_r.
    + now rewrite seq_S.
  - rewrite freed_app. apply NoDup_app. repeat split; [assumption | |].
    + intros id Hid0 Hid. apply Hfr in Hid as (_ & Hid & _). contradiction.
    + destruct Hfree as [-> | (c & _ & ->)];
        [apply NoDup_nil_2 | apply NoDup_singleton].
  - intros id Hid. rewrite freed_app in Hid.
    apply elem_of_app in Hid as [Hid | Hid].
    + apply H3 in Hid. lia.
    + apply Hfr in Hid. lia.
  - intros j rj c Hj Hc. rewrite freed_app, not_elem_of_app.
    apply list_lookup_insert_Some in Hj as [(<- & <- & _) | (Hne & Hj)].
    + destruct Hnew as [(_ & _ & [E | (E1 & E2)]) | (_ & -> & E)].
      * congruence.
      * rewrite Hc in E2. destruct (coro r) as [c0 |] eqn:Hc0; [| discriminate].
        injection E2 as E2. destruct (H4 _ _ _ Hr Hc0) as [Hlt Hnf].
        rewrite E2. rewrite E1. repeat split; [lia | assumption |].
        apply not_elem_of_nil.
      * rewrite Hc in E. injection E as ->. repeat split; [lia | |].
        -- intros Hin. apply H3 in Hin. lia.
        -- intros Hin. apply Hfr in Hin. lia.
    + destruct (H4 _ _ _ Hj Hc) as [Hlt Hnf]. repeat split; [lia | assumption |].
      intros Hin. apply Hfr in Hin as (_ & _ & c0 & Hc0 & E).
      apply Hne. symmetry. eapply (H5 _ _ _ _ _ _ Hj Hr Hc Hc0). congruence.
  - intros j1 j2 r1 r2 c1 c2 Hj1 Hj2 Hc1 Hc2 E.
    assert (Hslot : forall c, coro r' = Some c ->
              (exists c0, coro r = Some c0 /\ coro_id c0 = coro_id c) \/
              coro_id c = n).
    { intros c Hc.
      destruct Hnew as [(_ & _ & [E0 | (_ & E2)]) | (_ & _ & E0)].
      - congruence.
      - rewrite Hc in E2. destruct (coro r) as [c0 |]; [| discriminate].
        injection E2 as E2. left. eauto.
      - rewrite Hc in E0. injection E0 as E0. auto. }
    apply list_lookup_insert_Some in Hj1 as [(<- & <- & _) | (Hne1 & Hj1)];
      apply list_lookup_insert_Some in Hj2 as [(<- & <- & _) | (Hne2 & Hj2)];
      try reflexivity.
    + destruct (Hslot _ Hc1) as [(c0 & Hc0 & E0) | E0].
      * eapply (H5 _ _ _ _ _ _ Hr Hj2 Hc0 Hc2). congruence.
      * destruct (H4 _ _ _ Hj2 Hc2). lia.
    + destruct (Hslot _ Hc2) as [(c0 & Hc0 & E0) | E0].
      * eapply (H5 _ _ _ _ _ _ Hj1 Hr Hc1 Hc0). congruence.
      * destruct (H4 _ _ _ Hj1 Hc1). lia.
    + eapply H5; eassumption.
Qed.
Lemma resume_interest ev epoll_fd r2 tr3 r3 w :
  _resume_coro_if_needed ev epoll_fd r2 = (tr3, Ok r3) ->
  ready w r2 ->
  req_ok r3 /\
  (forall j, j <> fd r2 -> modified j tr3 = []) /\
  ((modified (fd r2) tr3 = [] /\ write_events (flags r3) = w) \/
   (exists mask, modified (fd r2) tr3 = [mask] /\
                 write_direction mask = write_events (flags r3))).
Proof.
  intros H Hready. unfold ready in Hready.
  apply _resume_coro_if_needed_facts in H
    as (_ & _ & Hfd3 & _ & Hmo3 & Hres).
  split; [| split; [exact Hmo3 |]].
  - unfold req_ok.
    destruct Hres as [(-> & -> & Hnr) | (c & Hc & Hs & -> & Hs3 & Hw3 & _)].
    + destruct (coro r2); [| tauto]. destruct Hnr; [| discriminate].
      destruct Hready. congruence.
    + split; [reflexivity | congruence].
  - destruct Hres as [(-> & -> & Hnr) | (c & Hc & Hs & _ & Hs3 & Hw3 & Hm3)].
    + left. split; [reflexivity |].
      destruct (coro r2).
      * destruct Hnr; [| discriminate]. destruct Hready. congruence.
      * destruct Hready. congruence.
    + rewrite Hc in Hready. destruct Hready as [_ Hcur].
      simpl in Hm3. rewrite Hcur in Hm3. rewrite Hm3, Hw3.
      destruct (po_yield (outcome ev)), w; simpl; eauto.
Qed.

(** The interest a visit programs. *)
Lemma slot_op_interest i n r tr r' n' :
  slot_op i n r tr r' n' ->
  req_ok r ->
  req_ok r' /\
  (forall j, j <> i -> modified j tr = []) /\
  ((modified i tr = [] /\ write_events (flags r') = write_events (flags r)) \/
   (exists mask, modified i tr = [mask] /\
                 write_direction mask = write_events (flags r'))).
Proof.
  intros [n0 r0 tr0 r0' H
         | ev epoll_fd ttd n0 r0 tr1 r1 tr2 r2 n2 tr3 r3 H1 H2 H3
         | n0 r0 tr1 r1 H1] Hok.
  - rewrite _handle_hangup_eq in H. injection H as <- <-.
    repeat split; auto.
  - assert (H12 : fd r2 = i /\ (forall j, modified j (tr1 ++ tr2) = []) /\
                    ready (write_events (flags r0)) r2).
    { unfold req_ok in Hok. unfold ready.
      apply _cleanup_coro_cases in H1
        as [(-> & -> & Hc1) | (c & Hc & Hs & -> & ->)];
        apply _spawn_coro_if_needed_cases in H2
          as [(c2 & Hc2 & -> & -> & ->)
             | [(Hc2 & _ & -> & -> & ->) | (Hc2 & _ & -> & -> & ->)]];
        simpl in *; try discriminate;
        try rewrite Hc2 in *; try rewrite Hc in *;
        repeat split; auto;
        try (destruct Hok as [Hst Hwe]; rewrite ?Hst; congruence).
      destruct Hc1; [discriminate | assumption]. }
    destruct H12 as (Hfd & Hmod12 & Hready).
    destruct (resume_interest _ _ _ _ _ _ H3 Hready) as (Hok3 & Hmo3 & Hdir).
    rewrite Hfd in *. rewrite app_assoc.
    assert (Hm : forall j, modified j ((tr1 ++ tr2) ++ tr3) = modified j tr3).
    { intros j. now rewrite modified_app, Hmod12. }
    repeat split.
    + exact Hok3.
    + intros j Hj. rewrite Hm. now apply Hmo3.
    + rewrite Hm. exact Hdir.
  - apply _cleanup_coro_cases in H1
      as [(-> & -> & _) | (c & Hc & Hs & -> & ->)];
      unfold req_ok in *; simpl.
    + repeat split; auto.
    + rewrite Hc in Hok. destruct Hok as [_ Hwe].
      repeat split; auto. congruence.
Qed.
Lemma interest_inv_outside tr0 rs n tr :
  interest_inv tr0 rs n -> Forall outside_call tr ->
  interest_inv (tr0 ++ tr) rs n.
Proof.
  intros [H1 H2] Hout.
  assert (Hm : forall j, modified j tr = []).
  { intros j. induction Hout as [| c tr Hc _ IH]; [reflexivity |].
    destruct c; try contradiction; try exact IH.
    destruct op; [exact IH | contradiction]. }
  constructor; [exact H1 |].
  intros i r Hr. rewrite modified_app, Hm, app_nil_r. now apply H2.
Qed.

Lemma interest_inv_slot tr0 rs n i r tr r' n' :
  interest_inv tr0 rs n -> 0 <= i -> rs !! Z.to_nat i = Some r ->
  slot_op i n r tr r' n' ->
  interest_inv (tr0 ++ tr) (<[Z.to_nat i := r']> rs) n'.
Proof.
  intros [H1 H2] Hi Hr Hop.
  destruct (slot_op_interest _ _ _ _ _ _ Hop (H1 _ _ Hr))
    as (Hok & Hother & Hdir).
  constructor.
  - intros j rj Hj.
    apply list_lookup_insert_Some in Hj as [(_ & <- & _) | (_ & Hj)];
      [exact Hok | eapply H1; eassumption].
  - intros j rj Hj. rewrite modified_app.
    apply list_lookup_insert_Some in Hj as [(<- & <- & _) | (Hne & Hj)].
    + rewrite Z2Nat.id by exact Hi.
      destruct Hdir as [(-> & ->) | (mask & -> & <-)].
      * rewrite app_nil_r. rewrite (H2 _ _ Hr), Z2Nat.id by exact Hi.
        reflexivity.
      * unfold last_direction. now rewrite last_snoc.
    + rewrite Hother by lia. rewrite app_nil_r. now apply H2.
Qed.
End SlotFacts.

(** ** Invariants of the runs *)

Module InvariantFacts.
Import Lwan SystemFacts SlotFacts.
Local Open Scope Z_scope.

Lemma coro_inv_start rs :
  Forall fresh_slot rs -> coro_inv [] rs 0.
Proof.
  intros Hrs. constructor; simpl.
  - reflexivity.
  - apply NoDup_nil_2.
  - intros id Hid. now apply elem_of_nil in Hid.
  - intros i r c Hr Hc.
    apply (Forall_lookup_1 _ _ _ _ Hrs) in Hr as [Hn _]. congruence.
  - intros i j ri rj ci cj Hi _ Hc.
    apply (Forall_lookup_1 _ _ _ _ Hrs) in Hi as [Hn _]. congruence.
Qed.

Lemma interest_inv_start rs :
  Forall fresh_slot rs -> interest_inv [] rs 0.
Proof.
  intros Hrs. constructor.
  - intros i r Hr.
    apply (Forall_lookup_1 _ _ _ _ Hrs) in Hr as [Hn Hf].
    unfold req_ok. now rewrite Hn, Hf.
  - intros i r Hr.
    apply (Forall_lookup_1 _ _ _ _ Hrs) in Hr as [Hn Hf].
    now rewrite Hf.
Qed.

Section Runs.
Variables (threads : list lwan_thread_t) (count main_socket : Z).
Variables (max_fd keep_alive_timeout : Z).

Lemma run_coro_inv rs es tr s :
  Forall fresh_slot rs ->
  sys_run threads count main_socket max_fd keep_alive_timeout es
          (sys_start threads max_fd rs) = (tr, Ok s) ->
  coro_inv tr (requests (sys_shared s)) (next_coro (sys_shared s)).
Proof.
  intros Hrs H.
  apply (sys_run_inv coro_inv coro_inv_slot coro_inv_outside
           _ _ _ _ _ _ [] (sys_start threads max_fd rs) _ _
           (coro_inv_start _ Hrs) H).
Qed.

Lemma run_interest_inv rs es tr s :
  Forall fresh_slot rs ->
  sys_run threads count main_socket max_fd keep_alive_timeout es
          (sys_start threads max_fd rs) = (tr, Ok s) ->
  interest_inv tr (requests (sys_shared s)) (next_coro (sys_shared s)).
Proof.
  intros Hrs H.
  apply (sys_run_inv interest_inv interest_inv_slot interest_inv_outside
           _ _ _ _ _ _ [] (sys_start threads max_fd rs) _ _
           (interest_inv_start _ Hrs) H).
Qed.
End Runs.
Lemma slab_fresh : Forall fresh_slot Scenario.slab.
Proof. repeat constructor. Qed.

(** C3 at the failing input: the connection on descriptor 5 hangs up
    while its coroutine is suspended with write interest; neither the
    hangup nor the acceptor resets the slot.  The descriptor is
    accepted again and enrolled for reading; at its first event the
    dispatch finds the coroutine of the connection that is gone, makes
    no new one and resumes it.  It yields to write, which is what
    [write_events] already says, so no [EPOLL_CTL_MOD] is issued: the
    connection is tracked, [write_events] is set, and the interest
    programmed last for the descriptor is read. *)
Theorem C3_write_events_stale_after_hangup :
  exists tr s r,
    Scenario.run [Scenario.accepted 5;
                  SysWait 0 (WaitEvents [Scenario.ready_event 5 true true]);
                  SysWait 0 (WaitEvents [Scenario.hangup_event 5]);
                  Scenario.accepted 5;
                  SysWait 0 (WaitEvents [Scenario.ready_event 5 true true])]
      = (tr, Ok s) /\
    requests (sys_shared s) !! 5%nat = Some r /\
    alive (flags r) = true /\
    write_events (flags r) = true /\
    programmed 5 tr = [interest_mask false; interest_mask true;
                       interest_mask false] /\
    last_direction (programmed 5 tr) = false /\
    created tr = [0%nat] /\ resumed tr = [0; 0]%nat /\ freed tr = [].
Proof.
  eexists _, _, _.
  split; [vm_compute; reflexivity |].
  split; [vm_compute; reflexivity |].
  repeat split.
Qed.

(** C7 at the failing input: descriptor 5 hangs up while its
    coroutine is resumable; five ticks later the reap pass has taken
    its entry off the ring without a [coro_free]; the descriptor is
    accepted again and is readable.  The event does not free the
    coroutine either: the dispatch resumes it for the new connection,
    and the slot still holds it.  The only coroutine created was never
    freed. *)
Theorem C7_hung_up_coroutine_resumed_for_next_connection :
  exists tr1 s1 t1 tr2 s2 r,
    Scenario.run
      [Scenario.accepted 5;
       SysWait 0 (WaitEvents [Scenario.ready_event 5 true true]);
       SysWait 0 (WaitEvents [Scenario.hangup_event 5]);
       SysWait 0 WaitTimeout; SysWait 0 WaitTimeout; SysWait 0 WaitTimeout;
       SysWait 0 WaitTimeout; SysWait 0 WaitTimeout] = (tr1, Ok s1) /\
    sys_workers s1 !! 0%nat = Some (Some t1) /\
    ring t1 = [] /\ death_time t1 = 5 /\
    created tr1 = [0%nat] /\ resumed tr1 = [0%nat] /\ freed tr1 = [] /\
    sys_run Scenario.threads 1 Scenario.main_socket Scenario.max_fd
            Scenario.keep_alive_timeout
            [Scenario.accepted 5;
             SysWait 0 (WaitEvents [Scenario.ready_event 5 true true])] s1
      = (tr2, Ok s2) /\
    tr2 = [Caccept4 0; Cepoll_ctl 100 EPOLL_CTL_ADD 5 (interest_mask false);
           Cepoll_wait 100 8 (-1); Ccoro_resume 0] /\
    requests (sys_shared s2) !! 5%nat = Some r /\
    coro r = Some {| coro_id := 0; coro_started := true |} /\
    created (tr1 ++ tr2) = [0%nat] /\
    freed (tr1 ++ tr2) = [].
Proof.
  eexists _, _, _, _, _, _.
  split; [vm_compute; reflexivity |].
  split; [vm_compute; reflexivity |].
  split; [vm_compute; reflexivity |].
  split; [vm_compute; reflexivity |].
  split; [vm_compute; reflexivity |].
  split; [vm_compute; reflexivity |].
  split; [vm_compute; reflexivity |].
  split; [vm_compute; reflexivity |].
  split; [vm_compute; reflexivity |].
  split; [vm_compute; reflexivity |].
  repeat split.
Qed.
#[local] Arguments bind : simpl never.
#[local] Arguments emit : simpl never.
#[local] Arguments index : simpl never.
#[local] Arguments store : simpl never.
#[local] Arguments _cleanup_coro : simpl never.
#[local] Arguments _spawn_coro_if_needed : simpl never.
#[local] Arguments _resume_coro_if_needed : simpl never.

(** A connection whose coroutine has finished is enrolled again by its
    next event, whether it is in the ring or not: the new coroutine
    resets the request, and with it [alive]. *)
Lemma dispatch_after_finish_enrols
    max_fd keep_alive_timeout epoll_fd ev t sh tr t' sh' r c :
  requests sh !! Z.to_nat (data_fd ev) = Some r ->
  Z.land (events ev) (Z.lor EPOLLRDHUP EPOLLHUP) = 0 ->
  coro r = Some c -> should_resume_coro (flags r) = false ->
  coro_new_ok ev = true ->
  dispatch max_fd keep_alive_timeout epoll_fd ev (t, sh) = (tr, Ok (t', sh')) ->
  t' = enrolled max_fd (data_fd ev) t.
Proof.
  intros Hr Hev Hc Hs Hok H. unfold dispatch in H. io_inv.
  rewrite Hev in *. simpl in H.
  assert (x0 = r) as -> by congruence.
  io_inv.
  match goal with
  | H1 : _cleanup_coro _ = _, H2 : _spawn_coro_if_needed _ _ _ = _,
    H3 : _resume_coro_if_needed _ _ _ = (_, Ok ?r3) |- _ =>
      assert (Ha : alive (flags r3) = false);
      [ apply _cleanup_coro_cases in H1
          as [(-> & -> & [Hn | Hn]) | (c0 & _ & _ & -> & ->)];
        simpl in *; try congruence;
        apply _spawn_coro_if_needed_cases in H2
          as [(c2 & Hc2 & _) | [(_ & _ & -> & -> & ->) | (_ & E & _)]];
        simpl in *; try congruence;
        eapply resume_fresh_not_alive in H3; [exact H3 | reflexivity ..]
      | ]
  end.
  match goal with
  | H : (if negb (alive (flags ?q)) then _ else _) = _ |- _ =>
      assert (Hq : alive (flags q) = false)
        by (destruct (_ || _); simpl; exact Ha);
      rewrite Hq in H; simpl in H
  end.
  io_inv. subst. reflexivity.
Qed.

(** C2 at the failing input: a keep-alive connection on descriptor 5
    sends two requests, each served by a coroutine that finishes in
    its first resume.  The second dispatch finds [alive] cleared by
    the reset and enrols the descriptor again: the ring holds
    descriptor 5 twice while the connection is alive. *)
Theorem C2_alive_fd_enrolled_twice :
  exists tr s t r,
    Scenario.run
      [Scenario.accepted 5;
       SysWait 0 (WaitEvents [Scenario.ready_event 5 false true]);
       SysWait 0 (WaitEvents [Scenario.ready_event 5 false true])]
      = (tr, Ok s) /\
    sys_workers s !! 0%nat = Some (Some t) /\
    requests (sys_shared s) !! 5%nat = Some r /\
    alive (flags r) = true /\
    ring t = [5; 5] /\
    length (filter (fun fd => fd = 5) (ring t)) = 2%nat.
Proof.
  eexists _, _, _, _.
  split; [vm_compute; reflexivity |].
  split; [vm_compute; reflexivity |].
  split; [vm_compute; reflexivity |].
  repeat split.
Qed.
End InvariantFacts.

(** ** The URL map *)

Module UrlMapFacts.
Import Lwan.
Local Open Scope Z_scope.

Lemma shutdowns_app t1 t2 : shutdowns (t1 ++ t2) = shutdowns t1 ++ shutdowns t2.
Proof. apply omap_app. Qed.
Lemma inits_app t1 t2 : inits (t1 ++ t2) = inits t1 ++ inits t2.
Proof. apply omap_app. Qed.

Lemma teardown_call_Some e c :
  teardown_call e = Some c -> exists h d, c = Chandler_shutdown h d.
Proof.
  unfold teardown_call.
  destruct (handler e) as [h |]; [destruct (shutdown h) |];
    intros [= <-]; eauto.
Qed.

Lemma teardown_calls_shutdowns E :
  shutdowns (omap teardown_call E) = omap teardown_call E /\
  inits (omap teardown_call E) = [].
Proof.
  induction E as [| e E [IH1 IH2]]; [split; reflexivity |].
  change (omap teardown_call (e :: E))
    with (match teardown_call e with
          | Some c => c :: omap teardown_call E
          | None => omap teardown_call E
          end).
  destruct (teardown_call e) as [c |] eqn:He; [| auto].
  apply teardown_call_Some in He as (h & d & ->).
  change (shutdowns (Chandler_shutdown h d :: omap teardown_call E))
    with (Chandler_shutdown h d :: shutdowns (omap teardown_call E)).
  change (inits (Chandler_shutdown h d :: omap teardown_call E))
    with (inits (omap teardown_call E)).
  now rewrite IH1, IH2.
Qed.

(** The loop of [_url_map_free] calls the [shutdown] of every entry
    before the terminator, in order, and nothing else. *)
Lemma _url_map_free_entries_trace E : forall tr res,
  _url_map_free_entries E = (tr, res) ->
  tr = omap teardown_call (registered E).
Proof.
  induction E as [| e E IH]; intros tr res H; simpl in H.
  - unfold undefined in H. now injection H as <- <-.
  - destruct (prefix e) as [p |] eqn:Hp; simpl; rewrite Hp.
    2: { unfold ret in H. now injection H as <- <-. }
    destruct (_url_map_free_entries E) as [t' r'] eqn:HE.
    specialize (IH _ _ eq_refl). subst t'.
    change (omap teardown_call (e :: registered E))
      with (match teardown_call e with
            | Some c => c :: omap teardown_call (registered E)
            | None => omap teardown_call (registered E)
            end).
    unfold teardown_call at 1. unfold bind, emit, ret in H.
    destruct (handler e) as [h |]; [destruct (shutdown h) |];
      destruct r'; injection H as <- <-; reflexivity.
Qed.

(** The loop of [lwan_set_url_map] calls no [shutdown]. *)
Lemma lwan_set_url_map_entries_trace mask E : forall tr res,
  lwan_set_url_map_entries mask E = (tr, res) ->
  shutdowns tr = [].
Proof.
  induction E as [| e E IH]; intros tr res H; simpl in H.
  - unfold undefined in H. now injection H as <- <-.
  - destruct (prefix e) as [p |].
    2: { unfold ret in H. now injection H as <- <-. }
    destruct (lwan_set_url_map_entries mask E) as [t' r'] eqn:HE.
    specialize (IH _ _ eq_refl). unfold bind, emit, ret in H.
    destruct (handler e) as [[h [f |] sh cb fl] |];
      destruct r' as [[um trie] | code |];
      injection H as <- <-; simpl; rewrite ?app_nil_r; exact IH.
Qed.
Lemma lwan_set_url_map_entries_teardown mask E : forall tr um trie,
  lwan_set_url_map_entries mask E = (tr, Ok (um, trie)) ->
  omap teardown_call (registered um)
    = omap teardown_call (initialised <$> registered E).
Proof.
  induction E as [| e E IH]; intros tr um trie H; simpl in H.
  - discriminate H.
  - destruct (prefix e) as [p |] eqn:Hp.
    2: { unfold ret in H. injection H as <- <- <-. simpl. now rewrite Hp. }
    destruct (lwan_set_url_map_entries mask E) as [t' r'] eqn:HE.
    unfold bind, emit, ret in H.
    destruct r' as [[um' trie'] | code |].
    2, 3: destruct (handler e) as [[h [f |] sh cb fl] |]; discriminate H.
    specialize (IH _ _ _ eq_refl).
    simpl. rewrite Hp. simpl.
    destruct (handler e) as [[h [f |] sh cb fl] |] eqn:Hh;
      injection H as <- <- <-;
      unfold initialised; rewrite ?Hh; unfold teardown_call in *;
      simpl in *; rewrite ?Hh; simpl; try destruct sh;
      (exact IH || (f_equal; exact IH)).
Qed.

(** C5: setting the URL map first calls the [shutdown] of every entry
    registered before (every entry before the terminator whose
    handler has one), once each, in order and with the entry's
    [data], and only then goes on to the new entries: no [init]
    precedes a [shutdown].  When no map was registered, no [shutdown]
    is called.  After a registration of [E], the [data] handed to
    [shutdown] is what [init] returned for the entry. *)
Theorem C5_teardown_before_init mask trie_ok l E' tr res :
  lwan_set_url_map mask trie_ok l E' = (tr, res) ->
  match l_url_map l with
  | None => shutdowns tr = []
  | Some E =>
      exists rest,
        tr = Ctrie_destroy :: omap teardown_call (registered E) ++ rest /\
        inits (Ctrie_destroy :: omap teardown_call (registered E)) = [] /\
        shutdowns rest = [] /\
        shutdowns tr = omap teardown_call (registered E) /\
        forall mask0 E0 tr0 trie0,
          lwan_set_url_map_entries mask0 E0 = (tr0, Ok (E, trie0)) ->
          shutdowns tr = omap teardown_call (initialised <$> registered E0)
  end.
Proof.
  unfold lwan_set_url_map, _url_map_free. intros H.
  assert (Hrest : forall t r,
            (let* _ := emit Ctrie_new in
             if negb trie_ok
             then let* _ := emit (Cperror "lwan_trie_new") in exit (-1)
             else let* (url_map', trie) := lwan_set_url_map_entries mask E' in
                  ret {| l_url_map := Some url_map';
                         l_url_map_trie := Some trie |}) = (t, r) ->
            shutdowns t = []).
  { intros t r Hr. unfold bind, emit, ret, exit in Hr.
    destruct (negb trie_ok).
    - now injection Hr as <- <-.
    - destruct (lwan_set_url_map_entries mask E') as [t' r'] eqn:HE.
      apply lwan_set_url_map_entries_trace in HE.
      destruct r' as [[um trie] | code |]; injection Hr as <- <-;
        simpl; rewrite ?app_nil_r; exact HE. }
  destruct (l_url_map l) as [E |].
  - unfold bind at 1 in H. unfold bind at 1 in H. unfold emit at 1 in H.
    destruct (_url_map_free_entries E) as [t1 r1] eqn:H1.
    apply _url_map_free_entries_trace in H1. subst t1.
    destruct (teardown_calls_shutdowns (registered E)) as [Hs Hi].
    assert (Hex : exists rest,
              tr = Ctrie_destroy :: omap teardown_call (registered E) ++ rest /\
              shutdowns rest = []).
    { destruct r1 as [[] | code |].
      - match type of H with
        | (let '(t', r) := ?m in _) = _ =>
            pose proof (Hrest m.1 m.2 (surjective_pairing _)) as H2;
            clear Hrest; destruct m as [t2 r2]
        end.
        injection H as <- <-. simpl in H2.
        exists t2. auto.
      - injection H as <- <-. exists []. now rewrite app_nil_r.
      - injection H as <- <-. exists []. now rewrite app_nil_r. }
    destruct Hex as (rest & -> & Hr). exists rest.
    assert (Hall : shutdowns (Ctrie_destroy :: omap teardown_call (registered E) ++ rest)
                   = omap teardown_call (registered E)).
    { change (shutdowns (Ctrie_destroy :: ?x)) with (shutdowns x).
      now rewrite shutdowns_app, Hs, Hr, app_nil_r. }
    repeat split; auto.
    intros mask0 E0 tr0 trie0 H0. rewrite Hall.
    eapply lwan_set_url_map_entries_teardown. eassumption.
  - unfold bind at 1 in H. unfold ret at 1 in H.
    match type of H with
    | (let '(t', r) := ?m in _) = _ =>
        pose proof (Hrest m.1 m.2 (surjective_pairing _)) as H2;
        clear Hrest; destruct m as [t2 r2]
    end.
    injection H as <- <-. exact H2.
Qed.
Lemma C5_teardown_before_init_witness :
  exists tr l,
    lwan_set_url_map 255 true Scenario.registered_once Scenario.second_map
      = (tr, Ok l) /\
    tr = [Ctrie_destroy; Chandler_shutdown 1 1007; Chandler_shutdown 1 1008;
          Ctrie_new; Ctrie_add "/"; Chandler_init 1 9] /\
    exists rest,
      tr = Ctrie_destroy :: [Chandler_shutdown 1 1007; Chandler_shutdown 1 1008]
             ++ rest /\
      inits [Ctrie_destroy; Chandler_shutdown 1 1007; Chandler_shutdown 1 1008] = [] /\
      shutdowns rest = [] /\
      shutdowns tr = [Chandler_shutdown 1 1007; Chandler_shutdown 1 1008] /\
      forall mask0 E0 tr0 trie0,
        lwan_set_url_map_entries mask0 E0
          = (tr0, Ok ([{| prefix := Some "/files"%string; prefix_len := 6;
                          handler := Some Scenario.serve_files; args := 7;
                          data := 1007; callback := 11; um_flags := 3 |};
                       {| prefix := Some "/hello"%string; prefix_len := 6;
                          handler := Some Scenario.hello_world; args := 0;
                          data := 0; callback := 0; um_flags := 255 |};
                       {| prefix := Some "/static"%string; prefix_len := 7;
                          handler := Some Scenario.serve_files; args := 8;
                          data := 1008; callback := 11; um_flags := 3 |};
                       Scenario.url_entry None None 0], trie0)) ->
        shutdowns tr = omap teardown_call (initialised <$> registered E0).
Proof.
  eexists _, _.
  split; [vm_compute; reflexivity |].
  split; [reflexivity |].
  exact (C5_teardown_before_init 255 true Scenario.registered_once
           Scenario.second_map _ _ eq_refl).
Defined.
End UrlMapFacts.

(** ** The slab *)

Module SlabFacts.
Import Lwan.
Local Open Scope Z_scope.

#[local] Arguments bind : simpl never.
#[local] Arguments emit : simpl never.
#[local] Arguments index : simpl never.
#[local] Arguments store : simpl never.

(** The loop of [lwan_init] leaves slot 0 and the slots above its
    starting point as they are. *)
Lemma lwan_init_buffers_frame l n : forall rs next tr rs' next',
  lwan_init_buffers l n (rs, next) = (tr, Ok (rs', next')) ->
  length rs' = length rs /\
  forall i, (i = 0 \/ n < i)%nat -> rs' !! i = rs !! i.
Proof.
  induction n as [| n IH]; intros rs next tr rs' next' H; simpl in H.
  - io_inv. subst. auto.
  - io_inv. unfold strbuf_new in *. io_inv. subst.
    match goal with
    | H : lwan_init_buffers _ _ _ = _ |- _ =>
        apply IH in H as [Hlen Hframe]
    end.
    rewrite length_insert in Hlen. split; [exact Hlen |].
    intros i Hi. rewrite Hframe by lia.
    apply list_lookup_insert_ne. lia.
Qed.

(** Every slot from 1 to the starting point gets a buffer of its
    own and the back pointer. *)
Lemma lwan_init_buffers_slots l n : forall rs next tr rs' next',
  lwan_init_buffers l n (rs, next) = (tr, Ok (rs', next')) ->
  next' = (next + n)%nat /\
  forall i, (1 <= i <= n)%nat ->
    exists r, rs' !! i = Some r /\
      response_buffer r =
        Some {| strbuf_id := next + (n - i); strbuf_len := 0 |} /\
      lwan r = Some l.
Proof.
  induction n as [| n IH]; intros rs next tr rs' next' H; simpl in H.
  - io_inv. subst. split; [lia |]. intros i Hi. lia.
  - io_inv. unfold strbuf_new in *. io_inv. subst.
    match goal with
    | H : lwan_init_buffers _ _ _ = _ |- _ =>
        pose proof (lwan_init_buffers_frame _ _ _ _ _ _ _ H) as [_ Hframe];
        apply IH in H as [Hnext Hslots]
    end.
    split; [lia |]. intros i Hi.
    destruct (decide (i = S n)) as [-> | Hne].
    + rewrite Hframe by lia.
      rewrite Nat2Z.id, list_lookup_insert_eq by (rewrite Nat2Z.id in *; lia).
      eexists. split; [reflexivity |]. simpl. split; [| reflexivity].
      do 2 f_equal. lia.
    + destruct (Hslots i ltac:(lia)) as (r & Hr & Hb & Hl).
      exists r. repeat split; try assumption.
      rewrite Hb. do 2 f_equal. lia.
Qed.

(** [lwan_init] leaves slot 0 without a buffer and without the back
    pointer, whatever the limit. *)
Lemma lwan_init_requests_slot_zero
    l other_size env tr count max_fd rs next r0 :
  lwan_init_requests l other_size env = (tr, Ok (count, max_fd, rs, next)) ->
  rs !! 0%nat = Some r0 ->
  response_buffer r0 = None /\ lwan r0 = None.
Proof.
  unfold lwan_init_requests. intros H Hr0. io_inv.
  destruct (getrlimit_ret env <? 0); io_inv.
  destruct (setrlimit_ret env <? 0); io_inv.
  match goal with
  | H : (if ?c =? 0 then _ else _) = _ |- _ =>
      destruct (Z.eqb_spec c 0) as [Hz | Hnz]; io_inv
  end.
  match goal with
  | H : lwan_init_buffers _ _ _ = _ |- _ =>
      apply lwan_init_buffers_frame in H as [_ Hframe]
  end.
  subst. rewrite Hframe in Hr0 by auto.
  destruct (calloc_ok env); [| discriminate Hr0].
  apply lookup_replicate in Hr0 as [-> _]. auto.
Qed.

(** C6 at the failing input: with a limit of 8 descriptors,
    [lwan_init] creates 7 buffers; slot 0 has neither a buffer nor
    the back pointer, the slots 1 to 7 have both; [lwan_shutdown]
    does visit slot 0, where it finds no buffer to free. *)
Theorem C6_slot_zero_has_no_buffer :
  exists tr rs r0 tr',
    lwan_init_requests 1 2 Scenario.env = (tr, Ok (1, 8, rs, 7%nat)) /\
    length rs = 8%nat /\
    rs !! 0%nat = Some r0 /\
    response_buffer r0 = None /\ lwan r0 = None /\
    (forall i, (1 <= i <= 7)%nat ->
       exists r, rs !! i = Some r /\
         response_buffer r = Some {| strbuf_id := 7 - i; strbuf_len := 0 |} /\
         lwan r = Some 1%nat) /\
    lwan_shutdown_buffers 8 rs = (tr', Ok tt) /\
    last tr' = Some (Cstrbuf_free None).
Proof.
  eexists _, _, _, _.
  split; [vm_compute; reflexivity |].
  split; [reflexivity |].
  split; [reflexivity |].
  split; [reflexivity |].
  split; [reflexivity |].
  split.
  - intros i Hi.
    assert (Hcases : (i = 1 \/ i = 2 \/ i = 3 \/ i = 4 \/ i = 5 \/ i = 6 \/ i = 7)%nat)
      by lia.
    destruct Hcases as [-> | [-> | [-> | [-> | [-> | [-> | ->]]]]]];
      eexists; repeat split; reflexivity.
  - split; [vm_compute; reflexivity | reflexivity].
Qed.
End SlabFacts.

(** ** The acceptor *)

Module AcceptorFacts.
Import Lwan.
Local Open Scope Z_scope.

Section Acceptor.
Variables (threads : list lwan_thread_t) (count main_socket : Z).

(** What [_push_request_fd] does when nothing is undefined. *)
Lemma _push_request_fd_eq counter fd epoll_ctl_ret th :
  0 <= counter < INT_MAX -> 0 < count ->
  threads !! Z.to_nat (counter mod count) = Some th ->
  _push_request_fd threads count counter fd epoll_ctl_ret =
    if epoll_ctl_ret <? 0 then
      ([Cepoll_ctl (epoll_fd th) EPOLL_CTL_ADD fd (interest_mask false);
        Cperror "epoll_ctl"], Exit (-1))
    else
      ([Cepoll_ctl (epoll_fd th) EPOLL_CTL_ADD fd (interest_mask false)],
       Ok (counter + 1)).
Proof.
  intros Hc Hn Hth. unfold _push_request_fd, int_incr, int_rem, index.
  destruct (Z.ltb_spec counter INT_MAX); [| lia].
  destruct (Z.eqb_spec count 0); [lia |].
  destruct (Z.eqb_spec counter INT_MIN); [unfold INT_MIN in *; lia |].
  simpl. rewrite Z.rem_mod_nonneg by lia.
  destruct (Z.ltb_spec (counter mod count) 0).
  { pose proof (Z.mod_pos_bound counter count Hn). lia. }
  rewrite Hth. simpl.
  destruct (epoll_ctl_ret <? 0); reflexivity.
Qed.

(** C8 (as amended): a failed [accept4] is logged and the acceptor
    goes on with the next entry, its state unchanged; a failed
    enrolment of an accepted descriptor is logged and the process
    exits with status -1. *)
Theorem C8_accept_error_continues_enrolment_error_exits ev counter th :
  data_u32 ev = 0 ->
  0 <= counter < INT_MAX -> 0 < count ->
  threads !! Z.to_nat (counter mod count) = Some th ->
  (accept4_ret ev < 0 ->
   lwan_main_loop_event threads count main_socket ev counter =
     ([Caccept4 main_socket; Cperror "accept"], Ok counter)) /\
  (0 <= accept4_ret ev -> add_epoll_ctl_ret ev < 0 ->
   lwan_main_loop_event threads count main_socket ev counter =
     ([Caccept4 main_socket;
       Cepoll_ctl (epoll_fd th) EPOLL_CTL_ADD (accept4_ret ev)
                  (interest_mask false);
       Cperror "epoll_ctl"], Exit (-1))).
Proof.
  intros Hu Hc Hn Hth. unfold lwan_main_loop_event. rewrite Hu. simpl.
  split.
  - intros Hneg. destruct (Z.ltb_spec (accept4_ret ev) 0); [| lia].
    reflexivity.
  - intros Hfd Hctl. destruct (Z.ltb_spec (accept4_ret ev) 0); [lia |].
    rewrite (_push_request_fd_eq _ _ _ th) by assumption.
    destruct (Z.ltb_spec (add_epoll_ctl_ret ev) 0); [| lia].
    reflexivity.
Qed.
(** Handling a sequence of entries from a given value of [counter]:
    the i-th accepted descriptor goes to the worker
    [(counter + i) mod count]. *)
Lemma accept_sequence evs : forall counter,
  0 <= counter ->
  counter + Z.of_nat (length (accepted_fds evs)) <= INT_MAX ->
  0 < count -> length threads = Z.to_nat count ->
  Forall (fun ev => 0 <= add_epoll_ctl_ret ev) evs ->
  exists tr,
    lwan_main_loop_events threads count main_socket evs counter
      = (tr, Ok (counter + Z.of_nat (length (accepted_fds evs)))) /\
    length (enrolments tr) = length (accepted_fds evs) /\
    forall i fd, accepted_fds evs !! i = Some fd ->
      exists th,
        threads !! Z.to_nat ((counter + Z.of_nat i) mod count) = Some th /\
        enrolments tr !! i = Some (epoll_fd th, fd, interest_mask false).
Proof.
  induction evs as [| ev evs IH]; intros counter Hc Hlen Hn Hth Hevs.
  - exists []. simpl. rewrite Z.add_0_r. repeat split.
    intros i fd Hi. discriminate Hi.
  - apply Forall_cons in Hevs as [Hev Hevs].
    change (lwan_main_loop_events threads count main_socket (ev :: evs) counter)
      with (let* c := lwan_main_loop_event threads count main_socket ev counter in
            lwan_main_loop_events threads count main_socket evs c).
    change (accepted_fds (ev :: evs))
      with (match (if (data_u32 ev =? 0) && negb (accept4_ret ev <? 0)
                   then Some (accept4_ret ev) else None) with
            | Some fd => fd :: accepted_fds evs
            | None => accepted_fds evs
            end) in *.
    unfold lwan_main_loop_event.
    destruct (data_u32 ev =? 0); simpl in *.
    2: { destruct (IH counter Hc Hlen Hn Hth Hevs) as (tr & Hrun & Hl & Hi).
         exists (Cdir_watch_process_events :: tr). rewrite Hrun. auto. }
    destruct (Z.ltb_spec (accept4_ret ev) 0) as [Hneg | Hfd]; simpl in *.
    { destruct (IH counter Hc Hlen Hn Hth Hevs) as (tr & Hrun & Hl & Hi).
      exists (Caccept4 main_socket :: Cperror "accept" :: tr).
      rewrite Hrun. auto. }
    assert (Hlt : (Z.to_nat (counter mod count) < length threads)%nat).
    { pose proof (Z.mod_pos_bound counter count Hn). lia. }
    destruct (lookup_lt_is_Some_2 _ _ Hlt) as [th Hlookup].
    destruct (IH (counter + 1) ltac:(lia) ltac:(lia) Hn Hth Hevs)
      as (tr & Hrun & Hlen' & Hi).
    exists ([Caccept4 main_socket;
             Cepoll_ctl (epoll_fd th) EPOLL_CTL_ADD (accept4_ret ev)
                        (interest_mask false)] ++ tr).
    split; [| split].
    + rewrite (_push_request_fd_eq _ _ _ th) by (try assumption; lia).
      destruct (Z.ltb_spec (add_epoll_ctl_ret ev) 0); [lia |].
      simpl. rewrite Hrun.
      replace (counter + Z.of_nat (S (length (accepted_fds evs))))
        with (counter + 1 + Z.of_nat (length (accepted_fds evs))) by lia.
      reflexivity.
    + simpl. now rewrite Hlen'.
    + intros [| i] fd' Hfd'; simpl in Hfd'.
      * injection Hfd' as <-. exists th. rewrite Z.add_0_r. auto.
      * destruct (Hi _ _ Hfd') as (th' & Hth' & He).
        exists th'. split; [| exact He].
        replace (counter + Z.of_nat (S i))
          with (counter + 1 + Z.of_nat i) by lia.
        exact Hth'.
Qed.

(** While [counter] stays within [int], that is for at most 2^31 - 1
    accepted connections, the i-th accepted descriptor is enrolled in
    the epoll set of worker [i mod count] with
    [EPOLLIN | EPOLLRDHUP | EPOLLERR | EPOLLET], whatever failed
    accepts and directory events come in between, when every
    enrolment succeeds. *)
Lemma round_robin_within_int evs :
  0 < count -> length threads = Z.to_nat count ->
  Z.of_nat (length (accepted_fds evs)) <= INT_MAX ->
  Forall (fun ev => 0 <= add_epoll_ctl_ret ev) evs ->
  exists tr,
    lwan_main_loop_events threads count main_socket evs 0
      = (tr, Ok (Z.of_nat (length (accepted_fds evs)))) /\
    length (enrolments tr) = length (accepted_fds evs) /\
    forall i fd, accepted_fds evs !! i = Some fd ->
      exists th,
        threads !! Z.to_nat (Z.of_nat i mod count) = Some th /\
        enrolments tr !! i =
          Some (epoll_fd th, fd,
                Z.lor (Z.lor (Z.lor EPOLLIN EPOLLRDHUP) EPOLLERR) EPOLLET).
Proof.
  intros Hn Hth Hlen Hevs.
  destruct (accept_sequence evs 0 ltac:(lia) ltac:(lia) Hn Hth Hevs)
    as (tr & Hrun & Hl & Hi).
  exists tr. split; [exact Hrun |]. split; [exact Hl |]. exact Hi.
Qed.
End Acceptor.

Lemma C8_accept_error_continues_enrolment_error_exits_witness :
  lwan_main_loop_event Scenario.threads 1 0
    {| data_u32 := 0; accept4_ret := -1; add_epoll_ctl_ret := 0 |} 3 =
    ([Caccept4 0; Cperror "accept"], Ok 3).
Proof.
  refine (proj1 (C8_accept_error_continues_enrolment_error_exits
                   Scenario.threads 1 0
                   {| data_u32 := 0; accept4_ret := -1; add_epoll_ctl_ret := 0 |}
                   3 {| epoll_fd := 100 |} eq_refl _ _ eq_refl) _).
  - unfold INT_MAX. simpl. lia.
  - lia.
  - simpl. lia.
Defined.

(** C8 as stated fails: the enrolment of the accepted descriptor 5
    fails, and the process exits with status -1. *)
Lemma C8_counterexample :
  lwan_main_loop_event Scenario.threads 1 0
    {| data_u32 := 0; accept4_ret := 5; add_epoll_ctl_ret := -1 |} 0 =
    ([Caccept4 0; Cepoll_ctl 100 EPOLL_CTL_ADD 5 (interest_mask false);
      Cperror "epoll_ctl"], Exit (-1)).
Proof. reflexivity. Qed.
(** Four workers, eight accepts: workers 0, 1, 2, 3, 0, 1, 2, 3. *)
Lemma round_robin_four_workers :
  exists tr,
    lwan_main_loop_events Scenario.four_threads 4 0
      (accept_event <$> [10; 11; 12; 13; 14; 15; 16; 17]) 0 = (tr, Ok 8) /\
    enrolments tr =
      [(100, 10, 2147491849); (101, 11, 2147491849);
       (102, 12, 2147491849); (103, 13, 2147491849);
       (100, 14, 2147491849); (101, 15, 2147491849);
       (102, 16, 2147491849); (103, 17, 2147491849)] /\
    length (enrolments tr) = 8%nat /\
    forall i fd, [10; 11; 12; 13; 14; 15; 16; 17] !! i = Some fd ->
      exists th,
        Scenario.four_threads !! Z.to_nat (Z.of_nat i mod 4) = Some th /\
        enrolments tr !! i = Some (epoll_fd th, fd, 2147491849).
Proof.
  eexists. split; [vm_compute; reflexivity |]. split; [reflexivity |].
  refine (let H := round_robin_within_int Scenario.four_threads 4 0
                     (accept_event <$> [10; 11; 12; 13; 14; 15; 16; 17])
                     _ _ _ _ in _).
  - destruct H as (tr & Hrun & Hlen & Hi).
    vm_compute in Hrun. injection Hrun as <-. split; [exact Hlen | exact Hi].
  Unshelve.
  + lia.
  + reflexivity.
  + unfold INT_MAX. simpl. lia.
  + repeat constructor; simpl; lia.
Defined.

Lemma accepted_fds_replicate n fd :
  0 <= fd -> accepted_fds (replicate n (accept_event fd)) = replicate n fd.
Proof.
  intros Hfd. induction n as [| n IH]; [reflexivity |].
  cbn [replicate]. unfold accepted_fds in *. cbn [omap list_omap].
  rewrite IH. cbn [accept_event data_u32 accept4_ret].
  destruct (Z.ltb_spec fd 0); [lia | reflexivity].
Qed.

Lemma lwan_main_loop_events_app threads count main_socket evs evs' :
  forall counter tr counter',
  lwan_main_loop_events threads count main_socket evs counter
    = (tr, Ok counter') ->
  lwan_main_loop_events threads count main_socket (evs ++ evs') counter
    = (let '(t2, r) :=
         lwan_main_loop_events threads count main_socket evs' counter' in
       (tr ++ t2, r)).
Proof.
  induction evs as [| ev evs IH]; intros counter tr counter' H.
  - simpl in H. unfold ret in H. injection H as <- <-. simpl.
    now destruct (lwan_main_loop_events _ _ _ _ _).
  - cbn [app lwan_main_loop_events] in *. unfold bind in *.
    destruct (lwan_main_loop_event threads count main_socket ev counter)
      as [t1 [c1 | code |]]; try discriminate H.
    destruct (lwan_main_loop_events threads count main_socket evs c1)
      as [t2 r2] eqn:E.
    injection H as <- ->. rewrite (IH _ _ _ E).
    destruct (lwan_main_loop_events threads count main_socket evs' counter')
      as [t3 r3].
    now rewrite app_assoc.
Qed.

(** C9 at the failing input: four workers; 2^31 - 1 connections are
    accepted and enrolled one after the other, which leaves [counter]
    at [INT_MAX]; the next accepted connection is not handed to any
    worker: [counter++] overflows. *)
Theorem C9_counter_overflows_after_INT_MAX_accepts :
  let evs := replicate (Z.to_nat INT_MAX) (accept_event 5) in
  exists tr,
    lwan_main_loop_events Scenario.four_threads 4 0 evs 0
      = (tr, Ok INT_MAX) /\
    length (enrolments tr) = Z.to_nat INT_MAX /\
    lwan_main_loop_events Scenario.four_threads 4 0
      (evs ++ [accept_event 5]) 0 = (tr ++ [Caccept4 0], Undefined).
Proof.
  intros evs. subst evs.
  assert (Hn : Z.of_nat (Z.to_nat INT_MAX) = INT_MAX)
    by (unfold INT_MAX; lia).
  remember (Z.to_nat INT_MAX) as n eqn:En. clear En.
  destruct (accept_sequence Scenario.four_threads 4 0
              (replicate n (accept_event 5)) 0)
    as (tr & Hrun & Hlen & _).
  - lia.
  - rewrite accepted_fds_replicate, length_replicate by lia. lia.
  - lia.
  - reflexivity.
  - apply Forall_replicate. simpl. lia.
  - rewrite accepted_fds_replicate, length_replicate in * by lia.
    rewrite Z.add_0_l, Hn in Hrun.
    exists tr. split; [exact Hrun |]. split; [exact Hlen |].
    rewrite (lwan_main_loop_events_app _ _ _ _ _ _ _ _ Hrun).
    reflexivity.
Qed.
End AcceptorFacts.

(** ** The hash table *)

Module HashFacts.
Import Hash.
Local Open Scope Z_scope.

#[local] Arguments bind : simpl never.
#[local] Arguments emit : simpl never.
#[local] Arguments index : simpl never.
#[local] Arguments store : simpl never.

(** *** The binary search returns

    Whatever the comparator, an iteration shrinks the interval: more
    fuel than the interval is long is never used up. *)
Lemma bsearch_fuel {K V} (cmp : K -> Z) (es : list (hash_entry K V)) :
  forall fuel fuel' lo hi,
    0 <= lo -> (Z.to_nat (hi - lo) < fuel)%nat ->
    (Z.to_nat (hi - lo) < fuel')%nat ->
    bsearch fuel cmp es lo hi = bsearch fuel' cmp es lo hi.
Proof.
  induction fuel as [| fuel IH]; intros [| fuel'] lo hi Hlo Hf Hf'; try lia.
  simpl. destruct (Z.ltb_spec lo hi) as [L | L]; [| reflexivity].
  pose proof (Z.div_le_lower_bound (lo + hi) 2 lo ltac:(lia) ltac:(lia)).
  pose proof (Z.div_lt_upper_bound (lo + hi) 2 hi ltac:(lia) ltac:(lia)).
  destruct (es !! _) as [ptr |]; [| reflexivity].
  destruct (_ =? 0); [reflexivity |].
  destruct (0 <? _); apply IH; lia.
Qed.

(** *** One bucket, under a lawful comparator *)

Section Bucket.
Context {K V : Type}.
Variables (lt : K -> K -> Prop) (dom : K -> Prop).
Variables (cmp : K -> K -> Z -> Z) (len : K -> Z).
Hypothesis Hlaw : lawful lt dom cmp len.
Variable k : K.
Hypothesis Hk : dom k.

Let c (k' : K) : Z := cmp k k' (wrap_uint (len k)).

Lemma compare_zero k' : dom k' -> c k' = 0 -> k = k'.
Proof.
  intros Hk' Hc. destruct (compare_sign _ _ _ _ Hlaw k k' Hk Hk') as [[]|[[]|[]]];
    fold (c k') in *; auto; lia.
Qed.

Lemma compare_neg k' : dom k' -> c k' < 0 -> lt k k'.
Proof.
  intros Hk' Hc. destruct (compare_sign _ _ _ _ Hlaw k k' Hk Hk') as [[]|[[]|[]]];
    fold (c k') in *; auto; lia.
Qed.

Lemma compare_pos k' : dom k' -> 0 < c k' -> lt k' k.
Proof.
  intros Hk' Hc. destruct (compare_sign _ _ _ _ Hlaw k k' Hk Hk') as [[]|[[]|[]]];
    fold (c k') in *; auto; lia.
Qed.

Lemma sorted_lookup (l : list K) : StronglySorted lt l ->
  forall i j x y, (i < j)%nat -> l !! i = Some x -> l !! j = Some y -> lt x y.
Proof.
  induction 1 as [| a l Hs IH Ha]; intros i j x y Hij Hi Hj; [done |].
  destruct j as [| j]; [lia |]. simpl in Hj.
  destruct i as [| i]; simpl in Hi.
  - injection Hi as <-. rewrite Forall_forall in Ha. apply Ha.
    eapply list_elem_of_lookup_2; eauto.
  - apply (IH i j); auto; lia.
Qed.

Lemma scan_spec (es : list (hash_entry K V)) : forall i j st,
  scan c es i = (j, st) ->
  exists m, j = (i + m)%nat /\ (m <= length es)%nat /\
    Forall (fun e => 0 < c (key e)) (take m es) /\
    match st with
    | Equal => exists e, es !! m = Some e /\ c (key e) = 0
    | Less => exists e, es !! m = Some e /\ c (key e) < 0
    | End_ => m = length es
    end.
Proof.
  induction es as [| e es IH]; intros i j st H; simpl in H.
  - injection H as <- <-. exists O. repeat split; auto; lia.
  - destruct (Z.eqb_spec (c (key e)) 0) as [E | E].
    { injection H as <- <-. exists O. simpl. repeat split; eauto with lia. }
    destruct (Z.ltb_spec (c (key e)) 0) as [L | L].
    { injection H as <- <-. exists O. simpl. repeat split; eauto with lia. }
    apply IH in H as (m & -> & Hm & Hall & Hst).
    exists (S m). repeat split; [lia | simpl; lia | |].
    + simpl. constructor; [lia | done].
    + destruct st; simpl; auto.
Qed.

(** Entries of a sorted bucket by index. *)
Lemma entries_lookup_lt (es : list (hash_entry K V)) i j x y :
  StronglySorted lt (key <$> es) -> (i < j)%nat ->
  es !! i = Some x -> es !! j = Some y -> lt (key x) (key y).
Proof.
  intros Hs Hij Hi Hj.
  eapply (sorted_lookup _ Hs i j); [done | |]; rewrite list_lookup_fmap.
  - now rewrite Hi.
  - now rewrite Hj.
Qed.

(** A sorted bucket holds a key once. *)
Lemma entries_key_inj (es : list (hash_entry K V)) i j x y :
  StronglySorted lt (key <$> es) ->
  es !! i = Some x -> es !! j = Some y -> key x = key y -> i = j.
Proof.
  intros Hs Hi Hj E.
  destruct (Nat.lt_trichotomy i j) as [L | [L | L]]; [| done |]; exfalso.
  - pose proof (entries_lookup_lt _ _ _ _ _ Hs L Hi Hj) as H.
    rewrite E in H. eapply lt_irrefl; eauto.
  - pose proof (entries_lookup_lt _ _ _ _ _ Hs L Hj Hi) as H.
    rewrite E in H. eapply lt_irrefl; eauto.
Qed.

(** Where the loop of [hash_add] stops in a sorted bucket without
    the key: the keys before are smaller, the keys from there on are
    larger. *)
Lemma scan_bounds (es : list (hash_entry K V)) m st :
  StronglySorted lt (key <$> es) -> Forall dom (key <$> es) ->
  scan c es O = (m, st) -> st <> Equal ->
  Forall (fun x => lt x k) (key <$> take m es) /\
  Forall (lt k) (key <$> drop m es).
Proof.
  intros Hs Hd Hscan Hst.
  apply scan_spec in Hscan as (m' & -> & Hm & Hall & Hstop). simpl in *.
  assert (Hdom : forall i e, es !! i = Some e -> dom (key e)).
  { intros i e He. rewrite Forall_forall in Hd. apply Hd.
    apply list_elem_of_fmap. exists e. split; [done |].
    eapply list_elem_of_lookup_2; eauto. }
  split; apply Forall_forall; intros x (e & -> & He)%list_elem_of_fmap.
  - rewrite Forall_forall in Hall. pose proof (Hall e He) as Hc.
    apply elem_of_take in He as (i & He & _).
    apply compare_pos; eauto.
  - apply list_elem_of_lookup in He as (i & He). rewrite lookup_drop in He.
    destruct st; [done | | ].
    + destruct Hstop as (e0 & He0 & Hc0).
      assert (lt k (key e0)) by (apply compare_neg; eauto).
      destruct i as [| i].
      * rewrite Nat.add_0_r in He. congruence.
      * eapply lt_trans; [exact Hlaw | eassumption |].
        eapply (entries_lookup_lt es m' (m' + S i)); eauto. lia.
    + subst m'. apply lookup_lt_Some in He. lia.
Qed.

(** The new entry goes where the loop stops: the bucket stays
    sorted. *)
Lemma insert_sorted (es : list (hash_entry K V)) m st v :
  StronglySorted lt (key <$> es) -> Forall dom (key <$> es) ->
  scan c es O = (m, st) -> st <> Equal ->
  StronglySorted lt
    (key <$> (take m es ++ {| key := k; value := v |} :: drop m es)).
Proof.
  intros Hs Hd Hscan Hst.
  destruct (scan_bounds es m st Hs Hd Hscan Hst) as [Hbefore Hafter].
  rewrite Forall_forall in Hbefore.
  rewrite <- (take_drop m es) in Hs. rewrite fmap_app in Hs.
  apply StronglySorted_app in Hs as (Hcross & Hs1 & Hs2).
  rewrite fmap_app, fmap_cons. simpl.
  apply StronglySorted_app. split; [| split; [done |]].
  - intros x1 x2 H1 [-> | H2]%elem_of_cons; auto.
  - constructor; auto.
Qed.

(** The loop stops without [Equal] only when the key is not in the
    bucket. *)
Lemma scan_absent (es : list (hash_entry K V)) m st :
  StronglySorted lt (key <$> es) -> Forall dom (key <$> es) ->
  scan c es O = (m, st) -> st <> Equal ->
  forall e, e ∈ es -> key e <> k.
Proof.
  intros Hs Hd Hscan Hst e He Hke.
  destruct (scan_bounds es m st Hs Hd Hscan Hst) as [Hbefore Hafter].
  rewrite Forall_forall in Hbefore, Hafter.
  rewrite <- (take_drop m es) in He.
  apply elem_of_app in He as [He | He];
    apply (list_elem_of_fmap_2 key) in He; rewrite Hke in He.
  - apply (lt_irrefl _ _ _ _ Hlaw k). auto.
  - apply (lt_irrefl _ _ _ _ Hlaw k). auto.
Qed.

(** A sorted bucket without one of its entries: it stays sorted, and
    the key of the entry is gone. *)
Lemma delete_sorted (es : list (hash_entry K V)) i e :
  StronglySorted lt (key <$> es) -> es !! i = Some e ->
  StronglySorted lt (key <$> (take i es ++ drop (S i) es)) /\
  forall x, x ∈ take i es ++ drop (S i) es -> key x <> key e.
Proof.
  intros Hs He.
  rewrite <- (take_drop_middle es i e He) in Hs.
  rewrite fmap_app, fmap_cons in Hs.
  apply StronglySorted_app in Hs as (Hcross & Hs1 & Hs2).
  apply StronglySorted_inv in Hs2 as [Hs2 Hafter].
  rewrite Forall_forall in Hafter.
  split.
  - rewrite fmap_app. apply StronglySorted_app. split; [| done].
    intros x1 x2 H1 H2. apply Hcross; [done |]. now apply list_elem_of_further.
  - intros x [Hx | Hx]%elem_of_app Hke; apply (list_elem_of_fmap_2 key) in Hx;
      rewrite Hke in Hx; apply (lt_irrefl _ _ _ _ Hlaw (key e)).
    + apply Hcross; [done |]. apply list_elem_of_here.
    + auto.
Qed.

(** The binary search of [hash_find_entry] on a sorted bucket. *)
Lemma bsearch_spec (es : list (hash_entry K V)) :
  StronglySorted lt (key <$> es) -> Forall dom (key <$> es) ->
  forall fuel lo hi,
    0 <= lo <= hi -> hi <= Z.of_nat (length es) ->
    (Z.to_nat (hi - lo) < fuel)%nat ->
    (forall i e, (Z.of_nat i < lo) -> es !! i = Some e -> lt (key e) k) ->
    (forall i e, (hi <= Z.of_nat i) -> es !! i = Some e -> lt k (key e)) ->
    match bsearch fuel c es lo hi with
    | Some i => exists e, es !! i = Some e /\ key e = k
    | None => forall e, e ∈ es -> key e <> k
    end.
Proof.
  intros Hs Hd.
  assert (Hdom : forall i e, es !! i = Some e -> dom (key e)).
  { intros i e He. rewrite Forall_forall in Hd. apply Hd.
    apply list_elem_of_fmap. exists e. split; [done |].
    eapply list_elem_of_lookup_2; eauto. }
  induction fuel as [| fuel IH]; intros lo hi Hlo Hhi Hfuel Hbelow Habove;
    [lia |].
  simpl. destruct (Z.ltb_spec lo hi) as [L | L].
  - pose proof (Z.div_le_lower_bound (lo + hi) 2 lo ltac:(lia) ltac:(lia)).
    pose proof (Z.div_lt_upper_bound (lo + hi) 2 hi ltac:(lia) ltac:(lia)).
    set (idx := (lo + hi) / 2) in *.
    destruct (es !! Z.to_nat idx) as [ptr |] eqn:Hptr;
      [| apply lookup_ge_None in Hptr; lia].
    destruct (Z.eqb_spec (c (key ptr)) 0) as [E | E].
    { exists ptr. split; [done |]. symmetry. apply compare_zero; eauto. }
    destruct (Z.ltb_spec 0 (c (key ptr))) as [P | P].
    + apply IH; try lia; [| done].
      intros i e Hi He.
      assert (lt (key ptr) k) by (apply compare_pos; eauto).
      destruct (decide (i = Z.to_nat idx)) as [-> | Hne]; [congruence |].
      eapply lt_trans; [exact Hlaw | | eassumption].
      eapply (entries_lookup_lt es i (Z.to_nat idx)); eauto. lia.
    + apply IH; try lia; [done |].
      intros i e Hi He.
      assert (lt k (key ptr)) by (apply compare_neg; eauto; lia).
      destruct (decide (i = Z.to_nat idx)) as [-> | Hne]; [congruence |].
      eapply lt_trans; [exact Hlaw | eassumption |].
      eapply (entries_lookup_lt es (Z.to_nat idx) i); eauto. lia.
  - intros e (i & He)%list_elem_of_lookup Hke.
    destruct (Z.lt_ge_cases (Z.of_nat i) lo) as [B | B].
    + pose proof (Hbelow i e B He) as H. rewrite Hke in H.
      eapply lt_irrefl; eauto.
    + pose proof (Habove i e ltac:(lia) He) as H. rewrite Hke in H.
      eapply lt_irrefl; eauto.
Qed.
End Bucket.

(** *** The table, under a lawful comparator *)

Section Table.
Context {K V : Type}.
Variables (lt : K -> K -> Prop) (dom : K -> Prop).
Implicit Types (h : hash K V) (b : hash_bucket K V) (k : K) (v : V).

Lemma home_range h k : table_ok lt dom h -> 0 <= home h k < n_buckets h.
Proof. intros [? _ _ _ _]. unfold home. apply Z.mod_pos_bound. lia. Qed.

Lemma home_bucket h k :
  table_ok lt dom h -> exists b, buckets h !! Z.to_nat (home h k) = Some b.
Proof.
  intros Hok. pose proof (home_range h k Hok).
  apply lookup_lt_is_Some. rewrite (ok_length _ _ _ Hok). lia.
Qed.

Lemma bucket_pos_home h k :
  table_ok lt dom h -> bucket_pos h k = ret (home h k).
Proof.
  intros Hok. unfold bucket_pos.
  destruct (Z.eqb_spec (n_buckets h) 0) as [E | _]; [| done].
  pose proof (ok_n_buckets _ _ _ Hok). lia.
Qed.

Lemma bucket_dom h i b :
  table_ok lt dom h -> buckets h !! i = Some b -> Forall dom (keys b).
Proof.
  intros Hok Hb. apply Forall_forall. intros k Hk.
  now apply (ok_home _ _ _ Hok i b k).
Qed.

Lemma bucket_sorted h i b :
  table_ok lt dom h -> buckets h !! i = Some b -> StronglySorted lt (keys b).
Proof.
  intros Hok Hb. apply (ok_sorted _ _ _ Hok). eapply list_elem_of_lookup_2; eauto.
Qed.

(** A pair of the table is in the bucket of its key. *)
Lemma present_home h k v b :
  table_ok lt dom h -> buckets h !! Z.to_nat (home h k) = Some b ->
  present h k v <-> {| key := k; value := v |} ∈ entries b.
Proof.
  intros Hok Hb. split.
  - intros (b' & (i & Hi)%list_elem_of_lookup & He).
    assert (Hk : k ∈ keys b').
    { apply list_elem_of_fmap. eexists. split; [| exact He]. done. }
    destruct (ok_home _ _ _ Hok i b' k Hi Hk) as [_ Hhome].
    rewrite Hhome, Nat2Z.id in Hb. congruence.
  - intros He. exists b. split; [| done]. eapply list_elem_of_lookup_2; eauto.
Qed.

(** The pairs of a table after one bucket is replaced. *)
Lemma present_store h pos b' c k v :
  (pos < length (buckets h))%nat ->
  present (set_buckets (<[pos := b']> (buckets h)) c h) k v <->
  {| key := k; value := v |} ∈ entries b' \/
  exists j b0, j <> pos /\ buckets h !! j = Some b0 /\
    {| key := k; value := v |} ∈ entries b0.
Proof.
  intros Hpos. unfold present. simpl. split.
  - intros (b & (j & Hj)%list_elem_of_lookup & He).
    apply list_lookup_insert_Some in Hj as [(-> & -> & _) | (Hne & Hj)]; [by left |].
    right. exists j, b. auto.
  - intros [He | (j & b0 & Hne & Hj & He)].
    + exists b'. split; [| done]. eapply list_elem_of_lookup_2.
      now apply list_lookup_insert_eq.
    + exists b0. split; [| done]. eapply list_elem_of_lookup_2.
      apply list_lookup_insert_Some. right. eauto.
Qed.

Lemma present_split h pos b k v :
  buckets h !! pos = Some b ->
  present h k v <->
  {| key := k; value := v |} ∈ entries b \/
  exists j b0, j <> pos /\ buckets h !! j = Some b0 /\
    {| key := k; value := v |} ∈ entries b0.
Proof.
  intros Hb. unfold present. split.
  - intros (b1 & (j & Hj)%list_elem_of_lookup & He).
    destruct (decide (j = pos)) as [-> | Hne].
    + left. congruence.
    + right. exists j, b1. auto.
  - intros [He | (j & b0 & Hne & Hj & He)].
    + exists b. split; [| done]. eapply list_elem_of_lookup_2; eauto.
    + exists b0. split; [| done]. eapply list_elem_of_lookup_2; eauto.
Qed.

(** Replacing a bucket by a sorted bucket of keys that belong there
    keeps the table well formed. *)
Lemma table_ok_store h pos b' c :
  table_ok lt dom h -> (pos < length (buckets h))%nat ->
  StronglySorted lt (keys b') ->
  (forall k, k ∈ keys b' -> dom k /\ home h k = Z.of_nat pos) ->
  table_ok lt dom (set_buckets (<[pos := b']> (buckets h)) c h).
Proof.
  intros Hok Hpos Hs Hk. constructor; simpl.
  - apply Hok.
  - apply Hok.
  - rewrite length_insert. apply Hok.
  - intros b (j & Hj)%list_elem_of_lookup.
    apply list_lookup_insert_Some in Hj as [(-> & -> & _) | (Hne & Hj)]; [done |].
    eapply bucket_sorted; eauto.
  - intros j b k Hj Hin.
    apply list_lookup_insert_Some in Hj as [(-> & -> & _) | (Hne & Hj)].
    + now apply Hk.
    + apply (ok_home _ _ _ Hok j b k Hj Hin).
Qed.

(** A table holds one value for a key. *)
Lemma present_unique h k v v' :
  lawful lt dom (key_compare h) (key_length h) -> table_ok lt dom h ->
  present h k v -> present h k v' -> v = v'.
Proof.
  intros Hlaw Hok H1 H2.
  destruct (home_bucket h k Hok) as [b Hb].
  apply (present_home h k v b Hok Hb) in H1.
  apply (present_home h k v' b Hok Hb) in H2.
  apply list_elem_of_lookup in H1 as (i & Hi), H2 as (j & Hj).
  pose proof (entries_key_inj lt dom _ _ Hlaw (entries b) i j _ _
                (bucket_sorted _ _ _ Hok Hb) Hi Hj eq_refl) as ->.
  congruence.
Qed.

Lemma grow_entries h realloc_ok b b1 :
  grow h realloc_ok b = Some b1 -> entries b1 = entries b.
Proof.
  unfold grow. destruct (_ >=? _); [destruct realloc_ok |]; intros [= <-]; done.
Qed.

Lemma grow_None h realloc_ok b :
  grow h realloc_ok b = None -> realloc_ok = false.
Proof.
  unfold grow. destruct (_ >=? _); [destruct realloc_ok |]; done.
Qed.

Lemma elem_of_insert_at {A} (x y : A) (m : nat) (l : list A) :
  x ∈ take m l ++ y :: drop m l <-> x = y \/ x ∈ l.
Proof.
  rewrite <- (take_drop m l) at 3.
  rewrite !elem_of_app, elem_of_cons. tauto.
Qed.

Lemma elem_of_delete_at {A} (x e : A) (i : nat) (l : list A) :
  l !! i = Some e ->
  x ∈ l <-> x = e \/ x ∈ take i l ++ drop (S i) l.
Proof.
  intros H. rewrite <- (take_drop_middle l i e H) at 1.
  rewrite !elem_of_app, elem_of_cons. tauto.
Qed.

(** The search of [hash_find_entry] in the bucket of a key. *)
Lemma hash_find_entry_spec h k b :
  lawful lt dom (key_compare h) (key_length h) -> table_ok lt dom h -> dom k ->
  buckets h !! Z.to_nat (home h k) = Some b ->
  (exists i e, entries b !! i = Some e /\ key e = k /\
     hash_find_entry h k (wrap_uint (hash_value h k (wrap_uint (key_length h k))))
       (wrap_uint (key_length h k)) = ret (Some (home h k, i))) \/
  ((forall e, e ∈ entries b -> key e <> k) /\
     hash_find_entry h k (wrap_uint (hash_value h k (wrap_uint (key_length h k))))
       (wrap_uint (key_length h k)) = ret None).
Proof.
  intros Hlaw Hok Hk Hb. unfold hash_find_entry.
  pose proof (ok_n_buckets _ _ _ Hok) as Hn.
  pose proof (home_range h k Hok) as Hr.
  destruct (Z.eqb_spec (n_buckets h) 0) as [E | _]; [lia |].
  fold (home h k). rewrite (index_ret _ _ b) by (lia || done).
  rewrite bind_ret.
  pose proof (bsearch_spec lt dom _ _ Hlaw k Hk (entries b)
                (bucket_sorted _ _ _ Hok Hb) (bucket_dom _ _ _ Hok Hb)
                (S (length (entries b))) 0 (used b)) as Hsearch.
  unfold used in *.
  specialize (Hsearch ltac:(lia) ltac:(lia) ltac:(lia)).
  destruct (bsearch _ _ _ _ _) as [i |].
  - destruct Hsearch as (e & He & Hke).
    { intros; lia. }
    { intros i0 e0 Hi0 He0. apply lookup_lt_Some in He0. lia. }
    left. exists i, e. auto.
  - right. split; [| done]. apply Hsearch.
    { intros; lia. }
    { intros i0 e0 Hi0 He0. apply lookup_lt_Some in He0. lia. }
Qed.

(** [hash_find] returns the value stored for a key the table holds,
    and nothing for a key it does not hold. *)
Lemma hash_find_present h k v :
  lawful lt dom (key_compare h) (key_length h) -> table_ok lt dom h -> dom k ->
  present h k v -> hash_find h k = ret (Some v).
Proof.
  intros Hlaw Hok Hk Hp.
  destruct (home_bucket h k Hok) as [b Hb].
  pose proof (home_range h k Hok) as Hr.
  apply (present_home h k v b Hok Hb) in Hp.
  unfold hash_find.
  destruct (hash_find_entry_spec h k b Hlaw Hok Hk Hb)
    as [(i & e & He & Hke & ->) | (Hnone & ->)]; rewrite bind_ret.
  - rewrite (index_ret _ _ b) by (lia || done). rewrite bind_ret.
    rewrite (index_lookup _ _ e) by done. rewrite bind_ret.
    apply list_elem_of_lookup in Hp as (j & Hj).
    pose proof (entries_key_inj lt dom _ _ Hlaw (entries b) i j _ _
                  (bucket_sorted _ _ _ Hok Hb) He Hj Hke) as ->.
    replace e with {| key := k; value := v |} by congruence. done.
  - exfalso. now apply (Hnone _ Hp).
Qed.

Lemma hash_find_absent h k :
  lawful lt dom (key_compare h) (key_length h) -> table_ok lt dom h -> dom k ->
  (forall v, ~ present h k v) -> hash_find h k = ret None.
Proof.
  intros Hlaw Hok Hk Hp.
  destruct (home_bucket h k Hok) as [b Hb].
  pose proof (home_range h k Hok) as Hr.
  unfold hash_find.
  destruct (hash_find_entry_spec h k b Hlaw Hok Hk Hb)
    as [(i & e & He & Hke & ->) | (Hnone & ->)]; rewrite bind_ret; [| done].
  exfalso. apply (Hp (value e)). apply (present_home h k _ b Hok Hb).
  apply list_elem_of_lookup. exists i. rewrite He. destruct e; simpl in *.
  now subst.
Qed.

(** The table after the bucket of [k] takes a new entry at [i]. *)
Lemma table_insert h k v b i t c :
  table_ok lt dom h -> dom k ->
  buckets h !! Z.to_nat (home h k) = Some b ->
  StronglySorted lt
    (key <$> (take i (entries b) ++ {| key := k; value := v |}
                :: drop i (entries b))) ->
  let b' := {| entries := take i (entries b) ++ {| key := k; value := v |}
                            :: drop i (entries b);
               total := t |} in
  let h' := set_buckets (<[Z.to_nat (home h k) := b']> (buckets h)) c h in
  table_ok lt dom h' /\ present h' k v /\
  forall k' v', k' <> k -> present h' k' v' <-> present h k' v'.
Proof.
  intros Hok Hk Hb Hs b' h'.
  pose proof (home_range h k Hok) as Hr.
  pose proof (lookup_lt_Some _ _ _ Hb) as Hpos.
  split; [| split].
  - apply table_ok_store; auto.
    intros x (e & -> & [-> | He]%elem_of_insert_at)%list_elem_of_fmap.
    + simpl. split; [done | lia].
    + apply (ok_home _ _ _ Hok _ b (key e) Hb), list_elem_of_fmap. eauto.
  - apply present_store; [done |]. left. apply elem_of_insert_at. auto.
  - intros k' v' Hne. unfold h'. rewrite present_store by done.
    rewrite (present_split h _ b k' v' Hb). simpl.
    rewrite elem_of_insert_at.
    split; (intros [H | H]; [| by right]).
    + destruct H as [H | H]; [congruence | by left].
    + left. by right.
Qed.

(** The table after the entry at [i] of the bucket of [k], whose key
    is [k], takes a new value. *)
Lemma table_replace h k v b i e t c :
  table_ok lt dom h ->
  buckets h !! Z.to_nat (home h k) = Some b ->
  entries b !! i = Some e -> key e = k ->
  let b' := {| entries := <[i := {| key := key e; value := v |}]> (entries b);
               total := t |} in
  let h' := set_buckets (<[Z.to_nat (home h k) := b']> (buckets h)) c h in
  table_ok lt dom h' /\ present h' k v /\
  forall k' v', k' <> k -> present h' k' v' <-> present h k' v'.
Proof.
  intros Hok Hb He Hke b' h'.
  pose proof (home_range h k Hok) as Hr.
  pose proof (lookup_lt_Some _ _ _ Hb) as Hpos.
  assert (Hkeys : keys b' = keys b).
  { unfold keys, b'. simpl. rewrite list_fmap_insert. simpl.
    apply list_insert_id. now rewrite list_lookup_fmap, He. }
  assert (Hes : forall x, x ∈ entries b' <->
            x = {| key := k; value := v |} \/
            x ∈ take i (entries b) ++ drop (S i) (entries b)).
  { intros x. unfold b'. simpl. rewrite Hke.
    rewrite insert_take_drop by (eapply lookup_lt_Some; eauto).
    rewrite !elem_of_app, elem_of_cons. tauto. }
  split; [| split].
  - apply table_ok_store; auto; rewrite Hkeys.
    + eapply bucket_sorted; eauto.
    + intros x Hx. apply (ok_home _ _ _ Hok _ b x Hb Hx).
  - apply present_store; [done |]. left. apply Hes. auto.
  - intros k' v' Hne. unfold h'. rewrite present_store by done.
    rewrite (present_split h _ b k' v' Hb).
    rewrite Hes, (elem_of_delete_at _ e i (entries b) He).
    split; (intros [[E | H] | H]; [| by left; right | by right]).
    + congruence.
    + destruct e; simpl in *. congruence.
Qed.

(** [hash_add] returns, keeps the table well formed, and stores the
    pair: the key is bound to the new value, the other keys are as
    they were.  It leaves the table alone when the bucket cannot
    grow. *)
Lemma hash_add_spec realloc_ok h k v :
  lawful lt dom (key_compare h) (key_length h) -> table_ok lt dom h -> dom k ->
  exists tr r h', hash_add realloc_ok h k v = (tr, Ok (r, h')) /\
    table_ok lt dom h' /\
    lawful lt dom (key_compare h') (key_length h') /\
    ((r = 0 /\ present h' k v /\
      forall k' v', k' <> k -> present h' k' v' <-> present h k' v') \/
     (r = - ENOMEM /\ realloc_ok = false /\ h' = h)).
Proof.
  intros Hlaw Hok Hk.
  destruct (home_bucket h k Hok) as [b Hb].
  pose proof (home_range h k Hok) as Hr.
  pose proof (lookup_lt_Some _ _ _ Hb) as Hpos.
  pose proof (bucket_sorted _ _ _ Hok Hb) as Hs.
  pose proof (bucket_dom _ _ _ Hok Hb) as Hd.
  unfold hash_add. rewrite (bucket_pos_home h k Hok), bind_ret.
  rewrite (index_ret _ _ b) by (lia || done). rewrite bind_ret.
  destruct (grow h realloc_ok b) as [b1 |] eqn:Hg.
  2:{ apply grow_None in Hg. exists [], (- ENOMEM), h. auto 10. }
  apply grow_entries in Hg. rewrite Hg.
  destruct (scan _ (entries b) 0) as [i st] eqn:Hscan.
  assert (st = Equal \/ st <> Equal) as [-> | Hst]
    by (destruct st; [left | right | right]; done).
  - apply (scan_spec (key_compare h) (key_length h) k) in Hscan as (m & -> & Hm & _ & e & He & Hc). simpl in *.
    assert (Hke : key e = k).
    { symmetry. eapply (compare_zero lt dom _ _ Hlaw k Hk); [| exact Hc].
      rewrite Forall_forall in Hd. apply Hd, list_elem_of_fmap.
      exists e. split; [done |]. eapply list_elem_of_lookup_2; eauto. }
    rewrite (index_lookup _ _ e) by done. rewrite bind_ret.
    destruct (table_replace h k v b m e (total b1) (count h) Hok Hb He Hke)
      as (Hok' & Hp & Hrest).
    exists (if free_value h then [Cfree_value (value e)] else []).
    eexists 0, _. split; [| split; [exact Hok' | split; [done |]]].
    + rewrite (store_ret _ _ _) by (lia || done).
      destruct (free_value h); unfold bind, emit, ret; reflexivity.
    + left. auto.
  - pose proof (insert_sorted lt dom _ _ Hlaw k Hk (entries b) i st v
                  Hs Hd Hscan Hst) as Hs'.
    destruct (table_insert h k v b i (total b1) (wrap_uint (count h + 1))
                Hok Hk Hb Hs') as (Hok' & Hp & Hrest).
    eexists [], 0, _. split; [| split; [exact Hok' | split; [done |]]].
    + destruct st; [done | |]; rewrite (store_ret _ _ _) by (lia || done);
        now rewrite bind_ret.
    + left. auto.
Qed.
(** The table after the bucket of [k] is put back with the entries it
    had. *)
Lemma table_touch h pos b b' c :
  table_ok lt dom h -> buckets h !! pos = Some b -> entries b' = entries b ->
  let h' := set_buckets (<[pos := b']> (buckets h)) c h in
  table_ok lt dom h' /\ forall k v, present h' k v <-> present h k v.
Proof.
  intros Hok Hb He h'.
  pose proof (lookup_lt_Some _ _ _ Hb) as Hpos.
  assert (Hkeys : keys b' = keys b) by (unfold keys; now rewrite He).
  split.
  - apply table_ok_store; auto; rewrite Hkeys.
    + eapply bucket_sorted; eauto.
    + intros x Hx. apply (ok_home _ _ _ Hok _ b x Hb Hx).
  - intros k v. unfold h'. rewrite present_store by done.
    rewrite (present_split h _ b k v Hb). now rewrite He.
Qed.

(** The table after the entry at [i] of the bucket of [k], whose key
    is [k], is taken out. *)
Lemma table_delete h k b i e t c :
  lawful lt dom (key_compare h) (key_length h) -> table_ok lt dom h ->
  buckets h !! Z.to_nat (home h k) = Some b ->
  entries b !! i = Some e -> key e = k ->
  let b' := {| entries := take i (entries b) ++ drop (S i) (entries b);
               total := t |} in
  let h' := set_buckets (<[Z.to_nat (home h k) := b']> (buckets h)) c h in
  table_ok lt dom h' /\ (forall v, ~ present h' k v) /\
  forall k' v', k' <> k -> present h' k' v' <-> present h k' v'.
Proof.
  intros Hlaw Hok Hb He Hke b' h'.
  pose proof (home_range h k Hok) as Hr.
  pose proof (lookup_lt_Some _ _ _ Hb) as Hpos.
  destruct (delete_sorted lt dom _ _ Hlaw (entries b) i e
              (bucket_sorted _ _ _ Hok Hb) He) as [Hs Hgone].
  assert (Hsub : forall x, x ∈ entries b' -> x ∈ entries b).
  { intros x Hx. apply (elem_of_delete_at _ e i _ He). by right. }
  assert (Hok' : table_ok lt dom h').
  { apply table_ok_store; auto.
    intros x (y & -> & Hy)%list_elem_of_fmap.
    apply (ok_home _ _ _ Hok _ b (key y) Hb), list_elem_of_fmap. eauto. }
  split; [done | split].
  - intros v Hp.
    assert (Hb' : buckets h' !! Z.to_nat (home h' k) = Some b')
      by (apply list_lookup_insert_eq; done).
    apply (present_home h' k v b' Hok' Hb') in Hp.
    apply (Hgone _ Hp). simpl. congruence.
  - intros k' v' Hne. unfold h'. rewrite present_store by done.
    rewrite (present_split h _ b k' v' Hb).
    rewrite (elem_of_delete_at _ e i (entries b) He).
    split; [intros [H | H]; [by left; right | by right] |].
    intros [[E | H] | H]; [| by left | by right].
    destruct e; simpl in *. congruence.
Qed.

(** [hash_add_unique] returns, keeps the table well formed, and stores
    the pair when the table does not hold the key; it fails with
    [EEXIST], and changes no pair, when the table holds it. *)
Lemma hash_add_unique_spec realloc_ok h k v :
  lawful lt dom (key_compare h) (key_length h) -> table_ok lt dom h -> dom k ->
  exists r h', hash_add_unique realloc_ok h k v = ([], Ok (r, h')) /\
    table_ok lt dom h' /\
    lawful lt dom (key_compare h') (key_length h') /\
    ((r = 0 /\ (forall v0, ~ present h k v0) /\ present h' k v /\
      forall k' v', k' <> k -> present h' k' v' <-> present h k' v') \/
     (r = - EEXIST /\ (exists v0, present h k v0) /\
      forall k' v', present h' k' v' <-> present h k' v') \/
     (r = - ENOMEM /\ realloc_ok = false /\ h' = h)).
Proof.
  intros Hlaw Hok Hk.
  destruct (home_bucket h k Hok) as [b Hb].
  pose proof (home_range h k Hok) as Hr.
  pose proof (lookup_lt_Some _ _ _ Hb) as Hpos.
  pose proof (bucket_sorted _ _ _ Hok Hb) as Hs.
  pose proof (bucket_dom _ _ _ Hok Hb) as Hd.
  unfold hash_add_unique. rewrite (bucket_pos_home h k Hok), bind_ret.
  rewrite (index_ret _ _ b) by (lia || done). rewrite bind_ret.
  destruct (grow h realloc_ok b) as [b1 |] eqn:Hg.
  2:{ apply grow_None in Hg. exists (- ENOMEM), h. auto 10. }
  apply grow_entries in Hg. rewrite Hg.
  destruct (scan _ (entries b) 0) as [i st] eqn:Hscan.
  assert (st = Equal \/ st <> Equal) as [-> | Hst]
    by (destruct st; [left | right | right]; done).
  - apply (scan_spec (key_compare h) (key_length h) k) in Hscan
      as (m & -> & Hm & _ & e & He & Hc). simpl in *.
    assert (Hke : key e = k).
    { symmetry. eapply (compare_zero lt dom _ _ Hlaw k Hk); [| exact Hc].
      rewrite Forall_forall in Hd. apply Hd, list_elem_of_fmap.
      exists e. split; [done |]. eapply list_elem_of_lookup_2; eauto. }
    destruct (table_touch h _ b b1 (count h) Hok Hb Hg) as (Hok' & Hsame).
    eexists (- EEXIST), _. split; [| split; [exact Hok' | split; [done |]]].
    + rewrite (store_ret _ _ _) by (lia || done). now rewrite bind_ret.
    + right. left. split; [done |]. split; [| done].
      exists (value e). apply (present_home h k _ b Hok Hb).
      apply list_elem_of_lookup. exists m. rewrite He.
      destruct e; simpl in *. now subst.
  - pose proof (insert_sorted lt dom _ _ Hlaw k Hk (entries b) i st v
                  Hs Hd Hscan Hst) as Hs'.
    pose proof (scan_absent lt dom _ _ Hlaw k Hk (entries b) i st
                  Hs Hd Hscan Hst) as Habs.
    destruct (table_insert h k v b i (total b1) (wrap_uint (count h + 1))
                Hok Hk Hb Hs') as (Hok' & Hp & Hrest).
    eexists 0, _. split; [| split; [exact Hok' | split; [done |]]].
    + destruct st; [done | |]; rewrite (store_ret _ _ _) by (lia || done);
        now rewrite bind_ret.
    + left. split; [done |]. split; [| auto].
      intros v0 Hp0. apply (present_home h k v0 b Hok Hb) in Hp0.
      now apply (Habs _ Hp0).
Qed.

(** [hash_del] returns, keeps the table well formed, and takes the key
    out when the table holds it; it fails with [ENOENT], and leaves the
    table alone, when the table does not hold it. *)
Lemma hash_del_spec realloc_ok h k :
  lawful lt dom (key_compare h) (key_length h) -> table_ok lt dom h -> dom k ->
  exists tr r h', hash_del realloc_ok h k = (tr, Ok (r, h')) /\
    table_ok lt dom h' /\
    lawful lt dom (key_compare h') (key_length h') /\
    ((r = 0 /\ (exists v0, present h k v0) /\ (forall v, ~ present h' k v) /\
      forall k' v', k' <> k -> present h' k' v' <-> present h k' v') \/
     (r = - ENOENT /\ (forall v0, ~ present h k v0) /\ h' = h)).
Proof.
  intros Hlaw Hok Hk.
  destruct (home_bucket h k Hok) as [b Hb].
  pose proof (home_range h k Hok) as Hr.
  pose proof (lookup_lt_Some _ _ _ Hb) as Hpos.
  pose proof (ok_step _ _ _ Hok) as Hstep.
  unfold hash_del.
  destruct (hash_find_entry_spec h k b Hlaw Hok Hk Hb)
    as [(i & e & He & Hke & ->) | (Hnone & ->)]; rewrite bind_ret.
  - rewrite (index_ret _ _ b) by (lia || done). rewrite bind_ret.
    rewrite (index_lookup _ _ e) by done. rewrite bind_ret.
    destruct (Z.eqb_spec (step h) 0) as [E | _]; [lia |].
    set (t := if (_ <? _) && realloc_ok then _ else _).
    destruct (table_delete h k b i e t (wrap_uint (count h - 1))
                Hlaw Hok Hb He Hke) as (Hok' & Hgone & Hrest).
    exists ((if free_value h then [Cfree_value (value e)] else []) ++
            (if free_key h then [Cfree_key (key e)] else [])).
    eexists 0, _. split; [| split; [exact Hok' | split; [done |]]].
    + rewrite (store_ret _ _ _) by (lia || done).
      destruct (free_value h), (free_key h); unfold bind, emit, ret; reflexivity.
    + left. split; [done |]. split; [| auto].
      exists (value e). apply (present_home h k _ b Hok Hb).
      apply list_elem_of_lookup. exists i. rewrite He.
      destruct e; simpl in *. now subst.
  - exists [], (- ENOENT), h. split; [done |]. split; [done |]. split; [done |].
    right. split; [done |]. split; [| done].
    intros v0 Hp0. apply (present_home h k v0 b Hok Hb) in Hp0.
    now apply (Hnone _ Hp0).
Qed.
End Table.

(** *** Sequences of calls *)

Section Calls.
Context {K V : Type}.
Variables (lt : K -> K -> Prop) (dom : K -> Prop).

(** A table as [hash_internal_new] returns it. *)
Lemma hash_internal_new_ok n hv kc ec kl fk fv :
  0 < n -> table_ok lt dom (@hash_internal_new K V n hv kc ec kl fk fv).
Proof.
  intros Hn. constructor; simpl.
  - done.
  - pose proof (Z.div_pos n 32 ltac:(lia) ltac:(lia)).
    destruct (Z.eqb_spec (n / 32) 0); [lia |].
    destruct (Z.ltb_spec 64 (n / 32)); lia.
  - apply length_replicate.
  - intros b [-> _]%elem_of_replicate. constructor.
  - intros i b k [-> _]%lookup_replicate Hk. simpl in Hk.
    now apply elem_of_nil in Hk.
Qed.

(** Every call returns and keeps the table well formed. *)
Lemma hash_call_ok o (h : hash K V) :
  lawful lt dom (key_compare h) (key_length h) -> table_ok lt dom h ->
  dom (op_key o) ->
  exists tr r h', hash_call o h = (tr, Ok (r, h')) /\
    table_ok lt dom h' /\ lawful lt dom (key_compare h') (key_length h').
Proof.
  intros Hlaw Hok Hk. destruct o as [ok k v | ok k v | ok k]; simpl in *.
  - destruct (hash_add_spec lt dom ok h k v Hlaw Hok Hk)
      as (tr & r & h' & H & ? & ? & _). eauto 10.
  - destruct (hash_add_unique_spec lt dom ok h k v Hlaw Hok Hk)
      as (r & h' & H & ? & ? & _). eauto 10.
  - destruct (hash_del_spec lt dom ok h k Hlaw Hok Hk)
      as (tr & r & h' & H & ? & ? & _). eauto 10.
Qed.

(** So does every sequence of calls. *)
Lemma hash_calls_ok os : forall h : hash K V,
  lawful lt dom (key_compare h) (key_length h) -> table_ok lt dom h ->
  Forall (fun o => dom (op_key o)) os ->
  exists tr h', hash_calls os h = (tr, Ok h') /\
    table_ok lt dom h' /\ lawful lt dom (key_compare h') (key_length h').
Proof.
  induction os as [| o os IH]; intros h Hlaw Hok Hos; simpl.
  - exists [], h. auto.
  - apply Forall_cons in Hos as [Ho Hos].
    destruct (hash_call_ok o h Hlaw Hok Ho) as (tr & r & h1 & -> & Hok1 & Hlaw1).
    destruct (IH h1 Hlaw1 Hok1 Hos) as (tr' & h' & H & Hok' & Hlaw').
    exists (tr ++ tr'), h'. split; [| done].
    unfold bind. simpl. now rewrite H.
Qed.
End Calls.

(** *** Integer tables *)

Lemma to_int_small z : INT_MIN <= z <= INT_MAX -> to_int z = z.
Proof.
  unfold to_int, INT_MIN, INT_MAX. intros H.
  rewrite Z.mod_small by lia. lia.
Qed.

(** On keys that are non-negative [int]s the comparator of the
    integer tables is lawful for the order of the integers. *)
Lemma hash_int_lawful : lawful Z.lt int_key hash_int_key_cmp hash_int_length.
Proof.
  constructor.
  - intros k. lia.
  - intros a b c. lia.
  - intros k k' [? ?] [? ?]. unfold hash_int_key_cmp. cbv zeta.
    rewrite (to_int_small k), (to_int_small k'), to_int_small
      by (unfold INT_MIN, INT_MAX in *; lia).
    lia.
Qed.

(** An integer table after any sequence of calls on such keys: the
    calls return, the buckets are sorted, and [hash_find] returns the
    value stored for a key, and nothing for a key that is not
    stored. *)
Lemma hash_int_table {V} n fk fv (os : list (hash_op Z V)) :
  0 < n -> Forall (fun o => int_key (op_key o)) os ->
  exists tr h, hash_calls os (hash_int_new n fk fv) = (tr, Ok h) /\
    (forall b, b ∈ buckets h -> StronglySorted Z.lt (keys b)) /\
    (forall k v, int_key k -> present h k v -> hash_find h k = ret (Some v)) /\
    (forall k, int_key k -> (forall v, ~ present h k v) ->
       hash_find h k = ret None).
Proof.
  intros Hn Hos.
  destruct (hash_calls_ok Z.lt int_key os (hash_int_new n fk fv))
    as (tr & h & H & Hok & Hlaw); auto.
  { apply hash_int_lawful. }
  { now apply hash_internal_new_ok. }
  exists tr, h. split; [done |]. split; [apply Hok |]. split.
  - intros k v Hk Hp. now apply (hash_find_present Z.lt int_key).
  - intros k Hk Hp. now apply (hash_find_absent Z.lt int_key).
Qed.

(** *** String tables *)

(** [strncmp] bounded by at most the length of its first argument is
    0 as soon as that argument is a prefix of the second. *)
Lemma strncmp_prefix (s t : string) : forall n,
  (n <= String.length s)%nat -> strncmp s (s ++ t) n = 0.
Proof.
  induction s as [| a s IH]; intros [| n] Hn; simpl in *; try reflexivity.
  - lia.
  - rewrite Z.eqb_refl. apply IH. lia.
Qed.

Lemma append_same_empty (s t : string) : s = (s ++ t)%string -> t = ""%string.
Proof.
  induction s as [| a s IH]; simpl; [congruence |].
  intros [= H]. auto.
Qed.

(** The comparator of the string tables is lawful for no order on a
    set of keys one of which is a proper prefix of another: it returns
    0 on the two. *)
Lemma hash_str_not_lawful lt (dom : string -> Prop) (s t : string) :
  dom s -> dom (s ++ t)%string -> t <> ""%string ->
  ~ lawful lt dom (fun k1 k2 len => strncmp k1 k2 (Z.to_nat len)) strlen.
Proof.
  intros Hs Hst Ht Hlaw.
  assert (Hc : strncmp s (s ++ t) (Z.to_nat (wrap_uint (strlen s))) = 0).
  { apply strncmp_prefix. unfold wrap_uint, strlen.
    pose proof (Z.mod_le (Z.of_nat (String.length s)) (2 ^ 32)
                  ltac:(lia) ltac:(lia)).
    lia. }
  destruct (compare_sign _ _ _ _ Hlaw _ _ Hs Hst) as [[H _] | [[_ H] | [H _]]].
  - lia.
  - now apply append_same_empty in H.
  - lia.
Qed.

(** C10 at the failing input: a string table with one bucket, to
    which [ab] (value 1) and then [abc] (value 2) are added.  Both
    additions succeed and the bucket holds the two entries, which
    compare equal under the key comparator of the table; looking up
    the present key [ab] returns the value of [abc]; looking up the
    absent key [a] returns a value; [hash_add_unique] of the absent
    key [a] fails with [EEXIST]. *)
Theorem C10_prefix_key_finds_other_entry :
  hash_add true Scenario.table0 "ab"%string 1 = ([], Ok (0, Scenario.table1)) /\
  hash_add true Scenario.table1 "abc"%string 2 = ([], Ok (0, Scenario.table2)) /\
  entries <$> buckets Scenario.table2 =
    [[{| key := "ab"%string; value := 1 |};
      {| key := "abc"%string; value := 2 |}]] /\
  key_compare Scenario.table2 "ab"%string "abc"%string
    (key_length Scenario.table2 "ab"%string) = 0 /\
  hash_find Scenario.table2 "ab"%string = ([], Ok (Some 2)) /\
  hash_find Scenario.table2 "a"%string = ([], Ok (Some 2)) /\
  hash_add_unique true Scenario.table2 "a"%string 3
    = ([], Ok (- EEXIST, Scenario.table2)).
Proof. repeat split; vm_compute; reflexivity. Qed.
(** *** What [hash_find] answers after a call *)

Lemma wrap_uint_small z : 0 <= z < 2 ^ 32 -> wrap_uint z = z.
Proof. intros. unfold wrap_uint. now apply Z.mod_small. Qed.

Section Find.
Context {K V : Type}.
Variables (lt : K -> K -> Prop) (dom : K -> Prop).
Implicit Types (h : hash K V) (k : K) (v : V).

(** [hash_find] returns, and what it returns is what the table holds
    for the key. *)
Lemma hash_find_spec h k :
  lawful lt dom (key_compare h) (key_length h) -> table_ok lt dom h -> dom k ->
  exists o, hash_find h k = ret o /\ forall v, o = Some v <-> present h k v.
Proof.
  intros Hlaw Hok Hk.
  destruct (home_bucket lt dom h k Hok) as [b Hb].
  pose proof (home_range lt dom h k Hok) as Hr.
  unfold hash_find.
  destruct (hash_find_entry_spec lt dom h k b Hlaw Hok Hk Hb)
    as [(i & e & He & Hke & ->) | (Hnone & ->)]; rewrite bind_ret.
  - rewrite (index_ret _ _ b) by (lia || done). rewrite bind_ret.
    rewrite (index_lookup _ _ e) by done. rewrite bind_ret.
    exists (Some (value e)). split; [done |].
    assert (Hp : present h k (value e)).
    { apply (present_home lt dom h k _ b Hok Hb).
      apply list_elem_of_lookup. exists i. rewrite He.
      destruct e; simpl in *. now subst. }
    intros v. split.
    + intros [= <-]. done.
    + intros Hv. f_equal. eapply present_unique; eauto.
  - exists None. split; [done |]. intros v. split; [done |].
    intros Hp. apply (present_home lt dom h k v b Hok Hb) in Hp.
    now destruct (Hnone _ Hp).
Qed.

(** Two tables that hold the same for a key answer the same. *)
Lemma hash_find_ext h h' k :
  lawful lt dom (key_compare h) (key_length h) -> table_ok lt dom h ->
  lawful lt dom (key_compare h') (key_length h') -> table_ok lt dom h' ->
  dom k ->
  (forall v, present h' k v <-> present h k v) ->
  hash_find h' k = hash_find h k.
Proof.
  intros Hlaw Hok Hlaw' Hok' Hk Hsame.
  destruct (hash_find_spec h k Hlaw Hok Hk) as (o & -> & Ho).
  destruct (hash_find_spec h' k Hlaw' Hok' Hk) as (o' & -> & Ho').
  f_equal. destruct o' as [v' |], o as [v |]; try done.
  - symmetry. now apply Ho, Hsame, Ho'.
  - exfalso. assert (@None V = Some v') as [=]. now apply Ho, Hsame, Ho'.
  - exfalso. assert (@None V = Some v) as [=]. now apply Ho', Hsame, Ho.
Qed.

(** X1: under a lawful comparator [hash_add] returns.  When it
    returns 0 the table is well formed, [hash_find] of the key returns
    the new value, and [hash_find] of every other key returns what it
    returned before; it fails only when [realloc] fails, and then it
    leaves the table as it was. *)
Theorem X1_hash_add_then_find realloc_ok h k v :
  lawful lt dom (key_compare h) (key_length h) -> table_ok lt dom h -> dom k ->
  exists tr r h', hash_add realloc_ok h k v = (tr, Ok (r, h')) /\
    table_ok lt dom h' /\
    ((r = 0 /\ hash_find h' k = ret (Some v) /\
      forall k', dom k' -> k' <> k -> hash_find h' k' = hash_find h k') \/
     (r = - ENOMEM /\ realloc_ok = false /\ h' = h)).
Proof.
  intros Hlaw Hok Hk.
  destruct (hash_add_spec lt dom realloc_ok h k v Hlaw Hok Hk)
    as (tr & r & h' & H & Hok' & Hlaw' & Hcases).
  exists tr, r, h'. split; [done |]. split; [done |].
  destruct Hcases as [(-> & Hp & Hrest) | ?]; [left | by right].
  split; [done |]. split.
  - now apply (hash_find_present lt dom).
  - intros k' Hk' Hne. apply hash_find_ext; auto.
Qed.

(** X2: under a lawful comparator [hash_add_unique] returns, and
    makes no call-back.  It returns 0 when the table does not hold the
    key, which [hash_find] then finds with the new value; it returns
    [-EEXIST] when the table holds the key, and [hash_find] answers as
    before for every key; it returns [-ENOMEM] only when [realloc]
    fails, leaving the table as it was. *)
Theorem X2_hash_add_unique_refuses_present_key realloc_ok h k v :
  lawful lt dom (key_compare h) (key_length h) -> table_ok lt dom h -> dom k ->
  exists r h', hash_add_unique realloc_ok h k v = ([], Ok (r, h')) /\
    table_ok lt dom h' /\
    ((r = 0 /\ hash_find h k = ret None /\ hash_find h' k = ret (Some v) /\
      forall k', dom k' -> k' <> k -> hash_find h' k' = hash_find h k') \/
     (r = - EEXIST /\ (exists v0, hash_find h k = ret (Some v0)) /\
      forall k', dom k' -> hash_find h' k' = hash_find h k') \/
     (r = - ENOMEM /\ realloc_ok = false /\ h' = h)).
Proof.
  intros Hlaw Hok Hk.
  destruct (hash_add_unique_spec lt dom realloc_ok h k v Hlaw Hok Hk)
    as (r & h' & H & Hok' & Hlaw' & Hcases).
  exists r, h'. split; [done |]. split; [done |].
  destruct Hcases as [(-> & Habs & Hp & Hrest) | [(-> & [v0 Hp0] & Hsame) | ?]].
  - left. split; [done |]. split; [| split].
    + now apply (hash_find_absent lt dom).
    + now apply (hash_find_present lt dom).
    + intros k' Hk' Hne. apply hash_find_ext; auto.
  - right. left. split; [done |]. split.
    + exists v0. now apply (hash_find_present lt dom).
    + intros k' Hk'. apply hash_find_ext; auto.
  - right. by right.
Qed.

(** X3: under a lawful comparator [hash_del] returns.  It returns 0
    when the table holds the key, which [hash_find] then does not find
    any more, while it answers as before for every other key; it
    returns [-ENOENT] when the table does not hold the key, and leaves
    the table as it was. *)
Theorem X3_hash_del_removes_key realloc_ok h k :
  lawful lt dom (key_compare h) (key_length h) -> table_ok lt dom h -> dom k ->
  exists tr r h', hash_del realloc_ok h k = (tr, Ok (r, h')) /\
    table_ok lt dom h' /\
    ((r = 0 /\ (exists v0, hash_find h k = ret (Some v0)) /\
      hash_find h' k = ret None /\
      forall k', dom k' -> k' <> k -> hash_find h' k' = hash_find h k') \/
     (r = - ENOENT /\ hash_find h k = ret None /\ h' = h)).
Proof.
  intros Hlaw Hok Hk.
  destruct (hash_del_spec lt dom realloc_ok h k Hlaw Hok Hk)
    as (tr & r & h' & H & Hok' & Hlaw' & Hcases).
  exists tr, r, h'. split; [done |]. split; [done |].
  destruct Hcases as [(-> & [v0 Hp0] & Hgone & Hrest) | (-> & Habs & ->)].
  - left. split; [done |]. split; [| split].
    + exists v0. now apply (hash_find_present lt dom).
    + now apply (hash_find_absent lt dom).
    + intros k' Hk' Hne. apply hash_find_ext; auto.
  - right. split; [done |]. split; [| done].
    now apply (hash_find_absent lt dom).
Qed.

(** A table made by [hash_internal_new] with a lawful comparator,
    after any sequence of calls: the calls return, the buckets are
    sorted, and [hash_find] returns the value stored for a key, and
    nothing for a key that is not stored. *)
Lemma hash_calls_table n hv kc ec kl fk fv (os : list (hash_op K V)) :
  lawful lt dom kc kl -> 0 < n -> Forall (fun o => dom (op_key o)) os ->
  exists tr h,
    hash_calls os (hash_internal_new n hv kc ec kl fk fv) = (tr, Ok h) /\
    (forall b, b ∈ buckets h -> StronglySorted lt (keys b)) /\
    (forall k v, dom k -> present h k v -> hash_find h k = ret (Some v)) /\
    (forall k, dom k -> (forall v, ~ present h k v) ->
       hash_find h k = ret None).
Proof.
  intros Hlaw Hn Hos.
  destruct (hash_calls_ok lt dom os (hash_internal_new n hv kc ec kl fk fv))
    as (tr & h & H & Hok & Hlaw'); auto.
  { now apply hash_internal_new_ok. }
  exists tr, h. split; [done |]. split; [apply Hok |]. split.
  - intros k v Hk Hp. now apply (hash_find_present lt dom).
  - intros k Hk Hp. now apply (hash_find_absent lt dom).
Qed.
End Find.

(** X4: an integer table ([hash_int_new]) on keys that are
    non-negative [int]s, after any sequence of [hash_add],
    [hash_add_unique] and [hash_del]: the calls return, every bucket
    is strictly sorted, and [hash_find] returns the value stored for a
    key, and [NULL] for a key that is not stored. *)
Theorem X4_hash_int_table_sorted_and_found {V} n fk fv
    (os : list (hash_op Z V)) :
  0 < n -> Forall (fun o => int_key (op_key o)) os ->
  exists tr h, hash_calls os (hash_int_new n fk fv) = (tr, Ok h) /\
    (forall b, b ∈ buckets h -> StronglySorted Z.lt (keys b)) /\
    (forall k v, int_key k -> present h k v -> hash_find h k = ret (Some v)) /\
    (forall k, int_key k -> (forall v, ~ present h k v) ->
       hash_find h k = ret None).
Proof.
  intros Hn Hos. apply hash_calls_table; auto. apply hash_int_lawful.
Qed.

(** *** String tables on keys none of which is a prefix of another *)

Lemma code_inj c1 c2 : code c1 = code c2 -> c1 = c2.
Proof.
  unfold code. intros H%Nat2Z.inj.
  rewrite <- (ascii_nat_embedding c1), <- (ascii_nat_embedding c2). now rewrite H.
Qed.

Lemma code_nonneg c : 0 <= code c.
Proof. unfold code. lia. Qed.

Lemma strcmp_refl s : strcmp s s = 0.
Proof. induction s as [| c s IH]; simpl; [done |]. now rewrite Z.eqb_refl. Qed.

Lemma strcmp_opp s : forall t, strcmp t s = - strcmp s t.
Proof.
  induction s as [| c s IH]; intros [| d t]; simpl; try lia.
  rewrite (Z.eqb_sym (code d) (code c)).
  destruct (Z.eqb_spec (code c) (code d)); [apply IH | lia].
Qed.

Lemma strcmp_trans s : forall t u,
  strcmp s t < 0 -> strcmp t u < 0 -> strcmp s u < 0.
Proof.
  induction s as [| a s IH]; intros [| b t] [| c u] H1 H2; simpl in *;
    repeat match goal with
      | x : ascii |- _ =>
          lazymatch goal with
          | _ : 0 <= code x |- _ => fail
          | _ => pose proof (code_nonneg x)
          end
      end;
    repeat match goal with
      | _ : context [code ?x =? code ?y] |- _ =>
          destruct (Z.eqb_spec (code x) (code y))
      | |- context [code ?x =? code ?y] =>
          destruct (Z.eqb_spec (code x) (code y))
      end;
    try lia.
  eapply IH; eauto.
Qed.

Lemma strncmp_zero_prefix s : forall t,
  no_nul s = true -> strncmp s t (String.length s) = 0 ->
  exists u, t = (s ++ u)%string.
Proof.
  induction s as [| a s IH]; intros t Hs H; simpl in *.
  - now exists t.
  - apply andb_true_iff in Hs as [Ha Hs]. apply negb_true_iff in Ha.
    destruct t as [| b t]; [destruct (Z.eqb_spec (code a) 0); [done | lia] |].
    destruct (Z.eqb_spec (code a) (code b)) as [E | E]; [| lia].
    apply code_inj in E as <-.
    destruct (IH t Hs H) as [u ->]. now exists u.
Qed.

Lemma strncmp_strcmp s : forall t,
  strncmp s t (String.length s) <> 0 ->
  strncmp s t (String.length s) = strcmp s t.
Proof.
  induction s as [| a s IH]; intros t H; simpl in *; [done |].
  destruct t as [| b t]; [done |].
  destruct (Z.eqb_spec (code a) (code b)); [now apply IH | done].
Qed.

Lemma append_empty_r s : (s ++ "")%string = s.
Proof. induction s as [| a s IH]; simpl; [done | now rewrite IH]. Qed.

(** On a set of C strings none of which is a proper prefix of another
    the comparator of the string tables is lawful, for the order of
    [strcmp]. *)
Lemma hash_str_lawful (keys : string -> Prop) :
  prefix_free keys -> (forall s, keys s -> c_string s) ->
  lawful (fun a b => strcmp a b < 0) keys
    (fun k1 k2 len => strncmp k1 k2 (Z.to_nat len)) strlen.
Proof.
  intros Hfree Hc. constructor.
  - intros k. rewrite strcmp_refl. lia.
  - intros a b c. apply strcmp_trans.
  - intros k k' Hk Hk'. cbv zeta.
    destruct (Hc k Hk) as [Hnul Hlen]. unfold strlen in *.
    rewrite wrap_uint_small by lia. rewrite Nat2Z.id.
    destruct (Z.eq_dec (strncmp k k' (String.length k)) 0) as [E | E].
    + right. left. split; [done |].
      destruct (strncmp_zero_prefix k k' Hnul E) as [u ->].
      rewrite (Hfree k u Hk Hk'). now rewrite append_empty_r.
    + pose proof (strncmp_strcmp k k' E) as Es. rewrite Es in E |- *.
      destruct (Z.lt_trichotomy (strcmp k k') 0) as [L | [L | L]].
      * left. done.
      * contradiction.
      * right. right. rewrite (strcmp_opp k k'). lia.
Qed.

(** X5: a string table ([hash_str_new]) used with C strings none of
    which is a proper prefix of another, after any sequence of
    [hash_add], [hash_add_unique] and [hash_del]: the calls return,
    every bucket is strictly sorted in the order of [strcmp], and
    [hash_find] returns the value stored for a key, and [NULL] for a
    key that is not stored. *)
Theorem X5_hash_str_table_prefix_free {V} (used_keys : string -> Prop)
    n fk fv (os : list (hash_op string V)) :
  prefix_free used_keys -> (forall s, used_keys s -> c_string s) ->
  0 < n -> Forall (fun o => used_keys (op_key o)) os ->
  exists tr h, hash_calls os (hash_str_new n fk fv) = (tr, Ok h) /\
    (forall b, b ∈ buckets h ->
       StronglySorted (fun a b => strcmp a b < 0) (keys b)) /\
    (forall k v, used_keys k -> present h k v ->
       hash_find h k = ret (Some v)) /\
    (forall k, used_keys k -> (forall v, ~ present h k v) ->
       hash_find h k = ret None).
Proof.
  intros Hfree Hc Hn Hos. apply hash_calls_table; auto.
  now apply hash_str_lawful.
Qed.

(** *** The number of entries *)

Section Count.
Context {K V : Type}.
Implicit Types (h : hash K V) (b : hash_bucket K V).

Lemma pairs_insert h pos b b' c :
  buckets h !! pos = Some b ->
  (length (pairs (set_buckets (<[pos := b']> (buckets h)) c h))
   + length (entries b)
   = length (pairs h) + length (entries b'))%nat.
Proof.
  intros Hb. unfold pairs. cbn [buckets set_buckets].
  rewrite insert_take_drop by (eapply lookup_lt_Some; eauto).
  rewrite <- (take_drop_middle _ _ _ Hb) at 3.
  rewrite !fmap_app, !fmap_cons, !concat_app, !concat_cons, !length_app. lia.
Qed.

Lemma counted_store h pos b b' c' d :
  buckets h !! pos = Some b ->
  count h = wrap_uint (Z.of_nat (length (pairs h))) ->
  Z.of_nat (length (entries b')) = Z.of_nat (length (entries b)) + d ->
  c' = wrap_uint (count h + d) ->
  let h' := set_buckets (<[pos := b']> (buckets h)) c' h in
  count h' = wrap_uint (Z.of_nat (length (pairs h'))).
Proof.
  intros Hb Hc Hd -> h'. pose proof (pairs_insert h pos b b' (wrap_uint (count h + d)) Hb) as Hl.
  fold h' in Hl. cbn [count h' set_buckets]. rewrite Hc.
  unfold wrap_uint. rewrite Zplus_mod_idemp_l. f_equal. lia.
Qed.

Lemma counted_same h :
  count h = wrap_uint (Z.of_nat (length (pairs h))) ->
  count h = wrap_uint (count h + 0).
Proof.
  intros Hc. rewrite Z.add_0_r, Hc. unfold wrap_uint.
  now rewrite Z.mod_mod by lia.
Qed.

Lemma hash_add_count realloc_ok h k v tr r h' :
  hash_add realloc_ok h k v = (tr, Ok (r, h')) ->
  count h = wrap_uint (Z.of_nat (length (pairs h))) ->
  count h' = wrap_uint (Z.of_nat (length (pairs h'))).
Proof.
  unfold hash_add, bucket_pos. intros H Hc. io_inv.
  destruct (n_buckets h =? 0); io_inv. subst.
  destruct (grow h realloc_ok _) as [b1 |] eqn:Hg; io_inv; [| congruence].
  apply grow_entries in Hg.
  match goal with H : buckets h !! _ = Some _ |- _ => rename H into Hb end.
  destruct (scan _ _ _) as [i []]; io_inv; subst.
  - eapply (counted_store h _ _ _ _ 0 Hb Hc); [| now apply counted_same].
    cbn [entries]. rewrite length_insert, Hg. lia.
  - eapply (counted_store h _ _ _ _ 1 Hb Hc); [| done].
    cbn [entries].
    rewrite length_app, length_cons, length_take, length_drop, Hg. lia.
  - eapply (counted_store h _ _ _ _ 1 Hb Hc); [| done].
    cbn [entries].
    rewrite length_app, length_cons, length_take, length_drop, Hg. lia.
Qed.

Lemma hash_add_unique_count realloc_ok h k v tr r h' :
  hash_add_unique realloc_ok h k v = (tr, Ok (r, h')) ->
  count h = wrap_uint (Z.of_nat (length (pairs h))) ->
  count h' = wrap_uint (Z.of_nat (length (pairs h'))).
Proof.
  unfold hash_add_unique, bucket_pos. intros H Hc. io_inv.
  destruct (n_buckets h =? 0); io_inv. subst.
  destruct (grow h realloc_ok _) as [b1 |] eqn:Hg; io_inv; [| congruence].
  apply grow_entries in Hg.
  match goal with H : buckets h !! _ = Some _ |- _ => rename H into Hb end.
  destruct (scan _ _ _) as [i []]; io_inv; subst.
  - eapply (counted_store h _ _ _ _ 0 Hb Hc); [| now apply counted_same].
    rewrite Hg. lia.
  - eapply (counted_store h _ _ _ _ 1 Hb Hc); [| done].
    cbn [entries].
    rewrite length_app, length_cons, length_take, length_drop, Hg. lia.
  - eapply (counted_store h _ _ _ _ 1 Hb Hc); [| done].
    cbn [entries].
    rewrite length_app, length_cons, length_take, length_drop, Hg. lia.
Qed.

Lemma hash_del_count realloc_ok h k tr r h' :
  hash_del realloc_ok h k = (tr, Ok (r, h')) ->
  count h = wrap_uint (Z.of_nat (length (pairs h))) ->
  count h' = wrap_uint (Z.of_nat (length (pairs h'))).
Proof.
  unfold hash_del, hash_find_entry. intros H Hc. io_inv.
  destruct (n_buckets h =? 0); io_inv.
  destruct (bsearch _ _ _ _ _) as [i |]; io_inv; subst; io_inv; [| congruence].
  destruct (step h =? 0); io_inv. subst.
  match goal with H : buckets h !! _ = Some ?b, H' : entries ?b !! _ = Some _ |- _ =>
    rename H into Hb; rename H' into He end.
  rewrite Nat2Z.id in He. pose proof (lookup_lt_Some _ _ _ He).
  eapply (counted_store h _ _ _ _ (-1) Hb Hc); [| done].
  cbn [entries]. rewrite length_app, length_take, length_drop. lia.
Qed.

Lemma hash_calls_count os : forall h tr h',
  hash_calls os h = (tr, Ok h') ->
  count h = wrap_uint (Z.of_nat (length (pairs h))) ->
  count h' = wrap_uint (Z.of_nat (length (pairs h'))).
Proof.
  induction os as [| o os IH]; intros h tr h' H Hc; cbn [hash_calls] in H; io_inv.
  - congruence.
  - match goal with H : hash_call o h = (_, Ok ?r) |- _ =>
      destruct r as [r h1]; rename H into Ho end.
    apply (IH h1 _ _ H).
    destruct o; cbn [hash_call] in Ho.
    + eapply hash_add_count; eauto.
    + eapply hash_add_unique_count; eauto.
    + eapply hash_del_count; eauto.
Qed.

Lemma pairs_new n hv kc ec kl fk fv :
  pairs (@hash_internal_new K V n hv kc ec kl fk fv) = [].
Proof.
  unfold pairs, hash_internal_new. cbn [buckets].
  induction (Z.to_nat n) as [| m IH]; [done |]. simpl. exact IH.
Qed.
End Count.

(** X6: [hash_get_count] is the number of entries of the table
    (modulo 2^32), whatever calls were made on it since it was
    created. *)
Theorem X6_hash_get_count_is_number_of_entries {K V} n hv kc ec kl fk fv
    (os : list (hash_op K V)) tr h :
  hash_calls os (hash_internal_new n hv kc ec kl fk fv) = (tr, Ok h) ->
  hash_get_count h = wrap_uint (Z.of_nat (length (pairs h))).
Proof.
  intros H. apply (hash_calls_count os _ _ _ H).
  now rewrite pairs_new.
Qed.

(** *** The iterator *)

Section Iter.
Context {K V : Type}.
Variable h : hash K V.
Hypothesis Hn : 0 < n_buckets h < 2 ^ 32.
Hypothesis Hlen : length (buckets h) = Z.to_nat (n_buckets h).
Hypothesis Hused : Forall (fun b => used b < 2 ^ 32) (buckets h).

(** The entries of the buckets from [p] on. *)
Lemma pairs_from_empty p b :
  buckets h !! p = Some b -> entries b = [] ->
  concat (entries <$> drop p (buckets h))
  = concat (entries <$> drop (S p) (buckets h)).
Proof.
  intros Hb He. rewrite (drop_S _ _ _ Hb). simpl. now rewrite He.
Qed.

Lemma hash_iter_skip_spec fuel : forall p,
  0 <= p <= n_buckets h -> (Z.to_nat (n_buckets h - p) < fuel)%nat ->
  exists p', hash_iter_skip fuel h p = ret p' /\ p <= p' <= n_buckets h /\
    concat (entries <$> drop (Z.to_nat p) (buckets h))
    = concat (entries <$> drop (Z.to_nat p') (buckets h)) /\
    (p' < n_buckets h ->
     exists b, buckets h !! Z.to_nat p' = Some b /\ entries b <> []).
Proof.
  induction fuel as [| fuel IH]; intros p Hp Hf; [lia |]. simpl.
  destruct (Z.ltb_spec p (n_buckets h)) as [L | L].
  - destruct (lookup_lt_is_Some_2 (buckets h) (Z.to_nat p)) as [b Hb]; [lia |].
    rewrite (index_ret _ _ b) by (lia || done). rewrite bind_ret.
    unfold used. destruct (Z.ltb_spec 0 (Z.of_nat (length (entries b)))) as [U | U].
    + exists p. split; [done |]. split; [lia |]. split; [done |].
      intros _. exists b. split; [done |]. intros E. rewrite E in U. simpl in U. lia.
    + assert (He : entries b = []) by (destruct (entries b); [done | simpl in U; lia]).
      rewrite wrap_uint_small by lia.
      destruct (IH (p + 1)) as (p' & -> & Hp' & Hc & Hne); try lia.
      exists p'. split; [done |]. split; [lia |]. split; [| done].
      rewrite (pairs_from_empty _ b Hb He).
      replace (S (Z.to_nat p)) with (Z.to_nat (p + 1)) by lia. done.
  - exists p. split; [done |]. split; [lia |]. split; [done |]. lia.
Qed.

(** One call of [hash_iter_next] on an iterator that stands in bucket
    [i] before entry [wrap_uint (ent + 1)]: the call returns the next
    entry of the table, if there is one, and stands before the one
    after it. *)
Lemma hash_iter_next_spec i ent b :
  0 <= i < n_buckets h -> buckets h !! Z.to_nat i = Some b ->
  wrap_uint (ent + 1) <= used b ->
  match drop (Z.to_nat (wrap_uint (ent + 1))) (entries b)
        ++ concat (entries <$> drop (S (Z.to_nat i)) (buckets h)) with
  | [] =>
      exists it',
        hash_iter_next {| iter_hash := h; iter_bucket := i; iter_entry := ent |}
        = ret (None, it')
  | e :: r =>
      exists i' ent' b',
        hash_iter_next {| iter_hash := h; iter_bucket := i; iter_entry := ent |}
        = ret (Some (key e, value e),
               {| iter_hash := h; iter_bucket := i'; iter_entry := ent' |}) /\
        0 <= i' < n_buckets h /\ buckets h !! Z.to_nat i' = Some b' /\
        wrap_uint (ent' + 1) <= used b' /\
        r = drop (Z.to_nat (wrap_uint (ent' + 1))) (entries b')
            ++ concat (entries <$> drop (S (Z.to_nat i')) (buckets h))
  end.
Proof.
  intros Hi Hb Hj. unfold hash_iter_next.
  cbn [iter_hash iter_bucket iter_entry].
  rewrite (index_ret _ _ b) by (lia || done). rewrite bind_ret.
  assert (Hub : used b < 2 ^ 32).
  { rewrite Forall_forall in Hused. apply Hused.
    eapply list_elem_of_lookup_2; eauto. }
  assert (0 <= wrap_uint (ent + 1)) by (apply Z.mod_pos_bound; lia).
  set (j := wrap_uint (ent + 1)) in *. unfold used in *.
  destruct (Z.geb_spec j (Z.of_nat (length (entries b)))) as [G | G].
  - rewrite drop_ge by lia. rewrite app_nil_l.
    rewrite (wrap_uint_small (i + 1)) by lia.
    destruct (hash_iter_skip_spec (S (Z.to_nat (n_buckets h))) (i + 1))
      as (p' & -> & Hp' & Hc & Hne); try lia.
    rewrite bind_ret.
    replace (S (Z.to_nat i)) with (Z.to_nat (i + 1)) by lia. rewrite Hc.
    destruct (Z.geb_spec p' (n_buckets h)) as [E | E].
    + rewrite drop_ge by lia. simpl. eauto.
    + destruct (Hne E) as (b' & Hb' & He').
      rewrite (drop_S _ _ _ Hb'). simpl.
      destruct (entries b') as [| e0 es'] eqn:Hes; [done |]. simpl.
      exists p', 0, b'.
      rewrite (index_ret _ _ b') by (lia || done). rewrite bind_ret.
      rewrite Hes. rewrite (index_ret _ _ e0) by (lia || done).
      rewrite bind_ret. rewrite wrap_uint_small by lia.
      repeat split; try done; try lia. simpl. lia.
  - destruct (lookup_lt_is_Some_2 (entries b) (Z.to_nat j)) as [e He]; [lia |].
    rewrite (drop_S _ _ _ He). simpl.
    rewrite (index_ret _ _ e) by (lia || done). rewrite bind_ret.
    exists i, j, b. rewrite wrap_uint_small by lia.
    repeat split; try done; try lia.
    replace (Z.to_nat (j + 1)) with (S (Z.to_nat j)) by lia. done.
Qed.

(** The loop over the iterator, from such a state. *)
Lemma hash_iter_loop_spec rest : forall i ent b,
  0 <= i < n_buckets h -> buckets h !! Z.to_nat i = Some b ->
  wrap_uint (ent + 1) <= used b ->
  rest = drop (Z.to_nat (wrap_uint (ent + 1))) (entries b)
         ++ concat (entries <$> drop (S (Z.to_nat i)) (buckets h)) ->
  hash_iter_loop (S (length rest))
    {| iter_hash := h; iter_bucket := i; iter_entry := ent |}
  = ret (Some ((fun e => (key e, value e)) <$> rest)).
Proof.
  induction rest as [| e r IH]; intros i ent b Hi Hb Hj Hrest;
    pose proof (hash_iter_next_spec i ent b Hi Hb Hj) as Hnext;
    rewrite <- Hrest in Hnext.
  - destruct Hnext as (it' & Hnext).
    simpl. rewrite Hnext, bind_ret. done.
  - destruct Hnext as (i' & ent' & b' & Hnext & Hi' & Hb' & Hj' & Hr).
    change (hash_iter_loop (S (length (e :: r))) ?it)
      with (let* x := hash_iter_next it in
            match fst x with
            | None => ret (Some [])
            | Some kv =>
                let* l := hash_iter_loop (S (length r)) (snd x) in
                ret (cons kv <$> l)
            end).
    rewrite Hnext, bind_ret. cbn [fst snd].
    rewrite (IH i' ent' b' Hi' Hb' Hj' Hr), bind_ret. done.
Qed.
End Iter.

(** X7: a loop over the iterator of a table sees every entry of the
    table once, bucket by bucket, each bucket in the order of its
    array, and then ends: the call after the last entry returns
    [false]. *)
Theorem X7_hash_iter_visits_every_entry_once {K V} (h : hash K V) :
  0 < n_buckets h < 2 ^ 32 ->
  length (buckets h) = Z.to_nat (n_buckets h) ->
  Forall (fun b => used b < 2 ^ 32) (buckets h) ->
  hash_iter_loop (S (length (pairs h))) (hash_iter_init h)
  = ret (Some ((fun e => (key e, value e)) <$> pairs h)).
Proof.
  intros Hn Hlen Hused.
  destruct (lookup_lt_is_Some_2 (buckets h) 0) as [b Hb]; [lia |].
  apply (hash_iter_loop_spec h Hn Hlen Hused (pairs h) 0 (wrap_uint (-1)) b);
    try done; try lia.
  - change (wrap_uint (wrap_uint (-1) + 1)) with 0. unfold used. lia.
  - change (wrap_uint (wrap_uint (-1) + 1)) with 0. simpl. rewrite drop_0.
    unfold pairs. rewrite <- (take_drop_middle _ _ _ Hb) at 1. done.
Qed.

(** *** [hash_free] *)

Section Free.
Context {K V : Type}.
Variable h : hash K V.

Lemma hash_free_entries_trace es :
  hash_free_entries h es = (es ≫= free_calls h, Ok tt).
Proof.
  induction es as [| e es IH]; [done |].
  cbn [hash_free_entries]. rewrite IH.
  unfold free_calls. destruct (free_key h); reflexivity.
Qed.

Lemma hash_free_buckets_trace n : forall pos,
  0 <= pos -> (Z.to_nat pos + n = length (buckets h))%nat ->
  hash_free_buckets h n pos
  = (if free_value h
     then concat (entries <$> drop (Z.to_nat pos) (buckets h)) ≫= free_calls h
     else [], Ok tt).
Proof.
  induction n as [| n IH]; intros pos Hpos Hn; cbn [hash_free_buckets].
  - rewrite drop_ge by lia. now destruct (free_value h).
  - destruct (lookup_lt_is_Some_2 (buckets h) (Z.to_nat pos)) as [b Hb]; [lia |].
    rewrite (index_ret _ _ b) by (lia || done). rewrite bind_ret.
    rewrite (IH (pos + 1)) by lia.
    rewrite (drop_S _ _ _ Hb). replace (Z.to_nat (pos + 1)) with (S (Z.to_nat pos)) by lia.
    destruct (free_value h).
    + rewrite hash_free_entries_trace. cbn [fmap list_fmap concat].
      rewrite bind_app. reflexivity.
    + reflexivity.
Qed.
End Free.

(** X8: [hash_free] hands every value of the table to [free_value]
    and, when [free_key] is set, every key to [free_key], once each,
    entry by entry in the order of the iterator; when [free_value] is
    not set it makes no call at all, so that the keys are not handed
    to [free_key] even when it is set. *)
Theorem X8_hash_free_calls {K V} (h : hash K V) :
  0 <= n_buckets h -> length (buckets h) = Z.to_nat (n_buckets h) ->
  hash_free (Some h)
  = (if free_value h then pairs h ≫= free_calls h else [], Ok tt).
Proof.
  intros Hn Hlen. unfold hash_free, pairs.
  now rewrite (hash_free_buckets_trace h _ 0) by lia.
Qed.
(** *** The properties at the tables of the examples *)

Lemma int_table_ok : table_ok Z.lt int_key Scenario.int_table.
Proof. apply hash_internal_new_ok. lia. Qed.

Lemma int_key_small k : 0 <= k <= 100 -> int_key k.
Proof. unfold int_key, INT_MAX. lia. Qed.

Lemma int_calls_keys :
  Forall (fun o => int_key (op_key o)) Scenario.int_calls.
Proof. repeat constructor; apply int_key_small; simpl; lia. Qed.

Lemma two_keys_prefix_free : prefix_free Scenario.two_keys.
Proof.
  intros s t [-> | ->] [H | H]; simpl in H; congruence.
Qed.

Lemma two_keys_c_string s : Scenario.two_keys s -> c_string s.
Proof. intros [-> | ->]; split; reflexivity. Qed.

Lemma str_calls_keys :
  Forall (fun o => Scenario.two_keys (op_key o)) Scenario.str_calls.
Proof.
  unfold Scenario.str_calls, Scenario.two_keys.
  repeat apply Forall_cons; simpl; auto.
Qed.

Lemma X1_hash_add_then_find_witness :
  exists tr r h',
    hash_add true Scenario.int_table 7 70 = (tr, Ok (r, h')) /\
    table_ok Z.lt int_key h' /\
    ((r = 0 /\ hash_find h' 7 = ret (Some 70) /\
      forall k', int_key k' -> k' <> 7 ->
        hash_find h' k' = hash_find Scenario.int_table k') \/
     (r = - ENOMEM /\ true = false /\ h' = Scenario.int_table)).
Proof.
  exact (X1_hash_add_then_find Z.lt int_key true Scenario.int_table 7 70
           hash_int_lawful int_table_ok (int_key_small 7 ltac:(lia))).
Defined.

Lemma int_table_after_ok :
  table_ok Z.lt int_key Scenario.int_table_after /\
  lawful Z.lt int_key (key_compare Scenario.int_table_after)
         (key_length Scenario.int_table_after).
Proof.
  destruct (hash_calls_ok Z.lt int_key Scenario.int_calls Scenario.int_table
              hash_int_lawful int_table_ok int_calls_keys)
    as (tr & h & E & Hok & Hlaw).
  unfold Scenario.int_table_after. rewrite E. auto.
Qed.

Lemma X2_hash_add_unique_refuses_present_key_witness :
  hash_find Scenario.int_table_after 7 = ret (Some 71) /\
  exists r h',
    hash_add_unique true Scenario.int_table_after 7 99 = ([], Ok (r, h')) /\
    r = - EEXIST /\
    table_ok Z.lt int_key h' /\
    ((r = 0 /\ hash_find Scenario.int_table_after 7 = ret None /\
      hash_find h' 7 = ret (Some 99) /\
      forall k', int_key k' -> k' <> 7 ->
        hash_find h' k' = hash_find Scenario.int_table_after k') \/
     (r = - EEXIST /\
      (exists v0, hash_find Scenario.int_table_after 7 = ret (Some v0)) /\
      forall k', int_key k' ->
        hash_find h' k' = hash_find Scenario.int_table_after k') \/
     (r = - ENOMEM /\ true = false /\ h' = Scenario.int_table_after)).
Proof.
  assert (Hfind : hash_find Scenario.int_table_after 7 = ret (Some 71))
    by (vm_compute; reflexivity).
  split; [exact Hfind |].
  destruct (X2_hash_add_unique_refuses_present_key Z.lt int_key true
              Scenario.int_table_after 7 99
              (proj2 int_table_after_ok) (proj1 int_table_after_ok)
              (int_key_small 7 ltac:(lia)))
    as (r & h' & Hrun & Hok & Hcases).
  exists r, h'. split; [exact Hrun |]. split; [| split; [exact Hok | exact Hcases]].
  destruct Hcases as [(_ & Hnone & _) | [(Hr & _) | (_ & Hf & _)]].
  - rewrite Hfind in Hnone. discriminate Hnone.
  - exact Hr.
  - discriminate Hf.
Defined.

Lemma X3_hash_del_removes_key_witness :
  hash_find Scenario.int_table_after 7 = ret (Some 71) /\
  exists tr r h',
    hash_del true Scenario.int_table_after 7 = (tr, Ok (r, h')) /\
    r = 0 /\ hash_find h' 7 = ret None /\
    hash_find h' 11 = ret (Some 110) /\
    table_ok Z.lt int_key h' /\
    ((r = 0 /\
      (exists v0, hash_find Scenario.int_table_after 7 = ret (Some v0)) /\
      hash_find h' 7 = ret None /\
      forall k', int_key k' -> k' <> 7 ->
        hash_find h' k' = hash_find Scenario.int_table_after k') \/
     (r = - ENOENT /\ hash_find Scenario.int_table_after 7 = ret None /\
      h' = Scenario.int_table_after)).
Proof.
  assert (Hfind : hash_find Scenario.int_table_after 7 = ret (Some 71))
    by (vm_compute; reflexivity).
  assert (Hother : hash_find Scenario.int_table_after 11 = ret (Some 110))
    by (vm_compute; reflexivity).
  split; [exact Hfind |].
  destruct (X3_hash_del_removes_key Z.lt int_key true
              Scenario.int_table_after 7
              (proj2 int_table_after_ok) (proj1 int_table_after_ok)
              (int_key_small 7 ltac:(lia)))
    as (tr & r & h' & Hrun & Hok & Hcases).
  exists tr, r, h'. split; [exact Hrun |].
  destruct Hcases as [(Hr & Hwas & Hgone & Hrest) | (Hr & Hnone & Hsame)].
  - split; [exact Hr |]. split; [exact Hgone |].
    split; [rewrite Hrest by (try apply int_key_small; lia); exact Hother |].
    split; [exact Hok |]. left. auto.
  - rewrite Hfind in Hnone. discriminate Hnone.
Defined.

Lemma X4_hash_int_table_sorted_and_found_witness :
  exists tr h,
    hash_calls Scenario.int_calls (hash_int_new 4 false false) = (tr, Ok h) /\
    (forall b, b ∈ buckets h -> StronglySorted Z.lt (keys b)) /\
    (forall k v, int_key k -> present h k v -> hash_find h k = ret (Some v)) /\
    (forall k, int_key k -> (forall v, ~ present h k v) ->
       hash_find h k = ret None).
Proof.
  exact (X4_hash_int_table_sorted_and_found 4 false false Scenario.int_calls
           ltac:(lia) int_calls_keys).
Defined.

Lemma X5_hash_str_table_prefix_free_witness :
  exists tr h,
    hash_calls Scenario.str_calls (hash_str_new 2 false false) = (tr, Ok h) /\
    (forall b, b ∈ buckets h ->
       StronglySorted (fun a b => strcmp a b < 0) (keys b)) /\
    (forall k v, Scenario.two_keys k -> present h k v ->
       hash_find h k = ret (Some v)) /\
    (forall k, Scenario.two_keys k -> (forall v, ~ present h k v) ->
       hash_find h k = ret None).
Proof.
  exact (X5_hash_str_table_prefix_free Scenario.two_keys 2 false false
           Scenario.str_calls two_keys_prefix_free two_keys_c_string
           ltac:(lia) str_calls_keys).
Defined.

Lemma X6_hash_get_count_is_number_of_entries_witness :
  hash_get_count Scenario.int_table_after
  = wrap_uint (Z.of_nat (length (pairs Scenario.int_table_after))).
Proof.
  destruct (hash_calls_ok Z.lt int_key Scenario.int_calls Scenario.int_table
              hash_int_lawful int_table_ok int_calls_keys)
    as (tr & h & E & _).
  unfold Scenario.int_table_after. rewrite E.
  exact (X6_hash_get_count_is_number_of_entries 4 hash_int hash_int_key_cmp
           hash_int_entry_cmp hash_int_length false false
           Scenario.int_calls tr h E).
Defined.

Lemma X7_hash_iter_visits_every_entry_once_witness :
  hash_iter_loop (S (length (pairs Scenario.int_table_after)))
    (hash_iter_init Scenario.int_table_after)
  = ret (Some ((fun e => (key e, value e)) <$> pairs Scenario.int_table_after)).
Proof.
  refine (X7_hash_iter_visits_every_entry_once Scenario.int_table_after _ _ _).
  - vm_compute. split; reflexivity.
  - vm_compute. reflexivity.
  - let l := eval vm_compute in (buckets Scenario.int_table_after) in
    replace (buckets Scenario.int_table_after) with l
      by (vm_compute; reflexivity).
    repeat (constructor; [vm_compute; reflexivity |]). constructor.
Defined.

Lemma X8_hash_free_calls_witness :
  hash_free (Some Scenario.owning_table_after)
  = (if free_value Scenario.owning_table_after
     then pairs Scenario.owning_table_after
          ≫= free_calls Scenario.owning_table_after
     else [], Ok tt).
Proof.
  refine (X8_hash_free_calls Scenario.owning_table_after _ _).
  - vm_compute. discriminate.
  - vm_compute. reflexivity.
Defined.
End HashFacts.

(** ** One iteration of the worker returns *)

Module ThreadFacts.
Import Lwan RingFacts ReactorFacts SlotFacts ResetFacts.
Local Open Scope Z_scope.

#[local] Arguments bind : simpl never.
#[local] Arguments emit : simpl never.
#[local] Arguments index : simpl never.
#[local] Arguments store : simpl never.
#[local] Arguments dispatch : simpl never.
#[local] Arguments _cleanup_coro : simpl never.
#[local] Arguments _handle_hangup : simpl never.
#[local] Arguments _spawn_coro_if_needed : simpl never.
#[local] Arguments _resume_coro_if_needed : simpl never.

Lemma returns_bind_with {C A B} (m : Trace.io C A) (k : A -> Trace.io C B)
    (Q : list C -> A -> Prop) (P : list C -> B -> Prop) :
  returns m Q ->
  (forall t a, Q t a -> returns (k a) (fun t' b => P (t ++ t') b)) ->
  returns (bind m k) P.
Proof.
  intros Hm Hk. apply returns_bind. eapply returns_weaken; eauto.
Qed.

Lemma _cleanup_coro_returns r :
  returns (_cleanup_coro r)
    (fun _ r' => response_buffer r' = response_buffer r).
Proof.
  unfold _cleanup_coro. destruct (coro r); [| done].
  destruct (should_resume_coro _); done.
Qed.

Lemma _spawn_coro_if_needed_returns ok n r :
  returns (_spawn_coro_if_needed ok n r)
    (fun _ x => response_buffer (fst x) = response_buffer r).
Proof.
  unfold _spawn_coro_if_needed, coro_new. destruct (coro r); [done |].
  destruct ok; done.
Qed.

Lemma _reset_request_returns r :
  response_buffer r <> None ->
  returns (_reset_request r) (fun _ r' => response_buffer r' <> None).
Proof.
  intros Hb. destruct (response_buffer r) as [b |] eqn:E; [| done].
  rewrite (_reset_request_eq r b E). done.
Qed.

Lemma _resume_coro_if_needed_returns ev epoll_fd r :
  response_buffer r <> None ->
  returns (_resume_coro_if_needed ev epoll_fd r)
    (fun _ r' => response_buffer r' <> None).
Proof.
  intros Hb. unfold _resume_coro_if_needed.
  destruct (negb _); [done |]. destruct (coro r) as [c |]; [| done].
  apply returns_bind_with with (Q := fun _ x => response_buffer (fst x) <> None).
  - rewrite coro_resume_eq. destruct (coro_started c); [done |].
    apply returns_bind_with with (Q := fun _ r' => response_buffer r' <> None).
    + apply returns_bind. apply returns_emit.
      eapply returns_weaken; [apply _reset_request_returns, Hb | auto].
    + intros t r' Hr'. done.
  - intros t [r' y] Hr'. simpl in Hr'.
    destruct (Bool.eqb _ _); [done |].
    apply returns_bind, returns_emit.
    destruct (_ <? 0); done.
Qed.

Lemma has_buffer_store rs i r' fd :
  (Z.to_nat i < length rs)%nat -> response_buffer r' <> None ->
  has_buffer rs fd -> has_buffer (<[Z.to_nat i := r']> rs) fd.
Proof.
  intros Hi Hb (Hfd & r & Hr & Hrb). split; [done |].
  destruct (decide (Z.to_nat i = Z.to_nat fd)) as [E | E].
  - exists r'. rewrite <- E. split; [| done]. now apply list_lookup_insert_eq.
  - exists r. split; [| done]. now rewrite list_lookup_insert_ne.
Qed.

Lemma has_buffer_update rs i r r' fd :
  rs !! i = Some r ->
  (response_buffer r <> None -> response_buffer r' <> None) ->
  has_buffer rs fd -> has_buffer (<[i := r']> rs) fd.
Proof.
  intros Hi Hb (Hfd & r0 & Hr & Hrb). split; [done |].
  destruct (decide (i = Z.to_nat fd)) as [-> | E].
  - exists r'. split.
    + apply list_lookup_insert_eq. eapply lookup_lt_Some; eauto.
    + apply Hb. congruence.
  - exists r0. split; [| done]. now rewrite list_lookup_insert_ne.
Qed.

Section Thread.
Variables (max_fd keep_alive_timeout epoll_fd : Z).

Lemma dispatch_returns ev t sh :
  ring_wf max_fd t -> death_queue_population t < max_fd ->
  has_buffer (requests sh) (data_fd ev) ->
  returns (dispatch max_fd keep_alive_timeout epoll_fd ev (t, sh))
    (fun _ st' =>
       length (requests (snd st')) = length (requests sh) /\
       forall fd, has_buffer (requests sh) fd ->
                  has_buffer (requests (snd st')) fd).
Proof.
  intros Hwf Hroom (Hfd & r & Hr & Hb).
  pose proof (lookup_lt_Some _ _ _ Hr) as Hlt.
  unfold dispatch.
  apply returns_bind. apply (returns_index _ _ r); [lia | exact Hr |].
  destruct (negb _).
  - rewrite _handle_hangup_eq. apply returns_bind. simpl.
    apply returns_bind. apply returns_store; [lia | lia |].
    simpl. split; [now rewrite length_insert |].
    intros fd. now apply has_buffer_store.
  - apply returns_bind.
    eapply returns_weaken; [apply _cleanup_coro_returns |].
    intros t1 r1 H1. simpl in H1.
    apply returns_bind.
    eapply returns_weaken; [apply _spawn_coro_if_needed_returns |].
    intros t2 [r2 n2] H2. simpl in H2.
    apply returns_bind.
    eapply returns_weaken;
      [apply _resume_coro_if_needed_returns; congruence |].
    intros t3 r3 H3. cbv beta in H3.
    pose proof (ring_wf_last max_fd t Hwf) as Hlast.
    destruct Hwf as [Hmax Hlen Hfirst Hpop _].
    set (r4 := if is_keep_alive (flags r3) || should_resume_coro (flags r3)
               then _ else _).
    assert (H4 : response_buffer r4 <> None)
      by (unfold r4; destruct (_ || _); exact H3).
    clearbody r4.
    destruct (negb (alive (flags r4))).
    + apply returns_bind, returns_store; [lia | lia |].
      apply returns_bind, returns_int_incr; [lia |].
      apply returns_bind, returns_int_incr; [lia |].
      apply returns_bind, returns_int_rem; [lia | lia |].
      apply returns_bind, returns_store; [lia | lia |].
      simpl. split; [now rewrite length_insert |].
      intros fd. now apply has_buffer_store.
    + apply returns_bind, returns_store; [lia | lia |].
      simpl. split; [now rewrite length_insert |].
      intros fd. now apply has_buffer_store.
Qed.

Lemma has_buffer_in_slab rs fd : has_buffer rs fd -> in_slab rs fd.
Proof.
  intros (Hfd & r & Hr & _). apply lookup_lt_Some in Hr. unfold in_slab. lia.
Qed.

Lemma in_slab_length rs rs' fd :
  length rs' = length rs -> in_slab rs fd -> in_slab rs' fd.
Proof. unfold in_slab. now intros ->. Qed.

Lemma dispatch_all_returns evs : forall t sh,
  ring_wf max_fd t ->
  death_queue_population t + Z.of_nat (length evs) <= max_fd ->
  Forall (fun ev => has_buffer (requests sh) (data_fd ev)) evs ->
  returns (dispatch_all max_fd keep_alive_timeout epoll_fd evs (t, sh))
    (fun _ st' =>
       length (requests (snd st')) = length (requests sh) /\
       forall fd, has_buffer (requests sh) fd ->
                  has_buffer (requests (snd st')) fd).
Proof.
  induction evs as [| ev evs IH]; intros t sh Hwf Hroom Hevs;
    cbn [dispatch_all].
  - apply returns_ret. auto.
  - apply Forall_cons in Hevs as [Hev Hevs]. cbn [length] in Hroom.
    pose proof (dispatch_returns ev t sh Hwf ltac:(lia) Hev) as Hd.
    apply returns_bind.
    apply returns_eq in Hd as (tr & [t1 sh1] & Hd & Hlen & Hbuf).
    rewrite Hd. cbn [returns snd] in *.
    assert (Hwf1 : ring_wf max_fd t1 /\
                   death_queue_population t1 <= death_queue_population t + 1).
    { destruct (dispatch_locals _ _ _ _ _ _ _ _ _ Hd) as [-> | ->].
      - split; [done | lia].
      - split; [| simpl; lia]. apply ring_enrolled; [done | lia]. }
    destruct Hwf1 as [Hwf1 Hpop1].
    eapply returns_weaken.
    + apply IH; [done | lia |].
      eapply Forall_impl; [exact Hevs |]. intros ev' Hb. now apply Hbuf.
    + intros tr' [t2 sh2] [Hlen2 Hbuf2]. cbn [snd] in *.
      split; [congruence | auto].
Qed.

Lemma ring_head t :
  ring_wf max_fd t -> death_queue_population t <> 0 ->
  exists x, death_queue t !! Z.to_nat (death_queue_first t) = Some x /\
            x ∈ ring t.
Proof.
  intros [Hmax Hlen Hfirst Hpop _] Hne.
  destruct (lookup_lt_is_Some_2 (death_queue t) (Z.to_nat (death_queue_first t)))
    as [x Hx]; [lia |].
  exists x. split; [done |]. unfold ring.
  replace (Z.to_nat (death_queue_population t))
    with (S (Z.to_nat (death_queue_population t - 1))) by lia.
  rewrite (ring_from_S _ _ _ x Hx). apply list_elem_of_here.
Qed.

Lemma reap_returns fuel : forall t rs,
  ring_wf max_fd t -> Forall (in_slab rs) (ring t) ->
  returns (reap max_fd fuel (t, rs))
    (fun _ st' =>
       length (snd st') = length rs /\
       forall fd, has_buffer rs fd -> has_buffer (snd st') fd).
Proof.
  induction fuel as [| fuel IH]; intros t rs Hwf Hring; cbn [reap].
  - done.
  - destruct (Z.eqb_spec (death_queue_population t) 0) as [E | E]; [done |].
    destruct (ring_head t Hwf E) as (x & Hx & Hin).
    pose proof (ring_advanced max_fd t Hwf E) as [Hwf' Hring'].
    assert (Hslab : in_slab rs x)
      by (rewrite Forall_forall in Hring; auto).
    destruct (lookup_lt_is_Some_2 rs (Z.to_nat x)) as [r Hr];
      [unfold in_slab in Hslab; lia |].
    assert (Hring1 : Forall (in_slab rs) (ring (advanced max_fd t))).
    { rewrite Hring'. apply Forall_forall. intros y Hy.
      rewrite Forall_forall in Hring. apply Hring.
      eapply elem_of_sublist; [exact Hy | apply sublist_drop]. }
    pose proof Hwf as [Hmax Hlen Hfirst Hpop _].
    apply returns_bind, (returns_index _ _ x); [lia | done |].
    apply returns_bind, (returns_index _ _ r);
      [unfold in_slab in Hslab; lia | done |].
    destruct (_ <=? _); [| done].
    apply returns_bind, returns_int_incr; [lia |].
    apply returns_bind, returns_int_decr; [unfold INT_MIN; lia |].
    apply returns_bind, returns_int_rem; [lia | lia |].
    fold (advanced max_fd t).
    destruct (negb _).
    + eapply returns_weaken; [apply IH; eauto |]. auto.
    + apply returns_bind.
      eapply returns_weaken; [apply _cleanup_coro_returns |].
      intros t1 r1 H1. apply returns_bind, returns_emit.
      apply returns_bind, returns_store;
        [unfold in_slab in Hslab; lia | unfold in_slab in Hslab; lia |].
      eapply returns_weaken.
      * apply IH; [done |].
        eapply Forall_impl; [exact Hring1 |].
        intros y. apply in_slab_length. apply length_insert.
      * intros tr' [t2 rs2] [Hl Hb]. cbn [snd] in *.
        split; [now rewrite Hl, length_insert |].
        intros fd Hfd. apply Hb.
        eapply has_buffer_update; eauto. simpl. congruence.
Qed.
Lemma ring_cons t :
  ring_wf max_fd t -> death_queue_population t <> 0 ->
  exists x, death_queue t !! Z.to_nat (death_queue_first t) = Some x /\
            ring t = x :: ring (advanced max_fd t).
Proof.
  intros Hwf Hne. pose proof (ring_advanced max_fd t Hwf Hne) as [_ Hr].
  destruct Hwf as [Hmax Hlen Hfirst Hpop _].
  destruct (lookup_lt_is_Some_2 (death_queue t) (Z.to_nat (death_queue_first t)))
    as [x Hx]; [lia |].
  exists x. split; [done |]. rewrite Hr. unfold ring.
  replace (Z.to_nat (death_queue_population t))
    with (S (Z.to_nat (death_queue_population t - 1))) by lia.
  rewrite (ring_from_S _ _ _ x Hx). reflexivity.
Qed.

Lemma due_ext rs rs' now fd :
  time_to_die <$> rs' = time_to_die <$> rs -> due rs' now fd -> due rs now fd.
Proof.
  intros E (r' & Hr' & Hd).
  assert (H : (time_to_die <$> rs) !! Z.to_nat fd = Some (time_to_die r'))
    by (rewrite <- E, list_lookup_fmap, Hr'; done).
  rewrite list_lookup_fmap in H. apply fmap_Some in H as (r & Hr & Ht).
  exists r. split; [done | lia].
Qed.

Lemma dead_insert rs i r' fd :
  alive (flags r') = false -> (i < length rs)%nat ->
  dead rs fd -> dead (<[i := r']> rs) fd.
Proof.
  intros Ha Hi (r & Hr & Hd).
  destruct (decide (i = Z.to_nat fd)) as [-> | E].
  - exists r'. split; [| done]. now apply list_lookup_insert_eq.
  - exists r. split; [| done]. now rewrite list_lookup_insert_ne.
Qed.

(** The loop of the timeout case. *)
Lemma reap_spec fuel : forall t rs tr t' rs',
  ring_wf max_fd t -> (Z.to_nat (death_queue_population t) <= fuel)%nat ->
  reap max_fd fuel (t, rs) = (tr, Ok (t', rs')) ->
  exists k,
    ring t' = drop k (ring t) /\
    Forall (due rs (death_time t)) (take k (ring t)) /\
    (forall fd, head (ring t') = Some fd -> ~ due rs (death_time t) fd) /\
    Forall (dead rs') (take k (ring t)) /\
    time_to_die <$> rs' = time_to_die <$> rs /\
    (forall fd, dead rs fd -> dead rs' fd) /\
    death_time t' = death_time t.
Proof.
  induction fuel as [| fuel IH]; intros t rs tr t' rs' Hwf Hfuel H.
  - simpl in H. unfold ret in H. injection H as <- <- <-.
    exists O. rewrite drop_0.
    assert (Hnil : ring t = []).
    { unfold ring. destruct Hwf.
      replace (Z.to_nat (death_queue_population t)) with O by lia. done. }
    rewrite Hnil. repeat split; auto. intros fd [=].
  - simpl in H.
    destruct (Z.eqb_spec (death_queue_population t) 0) as [Hz | Hnz].
    { unfold ret in H. injection H as <- <- <-. exists O. rewrite drop_0.
      assert (Hnil : ring t = []) by (unfold ring; rewrite Hz; done).
      rewrite Hnil. repeat split; auto. intros fd [=]. }
    destruct (ring_cons t Hwf Hnz) as (x & Hx & Hring).
    destruct (ring_advanced max_fd t Hwf Hnz) as [Hwf1 Hr1].
    io_inv.
    match goal with
    | H1 : death_queue t !! _ = Some ?y, H2 : rs !! Z.to_nat ?y = Some ?r |- _ =>
        assert (y = x) by congruence; subst y; rename H2 into Hr; rename r into r0
    end.
    destruct (Z.leb_spec (time_to_die r0) (death_time t)) as [Hdue | Hnot].
    2: { unfold ret in H. injection H as <- <- <-.
         exists O. rewrite drop_0. cbn [take].
         repeat split; auto. rewrite Hring. intros fd [= <-] (r & Hr' & Hd).
         assert (r = r0) by congruence. subst. lia. }
    io_inv. subst.
    assert (Hgo : exists rs1 tr1,
              reap max_fd fuel (advanced max_fd t, rs1) = (tr1, Ok (t', rs')) /\
              time_to_die <$> rs1 = time_to_die <$> rs /\
              dead rs1 x /\ (forall fd, dead rs fd -> dead rs1 fd)).
    { destruct (negb (alive (flags r0))) eqn:Ha.
      - eexists _, _. split; [exact H |]. split; [done |]. split; [| auto].
        exists r0. split; [done |]. now apply negb_true_iff in Ha.
      - io_inv. subst.
        match goal with
        | H : _cleanup_coro r0 = (_, Ok ?r) |- _ =>
            rename r into r1; apply _cleanup_coro_cases in H as Hc
        end.
        assert (Ht : time_to_die r1 = time_to_die r0)
          by (destruct Hc as [(_ & -> & _) | (c & _ & _ & _ & ->)]; done).
        eexists _, _. split; [exact H |].
        pose proof (lookup_lt_Some _ _ _ Hr) as Hlt.
        split; [| split].
        + rewrite list_fmap_insert. simpl. rewrite Ht.
          apply list_insert_id. now rewrite list_lookup_fmap, Hr.
        + eexists. split; [now apply list_lookup_insert_eq | done].
        + intros fd. now apply dead_insert. }
    destruct Hgo as (rs1 & tr1 & Hgo & Httd & Hdead & Hmono).
    destruct (IH _ _ _ _ _ Hwf1 ltac:(simpl; lia) Hgo)
      as (k & Hk & Hdues & Hhead & Hdeads & Httd' & Hmono' & Htime).
    simpl in Hdues, Hhead, Htime.
    exists (S k). rewrite Hring. cbn [drop take].
    split; [done |]. split; [| split; [| split; [| split; [| split]]]].
    + constructor.
      * exists r0. split; [done | lia].
      * eapply Forall_impl; [exact Hdues |]. intros fd. now apply due_ext.
    + intros fd Hfd Hd. apply (Hhead fd Hfd).
      destruct Hd as (r & Hr' & Hd).
      assert (H' : (time_to_die <$> rs1) !! Z.to_nat fd = Some (time_to_die r))
        by (rewrite Httd, list_lookup_fmap, Hr'; done).
      rewrite list_lookup_fmap in H'. apply fmap_Some in H' as (r1 & Hr1' & Ht).
      exists r1. split; [done | lia].
    + constructor; [now apply Hmono' | done].
    + congruence.
    + auto.
    + done.
Qed.

(** X10: a timeout pass advances the tick and takes off the head of
    the ring exactly the leading entries whose connection is due at the
    new tick: every entry it takes off is due, and it stops at the
    first entry that is not.  The connections of the entries taken off
    are not alive afterwards, and no [time_to_die] is changed. *)
Theorem X10_timeout_pass_reaps_due_head t sh tr t' sh' :
  ring_wf max_fd t ->
  _thread_iteration max_fd keep_alive_timeout epoll_fd WaitTimeout (t, sh)
    = (tr, Ok (Some (t', sh'))) ->
  death_time t' = wrap_uint (death_time t + 1) /\
  exists k,
    ring t' = drop k (ring t) /\
    Forall (due (requests sh) (death_time t')) (take k (ring t)) /\
    (forall fd, head (ring t') = Some fd ->
       ~ due (requests sh) (death_time t') fd) /\
    Forall (dead (requests sh')) (take k (ring t)) /\
    time_to_die <$> requests sh' = time_to_die <$> requests sh.
Proof.
  intros Hwf H. unfold _thread_iteration in H. io_inv. subst.
  match goal with
  | H : reap _ _ (?t0, _) = _ |- _ =>
      assert (Hwf0 : ring_wf max_fd t0)
        by (destruct Hwf; constructor; assumption);
      destruct (reap_spec _ _ _ _ _ _ Hwf0 (Nat.le_refl _) H)
        as (k & Hk & Hdue & Hhead & Hdead & Httd & _ & Htime)
  end.
  cbn [death_time requests] in *. rewrite Htime.
  split; [done |]. exists k. auto.
Qed.

(** X9: one iteration of a worker neither exits nor runs into
    undefined behaviour, and leaves the worker as the next iteration
    needs it: when the ring is well formed and names slots of the slab
    and, where [epoll_wait] reports events, the ring has room for them
    and their descriptors name slots that have their response buffer,
    the iteration returns, the ring is again well formed and names
    slots of the slab, and the slab has the size and the buffers it
    had. *)
Theorem X9_thread_iteration_is_safe w t sh :
  ring_wf max_fd t -> Forall (in_slab (requests sh)) (ring t) ->
  (forall evs, w = WaitEvents evs ->
     death_queue_population t + Z.of_nat (length evs) <= max_fd /\
     Forall (fun ev => has_buffer (requests sh) (data_fd ev)) evs) ->
  exists tr o,
    _thread_iteration max_fd keep_alive_timeout epoll_fd w (t, sh)
      = (tr, Ok o) /\
    forall t' sh', o = Some (t', sh') ->
      ring_wf max_fd t' /\
      Forall (in_slab (requests sh')) (ring t') /\
      length (requests sh') = length (requests sh) /\
      forall fd, has_buffer (requests sh) fd -> has_buffer (requests sh') fd.
Proof.
  intros Hwf Hring Hevs. unfold _thread_iteration.
  destruct w as [errno | | evs].
  - destruct (_ || _); eexists _, _; (split; [reflexivity |]);
      intros t' sh' [=]; subst; auto.
  - set (t0 := {| death_queue := death_queue t;
                  death_time := wrap_uint (death_time t + 1);
                  death_queue_last := death_queue_last t;
                  death_queue_first := death_queue_first t;
                  death_queue_population := death_queue_population t |}).
    assert (Hwf0 : ring_wf max_fd t0)
      by (destruct Hwf; constructor; assumption).
    pose proof (reap_returns (Z.to_nat (death_queue_population t0)) t0
                  (requests sh) Hwf0 Hring) as Hr.
    apply returns_eq in Hr as (tr & [t1 rs1] & Hr & Hlen & Hbuf).
    destruct (reap_ring _ _ _ _ _ _ _ Hwf0 Hr) as (Hwf1 & k & Hk).
    rewrite Hr. eexists _, _. split; [reflexivity |].
    intros t' sh' [= <- <-]. cbn [requests snd] in *.
    split; [done |]. split; [| split; [done |]; done].
    rewrite Hk. apply Forall_forall. intros y Hy.
    eapply in_slab_length; [exact Hlen |].
    rewrite Forall_forall in Hring. apply Hring.
    eapply elem_of_sublist; [exact Hy | apply sublist_drop].
  - destruct (Hevs evs eq_refl) as [Hroom Hbufs].
    pose proof (dispatch_all_returns evs t sh Hwf Hroom Hbufs) as Hd.
    apply returns_eq in Hd as (tr & [t1 sh1] & Hd & Hlen & Hbuf).
    destruct (dispatch_all_ring _ _ _ _ _ _ _ _ _ Hwf Hroom Hd)
      as (Hwf1 & l & Hsub & Hl & _).
    rewrite Hd. eexists _, _. split; [reflexivity |].
    intros t' sh' [= <- <-]. cbn [snd] in *.
    split; [done |]. split; [| split; [done |]; done].
    rewrite Hl. apply Forall_app. split.
    + eapply Forall_impl; [exact Hring |].
      intros y. now apply in_slab_length.
    + apply Forall_forall. intros y Hy.
      eapply in_slab_length; [exact Hlen |].
      pose proof (elem_of_sublist _ _ _ Hy Hsub) as Hy'.
      apply list_elem_of_fmap in Hy' as (ev & -> & Hev).
      rewrite Forall_forall in Hbufs. now apply has_buffer_in_slab, Hbufs.
Qed.
End Thread.

(** *** The properties at the worker of the examples *)

Lemma slab_has_buffer fd : 1 <= fd < 8 -> has_buffer Scenario.slab fd.
Proof.
  intros Hfd.
  assert (fd = 1 \/ fd = 2 \/ fd = 3 \/ fd = 4 \/ fd = 5 \/ fd = 6 \/ fd = 7)
    as Hcases by lia.
  split; [lia |].
  repeat destruct Hcases as [-> | Hcases]; try subst fd;
    (eexists; split; [reflexivity | vm_compute; discriminate]).
Qed.
Lemma worker_waiting_wf : ring_wf Scenario.max_fd (fst Scenario.worker_waiting).
Proof.
  constructor; vm_compute; repeat split; (reflexivity || discriminate).
Qed.
Lemma X9_thread_iteration_is_safe_witness :
  exists tr o,
    _thread_iteration Scenario.max_fd Scenario.keep_alive_timeout 100
      (WaitEvents [Scenario.ready_event 5 true true;
                   Scenario.hangup_event 6;
                   Scenario.ready_event 7 false true])
      Scenario.worker_start = (tr, Ok o) /\
    forall t' sh', o = Some (t', sh') ->
      ring_wf Scenario.max_fd t' /\
      Forall (in_slab (requests sh')) (ring t') /\
      length (requests sh') = length Scenario.slab /\
      forall fd, has_buffer Scenario.slab fd -> has_buffer (requests sh') fd.
Proof.
  refine (X9_thread_iteration_is_safe Scenario.max_fd
            Scenario.keep_alive_timeout 100
            (WaitEvents [Scenario.ready_event 5 true true;
                         Scenario.hangup_event 6;
                         Scenario.ready_event 7 false true])
            (fst Scenario.worker_start) (snd Scenario.worker_start) _ _ _).
  - constructor; try (vm_compute; reflexivity);
      unfold Scenario.max_fd, INT_MAX; simpl; lia.
  - apply Forall_nil_2.
  - intros evs [= <-]. split; [unfold Scenario.max_fd; simpl; lia |].
    repeat (constructor; [apply slab_has_buffer; simpl; lia |]).
    constructor.
Defined.
Lemma X10_timeout_pass_reaps_due_head_witness :
  exists tr t' sh',
    _thread_iteration Scenario.max_fd Scenario.keep_alive_timeout 100
      WaitTimeout Scenario.worker_waiting = (tr, Ok (Some (t', sh'))) /\
    ring (fst Scenario.worker_waiting) = [5; 7] /\
    ring t' = [] /\
    death_time t' = wrap_uint (death_time (fst Scenario.worker_waiting) + 1) /\
    exists k,
      ring t' = drop k (ring (fst Scenario.worker_waiting)) /\
      Forall (due (requests (snd Scenario.worker_waiting)) (death_time t'))
             (take k (ring (fst Scenario.worker_waiting))) /\
      (forall fd, head (ring t') = Some fd ->
         ~ due (requests (snd Scenario.worker_waiting)) (death_time t') fd) /\
      Forall (dead (requests sh')) (take k (ring (fst Scenario.worker_waiting))) /\
      time_to_die <$> requests sh'
        = time_to_die <$> requests (snd Scenario.worker_waiting).
Proof.
  eexists _, _, _.
  split; [vm_compute; reflexivity |].
  split; [vm_compute; reflexivity |].
  split; [vm_compute; reflexivity |].
  refine (X10_timeout_pass_reaps_due_head Scenario.max_fd
            Scenario.keep_alive_timeout 100
            (fst Scenario.worker_waiting) (snd Scenario.worker_waiting)
            _ _ _ worker_waiting_wf _).
  vm_compute; reflexivity.
Defined.
End ThreadFacts.

(** ** The coroutines resumed in a run *)

Module ResumeFacts.
Import Lwan RingFacts ReactorFacts SystemFacts SlotFacts ResetFacts InvariantFacts.
Local Open Scope Z_scope.

#[local] Arguments bind : simpl never.
#[local] Arguments emit : simpl never.
#[local] Arguments index : simpl never.
#[local] Arguments store : simpl never.
#[local] Arguments _cleanup_coro : simpl never.
#[local] Arguments _spawn_coro_if_needed : simpl never.
#[local] Arguments _resume_coro_if_needed : simpl never.

Lemma resumed_app t1 t2 : resumed (t1 ++ t2) = resumed t1 ++ resumed t2.
Proof. apply omap_app. Qed.

Lemma resumed_none tr t1 id t2 :
  resumed tr = [] -> tr <> t1 ++ Ccoro_resume id :: t2.
Proof.
  intros H ->. rewrite resumed_app in H. simpl in H.
  now apply app_eq_nil in H as [_ [=]].
Qed.

Lemma resume_unique a : forall c rest t1 id t2,
  resumed a = [] -> resumed rest = [] ->
  a ++ Ccoro_resume c :: rest = t1 ++ Ccoro_resume id :: t2 ->
  t1 = a /\ id = c.
Proof.
  induction a as [| x a IH]; intros c rest t1 id t2 Ha Hrest H.
  - destruct t1 as [| y t1]; simpl in H.
    + injection H as -> _. auto.
    + injection H as _ H. now apply resumed_none in H.
  - destruct t1 as [| y t1]; simpl in H.
    + injection H as -> _. simpl in Ha. discriminate.
    + injection H as <- H.
      assert (Ha' : resumed a = []).
      { simpl in Ha. destruct x; try discriminate; exact Ha. }
      destruct (IH _ _ _ _ _ Ha' Hrest H) as [-> ->]. auto.
Qed.

Lemma resumes_live_app tr0 tr :
  resumes_live tr0 ->
  (forall t1 id t2, tr = t1 ++ Ccoro_resume id :: t2 ->
     id ∈ created (tr0 ++ t1) /\ id ∉ freed (tr0 ++ t1)) ->
  resumes_live (tr0 ++ tr).
Proof.
  intros H0 H t1 id t2 E.
  apply app_eq_app in E as [l [[E0 E] | [-> E]]].
  - destruct l as [| x l]; simpl in E.
    + rewrite app_nil_r in E0. subst t1.
      specialize (H [] id t2 (eq_sym E)). now rewrite app_nil_r in H.
    + injection E as <- ->. eapply H0. exact E0.
  - eapply H. eassumption.
Qed.

Lemma _reset_request_resumed r tr r' :
  _reset_request r = (tr, Ok r') -> resumed tr = [].
Proof.
  unfold _reset_request, strbuf_reset. intros H. io_inv.
  destruct (kv_ptr_eqb _ _); io_inv; subst;
    (destruct (response_buffer _); io_inv; subst; reflexivity).
Qed.

Lemma _resume_coro_if_needed_trace ev epoll_fd r tr r3 :
  _resume_coro_if_needed ev epoll_fd r = (tr, Ok r3) ->
  tr = [] \/
  exists c rest, coro r = Some c /\
    tr = Ccoro_resume (coro_id c) :: rest /\ resumed rest = [].
Proof.
  unfold _resume_coro_if_needed. intros H.
  destruct (negb _); [io_inv; auto |].
  destruct (coro r) as [c |]; [| io_inv; auto].
  right. exists c. unfold coro_resume in H. io_inv. subst.
  cbn [app]. eexists. split; [reflexivity |]. split; [reflexivity |].
  rewrite !resumed_app.
  match goal with
  | H : (if coro_started c then _ else _) = (?t, Ok _) |- _ =>
      assert (Hreset : resumed t = [])
        by (destruct (coro_started c); io_inv; subst;
            [done | eapply _reset_request_resumed; eauto])
  end.
  rewrite Hreset. cbn [app resumed omap].
  match goal with
  | H : (if Bool.eqb _ _ then _ else _) = _ |- _ =>
      destruct (Bool.eqb _ _); io_inv; subst; [done |];
      destruct (_ <? 0); io_inv; subst; done
  end.
Qed.

Lemma outside_resumed tr : Forall outside_call tr -> resumed tr = [].
Proof.
  induction 1 as [| c tr Hc _ IH]; [done |].
  destruct c; try contradiction; simpl; auto.
Qed.

(** A visit resumes a coroutine that has been created and has not
    been freed. *)
Lemma slot_op_resumes_live tr0 rs n i r tr r' n' :
  coro_inv tr0 rs n -> rs !! Z.to_nat i = Some r ->
  slot_op i n r tr r' n' ->
  forall t1 id t2, tr = t1 ++ Ccoro_resume id :: t2 ->
    id ∈ created (tr0 ++ t1) /\ id ∉ freed (tr0 ++ t1).
Proof.
  intros [H1 H2 H3 H4 H5] Hr Hop t1 id t2 E.
  destruct Hop as [n0 r0 tr r0' H
         | ev epoll_fd ttd n0 r0 tr1 r1 tr2 r2 n2 tr3 r3 Hc Hs Hres
         | n0 r0 tr1 r1 Hc].
  - rewrite _handle_hangup_eq in H. injection H as <- <-.
    now apply (resumed_none [Cclose _]) in E.
  - apply _resume_coro_if_needed_trace in Hres
      as [-> | (c & rest & Hc2 & -> & Hrest)].
    + exfalso. revert E. apply resumed_none. rewrite !resumed_app.
      apply _cleanup_coro_cases in Hc
        as [(-> & -> & _) | (c0 & _ & _ & -> & ->)];
        apply _spawn_coro_if_needed_cases in Hs
          as [(c2 & _ & -> & -> & ->)
             | [(_ & _ & -> & -> & ->) | (_ & _ & -> & -> & ->)]]; done.
    + rewrite app_assoc in E.
      assert (Hnone : resumed (tr1 ++ tr2) = []).
      { rewrite resumed_app.
        apply _cleanup_coro_cases in Hc
          as [(-> & -> & _) | (c0 & _ & _ & -> & ->)];
          apply _spawn_coro_if_needed_cases in Hs
            as [(c2 & _ & -> & -> & ->)
               | [(_ & _ & -> & -> & ->) | (_ & _ & -> & -> & ->)]]; done. }
      apply (resume_unique _ _ _ _ _ _ Hnone Hrest) in E as [-> ->].
      rewrite !created_app, !freed_app, H1.
      apply _cleanup_coro_cases in Hc
        as [(-> & -> & Hkeep) | (c0 & Hc0 & _ & -> & ->)];
        apply _spawn_coro_if_needed_cases in Hs
          as [(c2 & Hc2' & -> & -> & ->)
             | [(Hnone2 & _ & -> & -> & ->) | (Hnone2 & _ & -> & -> & ->)]];
        simpl in *; try congruence.
      * assert (c2 = c) by congruence. subst c2.
        destruct (H4 _ _ _ Hr Hc2') as [Hlt Hnf].
        rewrite !app_nil_r. split; [| done].
        apply elem_of_seq. lia.
      * injection Hc2 as <-. simpl. rewrite app_nil_r. split.
        -- apply elem_of_app. right. apply list_elem_of_here.
        -- intros Hin. apply H3 in Hin. lia.
      * injection Hc2 as <-. simpl.
        destruct (H4 _ _ _ Hr Hc0) as [Hlt Hnf]. split.
        -- apply elem_of_app. right. apply list_elem_of_here.
        -- intros [Hin | Hin]%elem_of_app.
           ++ apply H3 in Hin. lia.
           ++ apply list_elem_of_singleton in Hin. lia.
  - exfalso. revert E. apply resumed_none. rewrite resumed_app.
    apply _cleanup_coro_cases in Hc
      as [(-> & -> & _) | (c0 & _ & _ & -> & ->)]; done.
Qed.

Lemma live_inv_slot tr0 rs n i r tr r' n' :
  coro_inv tr0 rs n /\ resumes_live tr0 -> 0 <= i ->
  rs !! Z.to_nat i = Some r -> slot_op i n r tr r' n' ->
  coro_inv (tr0 ++ tr) (<[Z.to_nat i := r']> rs) n' /\
  resumes_live (tr0 ++ tr).
Proof.
  intros [HI HL] Hi Hr Hop. split.
  - eapply coro_inv_slot; eauto.
  - apply resumes_live_app; [done |].
    eapply slot_op_resumes_live; eauto.
Qed.

Lemma live_inv_outside tr0 rs n tr :
  coro_inv tr0 rs n /\ resumes_live tr0 -> Forall outside_call tr ->
  coro_inv (tr0 ++ tr) rs n /\ resumes_live (tr0 ++ tr).
Proof.
  intros [HI HL] Hout. split.
  - now apply coro_inv_outside.
  - apply resumes_live_app; [done |].
    intros t1 id t2 E. exfalso. revert E.
    now apply resumed_none, outside_resumed.
Qed.

Section Runs.
Variables (threads : list lwan_thread_t) (count main_socket : Z).
Variables (max_fd keep_alive_timeout : Z).

(** In every run that is made of whole iterations, from a fresh slab,
    a coroutine that is resumed has been created before, and has not
    been freed. *)
Lemma run_resumes_live rs es tr s :
  Forall fresh_slot rs ->
  sys_run threads count main_socket max_fd keep_alive_timeout es
          (sys_start threads max_fd rs) = (tr, Ok s) ->
  resumes_live tr.
Proof.
  intros Hrs H.
  assert (Hstart : coro_inv [] rs 0 /\ resumes_live []).
  { split; [now apply coro_inv_start |].
    intros t1 id t2 E. now destruct t1. }
  apply (sys_run_inv (fun tr rs n => coro_inv tr rs n /\ resumes_live tr)
           live_inv_slot live_inv_outside
           _ _ _ _ _ _ [] (sys_start threads max_fd rs) _ _ Hstart H).
Qed.
End Runs.

(** X11: a server with one worker.  The iterations of the worker
    follow one another, and the acceptor does not touch the slab.  In
    every run from a fresh slab, a coroutine that is resumed has been
    created before, and has not been freed. *)
Theorem X11_no_coroutine_resumed_after_free
    th main_socket max_fd keep_alive_timeout rs es tr s :
  Forall fresh_slot rs ->
  sys_run [th] 1 main_socket max_fd keep_alive_timeout es
          (sys_start [th] max_fd rs) = (tr, Ok s) ->
  forall t1 id t2, tr = t1 ++ Ccoro_resume id :: t2 ->
    id ∈ created t1 /\ id ∉ freed t1.
Proof.
  intros Hrs H.
  exact (run_resumes_live [th] 1 main_socket max_fd keep_alive_timeout
           rs es tr s Hrs H).
Qed.

Lemma X11_no_coroutine_resumed_after_free_witness :
  exists tr s,
    Scenario.run
      [Scenario.accepted 5;
       SysWait 0 (WaitEvents [Scenario.ready_event 5 true true]);
       SysWait 0 (WaitEvents [Scenario.ready_event 5 false false]);
       Scenario.accepted 5;
       SysWait 0 (WaitEvents [Scenario.ready_event 5 false false])]
      = (tr, Ok s) /\
    resumed tr = [0; 0; 1]%nat /\
    forall t1 id t2, tr = t1 ++ Ccoro_resume id :: t2 ->
      id ∈ created t1 /\ id ∉ freed t1.
Proof.
  eexists _, _.
  split; [vm_compute; reflexivity |].
  split; [vm_compute; reflexivity |].
  refine (X11_no_coroutine_resumed_after_free {| epoll_fd := 100 |}
            Scenario.main_socket Scenario.max_fd Scenario.keep_alive_timeout
            Scenario.slab
            [Scenario.accepted 5;
             SysWait 0 (WaitEvents [Scenario.ready_event 5 true true]);
             SysWait 0 (WaitEvents [Scenario.ready_event 5 false false]);
             Scenario.accepted 5;
             SysWait 0 (WaitEvents [Scenario.ready_event 5 false false])]
            _ _ slab_fresh _).
  vm_compute; reflexivity.
Defined.
End ResumeFacts.

(** ** The slab from start-up to shutdown *)

Module LifetimeFacts.
Import Lwan SlabFacts HashFacts.
Local Open Scope Z_scope.

#[local] Arguments bind : simpl never.
#[local] Arguments emit : simpl never.
#[local] Arguments index : simpl never.
#[local] Arguments store : simpl never.

(** The loop of [lwan_init] returns when the slab holds its starting
    point. *)
Lemma lwan_init_buffers_returns l n : forall rs next,
  (n < length rs)%nat ->
  returns (lwan_init_buffers l n (rs, next)) (fun _ _ => True).
Proof.
  induction n as [| n IH]; intros rs next Hn; cbn [lwan_init_buffers].
  - done.
  - destruct (lookup_lt_is_Some_2 rs (S n) Hn) as [r Hr].
    unfold strbuf_new. apply returns_bind, returns_bind, returns_emit.
    apply returns_ret.
    apply returns_bind, (returns_index _ _ r); [lia | now rewrite Nat2Z.id |].
    apply returns_bind, returns_store; [lia | lia |].
    eapply returns_weaken; [apply IH | auto].
    rewrite length_insert. lia.
Qed.

(** What [lwan_init] leaves when it returns with a slab. *)
Lemma lwan_init_requests_Ok l other_size env tr count max_fd rs next :
  calloc_ok env = true ->
  0 <= rlim_cur (getrlimit_val env) -> 0 <= rlim_max (getrlimit_val env) ->
  lwan_init_requests l other_size env = (tr, Ok (count, max_fd, rs, next)) ->
  count = (if 0 <? sysconf_ret env then sysconf_ret env else 2) /\
  max_fd = to_int (Z.of_nat (length rs) / count) /\
  (0 < length rs)%nat /\ next = (length rs - 1)%nat /\
  (forall i, (1 <= i < length rs)%nat ->
     exists r, rs !! i = Some r /\
       response_buffer r =
         Some {| strbuf_id := length rs - 1 - i; strbuf_len := 0 |}) /\
  (exists r0, rs !! 0%nat = Some r0 /\ response_buffer r0 = None).
Proof.
  intros Hcalloc Hcur Hmax H. pose proof H as H0.
  unfold lwan_init_requests in H. io_inv.
  destruct (getrlimit_ret env <? 0); io_inv.
  destruct (setrlimit_ret env <? 0); io_inv.
  match goal with
  | H : (if ?c =? 0 then _ else _) = _ |- _ =>
      set (cur := c) in *; destruct (Z.eqb_spec cur 0) as [Hz | Hnz]; io_inv
  end.
  assert (Hpos : 0 < cur).
  { assert (0 <= cur); [| lia]. unfold cur.
    destruct (_ =? RLIM_INFINITY); [apply Z.mod_pos_bound; lia |].
    destruct (_ <? _); lia. }
  match goal with
  | H : lwan_init_buffers _ _ _ = _ |- _ =>
      pose proof (lwan_init_buffers_frame _ _ _ _ _ _ _ H) as [Hlen Hframe];
      pose proof (lwan_init_buffers_slots _ _ _ _ _ _ _ H) as [Hnext Hslots]
  end.
  rewrite Hcalloc in *. rewrite length_replicate in Hlen.
  destruct (lwan_init_requests_slot_zero _ _ _ _ _ _ _ _
              (zero_request other_size) H0) as [Hb0 _].
  { match goal with H : _ = rs |- _ => rewrite <- H end.
    rewrite Hframe by auto. apply lookup_replicate. split; [done | lia]. }
  subst. rewrite Hlen.
  split; [done |]. split; [now rewrite Z2Nat.id by lia |].
  split; [lia |]. split; [lia |]. split.
  - intros i Hi. destruct (Hslots i ltac:(lia)) as (r & Hr & Hb & _).
    exists r. split; [done |]. rewrite Hb. do 2 f_equal. lia.
  - exists (zero_request other_size). split; [| done].
    rewrite Hframe by auto. apply lookup_replicate. split; [done | lia].
Qed.

(** The last loop of [lwan_shutdown] on such a slab. *)
Lemma lwan_shutdown_buffers_trace rs m :
  (forall i, (1 <= i < length rs)%nat ->
     exists r, rs !! i = Some r /\
       response_buffer r =
         Some {| strbuf_id := length rs - 1 - i; strbuf_len := 0 |}) ->
  (exists r0, rs !! 0%nat = Some r0 /\ response_buffer r0 = None) ->
  (S m <= length rs)%nat ->
  lwan_shutdown_buffers (S m) rs
  = (((fun id => Cstrbuf_free (Some id)) <$> seq (length rs - S m) m)
     ++ [Cstrbuf_free None], Ok tt).
Proof.
  intros Hslots (r0 & Hr0 & Hb0). induction m as [| m IH]; intros Hm.
  - cbn [lwan_shutdown_buffers].
    rewrite (index_lookup _ _ r0 Hr0), bind_ret. now rewrite Hb0.
  - destruct (Hslots (S m) ltac:(lia)) as (r & Hr & Hb).
    change (lwan_shutdown_buffers (S (S m)) rs)
      with (let* request := index rs (Z.of_nat (S m)) in
            let* _ := emit (Cstrbuf_free
                              (strbuf_id <$> response_buffer request)) in
            lwan_shutdown_buffers (S m) rs).
    rewrite (index_lookup _ _ r Hr), bind_ret, Hb, IH by lia.
    cbn [seq fmap list_fmap option_fmap option_map strbuf_id].
    replace (S (length rs - S (S m))) with (length rs - S m)%nat by lia.
    replace (length rs - 1 - S m)%nat with (length rs - S (S m))%nat by lia.
    reflexivity.
Qed.

(** X12: after [lwan_init] the last loop of [lwan_shutdown] stays
    inside the slab; it hands [NULL] to [strbuf_free] for slot 0 and
    frees the buffer of every other slot below [max_fd * count] once.
    The buffers of the slots from [max_fd * count] on (there are some
    when the limit is no multiple of the number of threads) are not
    freed. *)
Theorem X12_shutdown_frees_slots_below_max_fd_times_count
    l other_size env tr count max_fd rs next :
  calloc_ok env = true ->
  0 <= rlim_cur (getrlimit_val env) -> 0 <= rlim_max (getrlimit_val env) ->
  lwan_init_requests l other_size env = (tr, Ok (count, max_fd, rs, next)) ->
  Z.of_nat (length rs) <= INT_MAX -> 0 < max_fd ->
  let m := Z.to_nat (max_fd * count) in
  (1 <= m <= length rs)%nat /\
  next = (length rs - 1)%nat /\
  lwan_shutdown_buffers m rs
  = (((fun id => Cstrbuf_free (Some id)) <$> seq (length rs - m) (m - 1))
     ++ [Cstrbuf_free None], Ok tt).
Proof.
  intros Hcalloc Hcur Hmax H Hint Hfd m.
  destruct (lwan_init_requests_Ok _ _ _ _ _ _ _ _ Hcalloc Hcur Hmax H)
    as (Hcount & Hmaxfd & Hlen & Hnext & Hslots & Hzero).
  assert (Hc : 0 < count) by (rewrite Hcount; destruct (Z.ltb_spec 0 (sysconf_ret env)); lia).
  assert (Hdiv : 0 <= Z.of_nat (length rs) / count <= Z.of_nat (length rs)).
  { split; [apply Z.div_pos; lia |].
    apply Z.div_le_upper_bound; [lia |]. nia. }
  rewrite to_int_small in Hmaxfd by (unfold INT_MIN, INT_MAX in *; lia).
  assert (Hm : 1 <= max_fd * count <= Z.of_nat (length rs)).
  { split; [nia |]. rewrite Hmaxfd, Z.mul_comm. apply Z.mul_div_le. lia. }
  split; [unfold m; lia |]. split; [done |].
  destruct m as [| m'] eqn:Em; [unfold m in Em; lia |].
  rewrite (lwan_shutdown_buffers_trace rs m' Hslots Hzero)
    by (unfold m in Em; lia).
  replace (S m' - 1)%nat with m' by lia. reflexivity.
Qed.

(** X13: [lwan_init] does not look at what [calloc] returns: when
    [calloc] fails and the limit is above 1, the loop over the slab
    is entered, [strbuf_new] is called, and the store of its result
    goes through [NULL]; nothing is reported. *)
Theorem X13_lwan_init_stores_through_null_when_calloc_fails
    l other_size env :
  0 <= getrlimit_ret env -> 0 <= setrlimit_ret env ->
  calloc_ok env = false ->
  rlim_max (getrlimit_val env) <> RLIM_INFINITY ->
  1 < rlim_max (getrlimit_val env) ->
  lwan_init_requests l other_size env
  = ([Cgetrlimit;
      Csetrlimit (Z.max (rlim_cur (getrlimit_val env))
                        (rlim_max (getrlimit_val env)))
                 (rlim_max (getrlimit_val env));
      Cstrbuf_new 0], Undefined).
Proof.
  intros Hg Hs Hcalloc Hinf Hmax. unfold lwan_init_requests.
  destruct (Z.ltb_spec (getrlimit_ret env) 0); [lia |].
  destruct (Z.ltb_spec (setrlimit_ret env) 0); [lia |].
  destruct (Z.eqb_spec (rlim_max (getrlimit_val env)) RLIM_INFINITY); [done |].
  rewrite Hcalloc.
  set (cur := if _ <? _ then _ else _).
  assert (Hc : cur = Z.max (rlim_cur (getrlimit_val env))
                           (rlim_max (getrlimit_val env))).
  { unfold cur.
    destruct (Z.ltb_spec (rlim_cur (getrlimit_val env))
                         (rlim_max (getrlimit_val env))); lia. }
  destruct (Z.eqb_spec cur 0); [lia |].
  replace (Z.to_nat (cur - 1)) with (S (Z.to_nat (cur - 2))) by lia.
  cbn [lwan_init_buffers]. rewrite <- Hc. reflexivity.
Qed.

Lemma X12_shutdown_frees_slots_below_max_fd_times_count_witness :
  exists tr rs,
    lwan_init_requests 1 2 Scenario.env_nine = (tr, Ok (2, 4, rs, 8%nat)) /\
    length rs = 9%nat /\
    lwan_shutdown_buffers 8 rs
    = ([Cstrbuf_free (Some 1%nat); Cstrbuf_free (Some 2%nat);
        Cstrbuf_free (Some 3%nat); Cstrbuf_free (Some 4%nat);
        Cstrbuf_free (Some 5%nat); Cstrbuf_free (Some 6%nat);
        Cstrbuf_free (Some 7%nat); Cstrbuf_free None], Ok tt).
Proof.
  eexists _, _.
  split; [vm_compute; reflexivity |].
  split; [vm_compute; reflexivity |].
  refine (proj2 (proj2
    (X12_shutdown_frees_slots_below_max_fd_times_count
       1%nat 2%nat Scenario.env_nine _ 2 4 _ 8%nat _ _ _ _ _ _))).
  - reflexivity.
  - simpl. lia.
  - simpl. lia.
  - vm_compute; reflexivity.
  - vm_compute. discriminate.
  - lia.
Defined.
Lemma X13_lwan_init_stores_through_null_when_calloc_fails_witness :
  lwan_init_requests 1 2 Scenario.env_no_memory
  = ([Cgetrlimit; Csetrlimit 8 8; Cstrbuf_new 0], Undefined).
Proof.
  refine (X13_lwan_init_stores_through_null_when_calloc_fails
            1%nat 2%nat Scenario.env_no_memory _ _ _ _ _).
  - simpl. lia.
  - simpl. lia.
  - reflexivity.
  - vm_compute. discriminate.
  - simpl. lia.
Defined.
End LifetimeFacts.

(** ** What registration leaves in the URL map *)

Module RegistrationFacts.
Import Lwan UrlMapFacts.
Local Open Scope Z_scope.

#[local] Arguments bind : simpl never.
#[local] Arguments emit : simpl never.

(** What the loop of [lwan_set_url_map] leaves in an entry. *)
Lemma lwan_set_url_map_entries_configured mask pre term post :
  Forall (fun e => prefix e <> None) pre -> prefix term = None ->
  exists tr E',
    lwan_set_url_map_entries mask (pre ++ term :: post)
      = (tr, Ok (E' ++ term :: post, omap prefix pre)) /\
    length E' = length pre /\
    inits tr = omap init_call pre /\
    forall i e, pre !! i = Some e ->
      exists e', E' !! i = Some e' /\
        prefix e' = prefix e /\ handler e' = handler e /\ args e' = args e /\
        (forall p, prefix e = Some p ->
           prefix_len e' = Z.of_nat (String.length p)) /\
        match handler e with
        | Some {| init := Some f; handle := cb; handler_flags := fl |} =>
            data e' = f (args e) /\ callback e' = cb /\ um_flags e' = fl
        | _ =>
            data e' = data e /\ callback e' = callback e /\ um_flags e' = mask
        end.
Proof.
  intros Hpre Hterm. induction Hpre as [| e pre He _ IH].
  - exists [], []. cbn [app lwan_set_url_map_entries]. rewrite Hterm.
    repeat split; auto. intros i e [=].
  - destruct IH as (tr & E' & Hrun & Hlen & Hinits & Hentries).
    destruct (prefix e) as [p |] eqn:Hp; [| done].
    cbn [app lwan_set_url_map_entries]. rewrite Hp, Hrun.
    destruct (handler e) as [[h [f |] sh cb fl] |] eqn:Hh.
    + eexists _, (_ :: E').
      split; [unfold bind, emit, ret; simpl; rewrite ?Hp; simpl; reflexivity |].
      split; [simpl; lia |]. split.
      { rewrite app_nil_r. unfold inits in *. simpl. unfold init_call at 1.
        rewrite Hh. simpl. now f_equal. }
      intros [| i] e0 Hi; simpl in Hi.
      * injection Hi as <-. eexists. split; [reflexivity |]. rewrite Hh, Hp. simpl.
        repeat split; auto. now intros p0 [= <-].
      * apply (Hentries i e0 Hi).
    + eexists _, (_ :: E').
      split; [unfold bind, emit, ret; simpl; rewrite ?Hp; simpl; reflexivity |].
      split; [simpl; lia |]. split.
      { rewrite app_nil_r. unfold inits in *. simpl. unfold init_call at 1.
        rewrite Hh. simpl. done. }
      intros [| i] e0 Hi; simpl in Hi.
      * injection Hi as <-. eexists. split; [reflexivity |]. rewrite Hh, Hp. simpl.
        repeat split; auto. now intros p0 [= <-].
      * apply (Hentries i e0 Hi).
    + eexists _, (_ :: E').
      split; [unfold bind, emit, ret; simpl; rewrite ?Hp; simpl; reflexivity |].
      split; [simpl; lia |]. split.
      { rewrite app_nil_r. unfold inits in *. simpl. unfold init_call at 1.
        rewrite Hh. simpl. done. }
      intros [| i] e0 Hi; simpl in Hi.
      * injection Hi as <-. eexists. split; [reflexivity |]. rewrite Hh, Hp. simpl.
        repeat split; auto. now intros p0 [= <-].
      * apply (Hentries i e0 Hi).
Qed.

Lemma terminated_split E :
  terminated E ->
  exists term post,
    E = registered E ++ term :: post /\ prefix term = None /\
    Forall (fun e => prefix e <> None) (registered E).
Proof.
  intros (x & Hx & Hnone). induction E as [| e E IH].
  - now apply elem_of_nil in Hx.
  - cbn [registered]. destruct (prefix e) as [p |] eqn:Hp.
    + apply elem_of_cons in Hx as [-> | Hx]; [congruence |].
      destruct (IH Hx) as (term & post & HE & Hterm & Hall).
      exists term, post. split; [simpl; now f_equal |].
      split; [done |]. constructor; [congruence | done].
    + exists e, E. split; [done |]. split; [done |]. constructor.
Qed.

Lemma _url_map_free_entries_returns E :
  terminated E -> exists tr, _url_map_free_entries E = (tr, Ok tt).
Proof.
  intros (x & Hx & Hnone). induction E as [| e E IH].
  - now apply elem_of_nil in Hx.
  - cbn [_url_map_free_entries]. destruct (prefix e) as [p |] eqn:Hp.
    + apply elem_of_cons in Hx as [-> | Hx]; [congruence |].
      destruct (IH Hx) as (tr & Htr). rewrite Htr.
      destruct (handler e) as [h |]; [destruct (shutdown h) |];
        eexists; unfold bind, emit, ret; simpl; reflexivity.
    + eexists. reflexivity.
Qed.

Lemma _url_map_free_returns l :
  (forall E, l_url_map l = Some E -> terminated E) ->
  exists tr, _url_map_free l = (tr, Ok tt).
Proof.
  intros Hl. unfold _url_map_free. destruct (l_url_map l) as [E |].
  - destruct (_url_map_free_entries_returns E (Hl E eq_refl)) as (tr & Htr).
    rewrite Htr. eexists. unfold bind, emit; simpl. reflexivity.
  - eexists. reflexivity.
Qed.

Lemma lwan_set_url_map_entries_open mask E :
  ~ terminated E ->
  exists tr, lwan_set_url_map_entries mask E = (tr, Undefined).
Proof.
  induction E as [| e E IH]; intros Hopen.
  - eexists. reflexivity.
  - cbn [lwan_set_url_map_entries]. destruct (prefix e) as [p |] eqn:Hp.
    + destruct IH as (tr & Htr).
      { intros (x & Hx & Hnone). apply Hopen. exists x.
        split; [now apply list_elem_of_further | done]. }
      rewrite Htr.
      destruct (handler e) as [[h [f |] sh cb fl] |];
        eexists; unfold bind, emit, ret; simpl; reflexivity.
    + exfalso. apply Hopen. exists e. split; [apply list_elem_of_here | done].
Qed.

(** X14: [lwan_set_url_map] on an array that has its terminator, when
    the trie could be created and the array registered before (if any)
    has its terminator too.  The call returns.  The trie holds the
    prefixes of the entries before the terminator, in order.  The
    array is registered with the terminator and what follows it
    untouched.  An entry before the terminator keeps its prefix,
    handler and arguments, and [prefix_len] is the length of the
    prefix; when its handler has an [init], [data] is what [init]
    returned on the arguments, and [callback] and [flags] are the
    handler's; otherwise (no handler, or a handler without [init])
    [data] and [callback] stay as they were and [flags] is
    [HANDLER_PARSE_MASK]. *)
Theorem X14_url_map_registration mask l E :
  (forall E0, l_url_map l = Some E0 -> terminated E0) ->
  terminated E ->
  exists tr l' E',
    lwan_set_url_map mask true l E = (tr, Ok l') /\
    l_url_map l' = Some E' /\
    l_url_map_trie l' = Some (omap prefix (registered E)) /\
    terminated E' /\
    length E' = length E /\
    drop (length (registered E)) E' = drop (length (registered E)) E /\
    forall i e, registered E !! i = Some e ->
      exists e', E' !! i = Some e' /\
        prefix e' = prefix e /\ handler e' = handler e /\ args e' = args e /\
        (forall p, prefix e = Some p ->
           prefix_len e' = Z.of_nat (String.length p)) /\
        match handler e with
        | Some {| init := Some f; handle := cb; handler_flags := fl |} =>
            data e' = f (args e) /\ callback e' = cb /\ um_flags e' = fl
        | _ =>
            data e' = data e /\ callback e' = callback e /\ um_flags e' = mask
        end.
Proof.
  intros Hold Hterm.
  destruct (_url_map_free_returns l Hold) as (t0 & Hfree).
  destruct (terminated_split E Hterm) as (term & post & HE & Hnone & Hall).
  destruct (lwan_set_url_map_entries_configured mask _ term post Hall Hnone)
    as (tr & E' & Hrun & Hlen & _ & Hentries).
  rewrite <- HE in Hrun.
  unfold lwan_set_url_map. rewrite Hfree. cbn [negb].
  unfold bind at 1. unfold bind at 1. unfold emit at 1. rewrite Hrun.
  eexists _, _, (E' ++ term :: post).
  split; [unfold bind, ret; simpl; reflexivity |].
  split; [reflexivity |]. split; [reflexivity |].
  split.
  { exists term. split; [| done].
    apply elem_of_app. right. apply list_elem_of_here. }
  split.
  { rewrite HE at 1. rewrite !length_app. simpl. lia. }
  split.
  { transitivity (term :: post).
    - rewrite <- Hlen. apply drop_app_length.
    - rewrite HE at 2. symmetry. apply drop_app_length. }
  intros i e Hi. destruct (Hentries i e Hi) as (e' & He' & H').
  exists e'. split; [| exact H'].
  now apply lookup_app_l_Some.
Qed.

(** X15: [lwan_set_url_map] stops only at an entry whose [prefix] is
    [NULL]: on an array without one it reads past the end of the
    array. *)
Theorem X15_url_map_without_terminator mask l E :
  (forall E0, l_url_map l = Some E0 -> terminated E0) ->
  ~ terminated E ->
  exists tr, lwan_set_url_map mask true l E = (tr, Undefined).
Proof.
  intros Hold Hopen.
  destruct (_url_map_free_returns l Hold) as (t0 & Hfree).
  destruct (lwan_set_url_map_entries_open mask E Hopen) as (tr & Hrun).
  unfold lwan_set_url_map. rewrite Hfree. cbn [negb].
  unfold bind at 1. unfold bind at 1. unfold emit at 1. rewrite Hrun.
  eexists. unfold bind, ret; simpl. reflexivity.
Qed.

Lemma first_map_terminated : terminated Scenario.first_map.
Proof.
  exists (Scenario.url_entry None None 0). split; [| reflexivity].
  unfold Scenario.first_map. do 3 apply list_elem_of_further.
  apply list_elem_of_here.
Qed.
Lemma X14_url_map_registration_witness :
  exists tr l' E',
    lwan_set_url_map 255 true Scenario.unregistered Scenario.first_map
      = (tr, Ok l') /\
    l_url_map l' = Some E' /\
    l_url_map_trie l' = Some ["/files"; "/hello"; "/static"]%string /\
    terminated E' /\
    length E' = 4%nat /\
    drop 3 E' = [Scenario.url_entry None None 0] /\
    forall i e, registered Scenario.first_map !! i = Some e ->
      exists e', E' !! i = Some e' /\
        prefix e' = prefix e /\ handler e' = handler e /\ args e' = args e /\
        (forall p, prefix e = Some p ->
           prefix_len e' = Z.of_nat (String.length p)) /\
        match handler e with
        | Some {| init := Some f; handle := cb; handler_flags := fl |} =>
            data e' = f (args e) /\ callback e' = cb /\ um_flags e' = fl
        | _ =>
            data e' = data e /\ callback e' = callback e /\ um_flags e' = 255
        end.
Proof.
  exact (X14_url_map_registration 255 Scenario.unregistered Scenario.first_map
           ltac:(intros E0 [=]) first_map_terminated).
Defined.
Lemma X15_url_map_without_terminator_witness :
  exists tr,
    lwan_set_url_map 255 true Scenario.unregistered Scenario.open_map
      = (tr, Undefined).
Proof.
  refine (X15_url_map_without_terminator 255 Scenario.unregistered
            Scenario.open_map _ _).
  - intros E0 [=].
  - intros (e & He & Hnone). unfold Scenario.open_map in He.
    repeat (apply elem_of_cons in He as [-> | He]; [discriminate Hnone |]).
    now apply elem_of_nil in He.
Defined.
End RegistrationFacts.
